(** * webmesh node: mesh ACL evaluation, topology resolution, snapshots,
      the raft observer loop and the leave RPC

    A shallow embedding of the Go sources of the webmesh node and the
    properties its specification states about them.

    Conventions of the embedding.
    - Go strings are byte strings: [string].
    - Go integers ([int32], [uint32], [int]) are [Z]; none of the modelled
      code can overflow them.
    - A Go map that is an input of the modelled code is an association
      list whose order is the order in which [range] visits it; Go leaves
      that order unspecified, so a statement over all such lists covers
      every order.  A map that the code builds itself ([groups] in
      [ACL.Matches]) is ranged in the order chosen by the [Runtime].
    - Calls into collaborators that are not part of the repository
      (hashicorp/raft, database/sql, the peers store) are recorded as
      explicit call traces or modelled by their documented contract. *)

From Stdlib Require Import Ascii.
From stdpp Require Import base option list strings sorting gmap sets.

#[local] Set Warnings "-clear-no-such-hyp".

Local Open Scope string_scope.
Local Open Scope Z_scope.
Local Open Scope list_scope.

(* ================================================================== *)
(** * Part I: the embedding                                            *)
(* ================================================================== *)

(** ** Go's [strings] package, as far as [eval.go] uses it *)

Module GoStrings.

(** [strings.HasPrefix(s, prefix)] *)
Definition HasPrefix (s prefix : string) : bool := String.prefix prefix s.

(** [strings.HasSuffix(s, suffix)] *)
Definition HasSuffix (s suffix : string) : bool :=
  let n := String.length s in
  let m := String.length suffix in
  (m <=? n)%nat && String.eqb (String.substring (n - m) m s) suffix.

(** [strings.TrimPrefix(s, prefix)] *)
Definition TrimPrefix (s prefix : string) : string :=
  if HasPrefix s prefix
  then String.substring (String.length prefix)
         (String.length s - String.length prefix) s
  else s.

(** [strings.TrimSuffix(s, suffix)] *)
Definition TrimSuffix (s suffix : string) : string :=
  if HasSuffix s suffix
  then String.substring 0 (String.length s - String.length suffix) s
  else s.

(** [strings.Contains(s, substr)] *)
Definition Contains (s substr : string) : bool :=
  match String.index 0 substr s with
  | Some _ => true
  | None => false
  end.

(** [strings.Split(s, sep)] for a separator of one byte, the only form
    [eval.go] calls ([strings.Split(v, "*")]). *)
Fixpoint Split (s : string) (sep : ascii) : list string :=
  match s with
  | EmptyString => [EmptyString]
  | String c s' =>
      if Ascii.eqb c sep then EmptyString :: Split s' sep
      else match Split s' sep with
           | [] => [String c EmptyString]
           | p :: ps => String c p :: ps
           end
  end.

End GoStrings.

(** ** The protobuf messages of [github.com/webmeshproj/api/v1] *)

Module v1.

Inductive ACLAction := ACTION_UNKNOWN | ACTION_ACCEPT | ACTION_DENY.

Inductive SubjectType := SUBJECT_ALL | SUBJECT_NODE | SUBJECT_USER | SUBJECT_GROUP.

Record Subject := { SubjectName : string; SubjectKind : SubjectType }.

Record Group := { GroupName : string; Subjects : list Subject }.

Record NetworkACL := {
  Name : string;
  Priority : Z;
  Action : ACLAction;
  SourceNodes : list string;
  DestinationNodes : list string;
  SourceCidrs : list string;
  DestinationCidrs : list string;
  Protocols : list string;
  Ports : list Z
}.

Record NetworkAction := {
  SrcNode : string;
  SrcCidr : string;
  DstNode : string;
  DstCidr : string;
  Protocol : string;
  Port : Z
}.

Record Route := {
  RouteName : string;
  RouteNode : string;
  RouteDestinationCidrs : list string
}.

#[global] Instance ACLAction_eq_dec : EqDecision ACLAction.
Proof. solve_decision. Defined.

#[global] Instance SubjectType_eq_dec : EqDecision SubjectType.
Proof. solve_decision. Defined.

End v1.

(** ** [pkg/meshdb/networking/eval.go] *)

Module Networking.
Import GoStrings v1.

(** The result of [rbac.New(storage).GetGroup(ctx, name)]: the group, the
    sentinel [rbac.ErrGroupNotFound], or any other error. *)
Inductive GetGroupResult :=
| GroupFound (g : Group)
| ErrGroupNotFound
| GetGroupError.

(** [storage.Storage], seen through the one query [Matches] performs. *)
Definition Storage := string -> GetGroupResult.

(** [type ACL struct { *v1.NetworkACL; storage storage.Storage }] *)
Record ACL := { acl : NetworkACL; storage : Storage }.

(** [type ACLs []*ACL] *)
Definition ACLs := list ACL.

Inductive SortDirection := SortDescending | SortAscending.

(** [ACLs.Less], on the elements rather than on their indices. *)
Definition Less (a b : ACL) : bool := Priority (acl a) <? Priority (acl b).

(** [sort.Reverse(a).Less] *)
Definition ReverseLess (a b : ACL) : bool := Less b a.

(** The [groups] map of [Matches]: group name to collected members, in
    order of first insertion. *)
Definition GroupMap := list (string * list string).

(** What the Go runtime and library decide and the source does not:
    the order in which [range] visits the [groups] map, and the
    permutation [sort.Sort] produces (it is not stable). [sort.Sort]
    leaves the data ordered by [less] whenever [less] is a strict weak
    order. *)
Record Runtime := {
  rangeGroups : GroupMap -> GroupMap;
  rangeGroups_perm : forall m, rangeGroups m ≡ₚ m;
  sortSort : (ACL -> ACL -> bool) -> ACLs -> ACLs;
  sortSort_perm : forall less l, sortSort less l ≡ₚ l;
  sortSort_sorted : forall less : ACL -> ACL -> bool,
    (forall a b, less a b = true -> less b a = false) ->
    (forall a b c, less b a = false -> less c b = false -> less c a = false) ->
    forall l, StronglySorted (fun a b => less b a = false) (sortSort less l)
}.

(** [ACLs.Sort]; it sorts the slice in place, the model returns it. *)
Definition Sort (rt : Runtime) (a : ACLs) (direction : SortDirection) : ACLs :=
  match direction with
  | SortAscending => sortSort rt Less a
  | SortDescending => sortSort rt ReverseLess a
  end.

Definition containsOrWildcardMatch (ss : list string) (s : string) : bool :=
  existsb (fun v =>
    if String.eqb v "*" then true
    else if Contains v "*" then
      if HasPrefix v "*" then HasSuffix s (TrimPrefix v "*")
      else if HasSuffix v "*" then HasPrefix s (TrimSuffix v "*")
      else
        let parts := Split v "*"%char in
        HasPrefix s (nth 0 parts "") && HasSuffix s (nth 1 parts "")
    else String.eqb v s) ss.

Definition containsPort (pp : list Z) (p : Z) : bool :=
  existsb (fun v => v =? p) pp.

Fixpoint replace (in_ : list string) (obj : string) (with_ : list string)
  : list string :=
  match in_ with
  | [] => []
  | v :: rest =>
      if String.eqb v obj then with_ ++ replace rest obj with_
      else v :: replace rest obj with_
  end.

(** [_, ok := groups[k]] *)
Definition groupsHas (groups : GroupMap) (k : string) : bool :=
  existsb (fun kv => String.eqb kv.1 k) groups.

(** [groups[k] = append(groups[k], v)] *)
Fixpoint groupsAppend (groups : GroupMap) (k v : string) : GroupMap :=
  match groups with
  | [] => [(k, [v])]
  | (k', vs) :: rest =>
      if String.eqb k' k then (k', vs ++ [v]) :: rest
      else (k', vs) :: groupsAppend rest k v
  end.

(** The first loop of a node block of [Matches] ("Are we expanding any
    groups?"). [None] is the [return false] after a failed lookup. Note
    that the map is probed with the whole entry [node] but filled under
    [groupName]. *)
Fixpoint collectGroups (st : Storage) (nodes : list string) (groups : GroupMap)
  : option GroupMap :=
  match nodes with
  | [] => Some groups
  | node :: rest =>
      if HasPrefix node "group:" then
        if groupsHas groups node then collectGroups st rest groups
        else
          let groupName := TrimPrefix node "group:" in
          match st groupName with
          | GetGroupError => None
          | ErrGroupNotFound => collectGroups st rest groups
          | GroupFound group =>
              collectGroups st rest
                (fold_left (fun gs subject =>
                   if bool_decide (SubjectKind subject = SUBJECT_ALL)
                      || bool_decide (SubjectKind subject = SUBJECT_NODE)
                   then groupsAppend gs groupName (SubjectName subject)
                   else gs) (Subjects group) groups)
          end
      else collectGroups st rest groups
  end.

(** One turn of the second loop ("Replace group references with their
    members"): the labelled inner loop finds the first entry equal to
    ["group:" + groupName] and replaces it. *)
Definition replaceGroup (nodes : list string) (groupName : string)
  (members : list string) : list string :=
  match List.find (fun node => String.eqb node ("group:" +:+ groupName)) nodes with
  | Some node => replace nodes node members
  | None => nodes
  end.

(** Both loops of a node block: the node list as [Matches] leaves it, or
    [None] when a lookup failed. *)
Definition expandGroups (rt : Runtime) (st : Storage) (nodes : list string)
  : option (list string) :=
  match collectGroups st nodes [] with
  | None => None
  | Some groups =>
      Some (fold_left (fun ns gm => replaceGroup ns gm.1 gm.2)
              (rangeGroups rt groups) nodes)
  end.

Definition setSourceNodes (a : ACL) (nodes : list string) : ACL :=
  let n := acl a in
  {| acl := {| Name := Name n; Priority := Priority n; Action := Action n;
               SourceNodes := nodes;
               DestinationNodes := DestinationNodes n;
               SourceCidrs := SourceCidrs n;
               DestinationCidrs := DestinationCidrs n;
               Protocols := Protocols n; Ports := Ports n |};
     storage := storage a |}.

Definition setDestinationNodes (a : ACL) (nodes : list string) : ACL :=
  let n := acl a in
  {| acl := {| Name := Name n; Priority := Priority n; Action := Action n;
               SourceNodes := SourceNodes n;
               DestinationNodes := nodes;
               SourceCidrs := SourceCidrs n;
               DestinationCidrs := DestinationCidrs n;
               Protocols := Protocols n; Ports := Ports n |};
     storage := storage a |}.

(** A block of [Matches]: [(false, a)] is [return false] with the ACL
    left as [a]; [(true, a)] falls through to the next block. *)
Definition Check := ACL -> bool * ACL.

Definition andThen (c1 c2 : Check) : Check :=
  fun a => let r := c1 a in if r.1 then c2 r.2 else (false, r.2).

Definition lenGeZero {A} (l : list A) : bool := 0 <=? Z.of_nat (length l).

Definition checkSrcNode (rt : Runtime) (action : NetworkAction) : Check :=
  fun a =>
    if negb (String.eqb (SrcNode action) "") then
      if lenGeZero (SourceNodes (acl a)) then
        match expandGroups rt (storage a) (SourceNodes (acl a)) with
        | None => (false, a)
        | Some nodes =>
            let a := setSourceNodes a nodes in
            (containsOrWildcardMatch (SourceNodes (acl a)) (SrcNode action), a)
        end
      else (true, a)
    else (true, a).

Definition checkDstNode (rt : Runtime) (action : NetworkAction) : Check :=
  fun a =>
    if negb (String.eqb (DstNode action) "") then
      if lenGeZero (DestinationNodes (acl a)) then
        match expandGroups rt (storage a) (DestinationNodes (acl a)) with
        | None => (false, a)
        | Some nodes =>
            let a := setDestinationNodes a nodes in
            (containsOrWildcardMatch (DestinationNodes (acl a)) (DstNode action), a)
        end
      else (true, a)
    else (true, a).

(** The four blocks that only read the ACL. *)
Definition checkList (field : NetworkACL -> list string) (value : string) : Check :=
  fun a =>
    if negb (String.eqb value "") then
      if lenGeZero (field (acl a)) then
        (containsOrWildcardMatch (field (acl a)) value, a)
      else (true, a)
    else (true, a).

Definition checkPort (action : NetworkAction) : Check :=
  fun a =>
    if negb (Port action =? 0) then
      if lenGeZero (Ports (acl a)) then
        (containsPort (Ports (acl a)) (Port action), a)
      else (true, a)
    else (true, a).

(** [ACL.Matches]: the verdict, and the receiver as the call leaves it
    ([Matches] assigns to [acl.SourceNodes] and [acl.DestinationNodes]). *)
Definition Matches (rt : Runtime) (a : ACL) (action : NetworkAction) : bool * ACL :=
  andThen (checkSrcNode rt action)
    (andThen (checkDstNode rt action)
      (andThen (checkList SourceCidrs (SrcCidr action))
        (andThen (checkList DestinationCidrs (DstCidr action))
          (andThen (checkList Protocols (Protocol action))
            (checkPort action))))) a.

(** [ACLs.Accept]: the verdict, and the list with every ACL that was
    evaluated left as [Matches] left it. *)
Fixpoint Accept (rt : Runtime) (a : ACLs) (action : NetworkAction) : bool * ACLs :=
  match a with
  | [] => (false, [])
  | acl0 :: rest =>
      let r := Matches rt acl0 action in
      if r.1 then (bool_decide (Action (acl r.2) = ACTION_ACCEPT), r.2 :: rest)
      else let r' := Accept rt rest action in (r'.1, r.2 :: r'.2)
  end.

End Networking.

(** ** [net/netip], [pkg/meshdb/peers] and the interfaces [peers.go] consumes *)

Module Netip.

(** [netip.Prefix], by its canonical text; the zero [Prefix] is invalid. *)
Inductive Prefix := InvalidPrefix | MkPrefix (cidr : string).

Definition IsValid (p : Prefix) : bool :=
  match p with InvalidPrefix => false | MkPrefix _ => true end.

(** [Prefix.String] *)
Definition PrefixString (p : Prefix) : string :=
  match p with InvalidPrefix => "invalid Prefix" | MkPrefix cidr => cidr end.

#[global] Instance Prefix_eq_dec : EqDecision Prefix.
Proof. solve_decision. Defined.

End Netip.

Module Peers.
Import Netip.

(** [peers.MeshNode]: the node message together with the results of its
    methods [PrivateAddrV4()] and [PrivateAddrV6()]. *)
Record MeshNode := {
  Id : string;
  PublicKey : string;
  HostPublicKey : string;
  PrimaryEndpoint : string;
  WireguardEndpoints : list string;
  ZoneAwarenessId : string;
  Multiaddrs : list string;
  PrivateAddrV4 : Prefix;
  PrivateAddrV6 : Prefix;
  Features : list string;
  JoinedAt : Z
}.

(** [graph.Edge[string]] with its [Properties]. *)
Record Edge := {
  EdgeSource : string;
  EdgeTarget : string;
  EdgeWeight : Z;
  EdgeAttributes : list (string * string)
}.

(** [map[string]graph.Edge[string]]: the edges leaving one node, in the
    order [range] visits them. *)
Definition EdgeMap := list (string * Edge).

(** [networking.AdjacencyMap] *)
Definition AdjacencyMap := list (string * EdgeMap).

(** [adjacencyMap[id]]: a missing key reads as the empty (nil) map. *)
Definition adjacents (m : AdjacencyMap) (id : string) : EdgeMap :=
  match List.find (fun kv => String.eqb kv.1 id) m with
  | Some kv => kv.2
  | None => []
  end.

(** [_, ok := edges[id]] *)
Definition hasEdge (edges : EdgeMap) (id : string) : bool :=
  existsb (fun kv => String.eqb kv.1 id) edges.

(** [peers.Graph]: vertices are stored under their own id. *)
Record Graph := { vertices : list MeshNode; edges : AdjacencyMap }.

(** [graph.Vertex(id)]; [None] is the error [graph.ErrVertexNotFound]. *)
Definition Vertex (g : Graph) (id : string) : option MeshNode :=
  List.find (fun n => String.eqb (Id n) id) (vertices g).

Inductive ConnectProtocol := CONNECT_NATIVE | CONNECT_ICE | CONNECT_LIBP2P.

End Peers.

Module Meshutil.
Import GoStrings v1 Netip Peers.

(** A Go result pair [(value, error)]. *)
Inductive result (A : Type) :=
| Ok (a : A)
| Err (e : string).
Arguments Ok {A} a.
Arguments Err {A} e.

(** What a call of the recursive code comes to in the model: its Go
    result, or [None] when the recursion budget of the model ran out
    (which [recursePeers] never meets, see [recursePeers_total]). *)
Definition outcome (A : Type) : Type := option (result A).

(** The [networking.Networking] interface, as far as [peers.go] calls it. *)
Record Networking := {
  FilterGraph : Graph -> string -> result AdjacencyMap;
  GetRoutesByNode : string -> result (list Route)
}.

(** [storage.MeshStorage], seen through [peers.New(st).Graph()] and
    [networking.New(st)]. *)
Record MeshStorage := { PeersGraph : Graph; NetworkingNew : Networking }.

(** Library and package functions [peers.go] calls whose code is not
    part of the repository. [ParsePrefix] returns [None] for an error. *)
Record Deps := {
  ParsePrefix : string -> option Prefix;
  ProtoFromEdgeAttrs : list (string * string) -> ConnectProtocol
}.

(** [v1.WireGuardPeer], with the fields of its [Node] inlined. *)
Record WireGuardPeer := {
  PeerId : string;
  PeerPublicKey : string;
  PeerHostPublicKey : string;
  PeerPrimaryEndpoint : string;
  PeerWireguardEndpoints : list string;
  PeerZoneAwarenessId : string;
  PeerMultiaddrs : list string;
  PeerPrivateIpv4 : string;
  PeerPrivateIpv6 : string;
  PeerFeatures : list string;
  PeerJoinedAt : Z;
  Proto : ConnectProtocol;
  AllowedIps : list string;
  AllowedRoutes : list string
}.

(** [slices.Contains] on prefixes *)
Definition containsPrefix (l : list Prefix) (p : Prefix) : bool :=
  bool_decide (p ∈ l).

(** [for _, ip := range ips { if !slices.Contains(acc, ip) { acc = append(acc, ip) } }] *)
Definition appendNew (acc ips : list Prefix) : list Prefix :=
  fold_left (fun acc ip => if containsPrefix acc ip then acc else acc ++ [ip]) ips acc.

(** The address lines shared by [recursePeers] and [recurseEdges]. *)
Definition appendValid (allowedIPs : list Prefix) (p : Prefix) : list Prefix :=
  if IsValid p then allowedIPs ++ [p] else allowedIPs.

(** The destination CIDRs in the order of the two nested [range]s. *)
Definition destinationCidrs (routes : list Route) : list string :=
  flat_map RouteDestinationCidrs routes.

(** "Does this peer expose routes?": every parsed destination prefix
    not yet allowed and not one of [thisRoutes] is appended; [None] is
    the parse error. *)
Fixpoint appendRoutes (deps : Deps) (thisRoutes : list Prefix)
  (cidrs : list string) (allowedIPs : list Prefix) : option (list Prefix) :=
  match cidrs with
  | [] => Some allowedIPs
  | cidr :: rest =>
      match ParsePrefix deps cidr with
      | None => None
      | Some prefix =>
          appendRoutes deps thisRoutes rest
            (if negb (containsPrefix allowedIPs prefix)
                && negb (containsPrefix thisRoutes prefix)
             then allowedIPs ++ [prefix] else allowedIPs)
      end
  end.

(** The result triple of [recurseEdges], with the [visited] map the
    call leaves behind (the callee fills the caller's map). *)
Definition edgesResult : Type := list Prefix * list Prefix * gset string.

Section RecurseEdges.
Variable deps : Deps.
Variable nw : Networking.
Variable graph : Graph.
Variable adjacencyMap : AdjacencyMap.
Variable thisPeer : string.
Variable thisRoutes : list Prefix.

(** The [for target := range targets] loop of [recurseEdges]; [rec] is
    the recursive call. *)
Fixpoint visitTargets (rec : MeshNode -> gset string -> outcome edgesResult)
  (targets : EdgeMap) (allowedIPs allowedRoutes : list Prefix)
  (visited : gset string) : outcome edgesResult :=
  match targets with
  | [] => Some (Ok (allowedIPs, allowedRoutes, visited))
  | (target, _) :: rest =>
      if String.eqb target thisPeer then
        visitTargets rec rest allowedIPs allowedRoutes visited
      else if hasEdge (adjacents adjacencyMap thisPeer) target then
        visitTargets rec rest allowedIPs allowedRoutes visited
      else if bool_decide (target ∈ visited) then
        visitTargets rec rest allowedIPs allowedRoutes visited
      else
        let visited := {[target]} ∪ visited in
        match Vertex graph target with
        | None => Some (Err "get vertex")
        | Some targetNode =>
            if String.eqb (PublicKey targetNode) "" then
              visitTargets rec rest allowedIPs allowedRoutes visited
            else
              let allowedIPs := appendValid allowedIPs (PrivateAddrV4 targetNode) in
              let allowedIPs := appendValid allowedIPs (PrivateAddrV6 targetNode) in
              match GetRoutesByNode nw (Id targetNode) with
              | Err _ => Some (Err "get routes by node")
              | Ok routes =>
                  match appendRoutes deps thisRoutes (destinationCidrs routes) allowedIPs with
                  | None => Some (Err "parse prefix")
                  | Some allowedIPs =>
                      match rec targetNode visited with
                      | None => None
                      | Some (Err _) => Some (Err "recurse allowed IPs")
                      | Some (Ok (ips, ipRoutes, visited)) =>
                          visitTargets rec rest (appendNew allowedIPs ips)
                            (appendNew allowedRoutes ipRoutes) visited
                      end
                  end
              end
        end
  end.

(** [recurseEdges]; [budget] bounds the depth of the recursion. *)
Fixpoint recurseEdges (budget : nat) (node : MeshNode) (visited : gset string)
  : outcome edgesResult :=
  match budget with
  | O => None
  | S budget =>
      visitTargets (recurseEdges budget) (adjacents adjacencyMap (Id node))
        [] [] ({[Id node]} ∪ visited)
  end.

(** Every id that can become a [target]. *)
Definition targetIds : list string :=
  flat_map (fun kv => kv.2.*1) adjacencyMap.

(** A depth no chain of distinct targets exceeds. *)
Definition recursionBudget : nat := S (length targetIds).

(** [recursePeers] *)
Definition recursePeers (node : MeshNode) : outcome (list Prefix * list Prefix) :=
  let allowedIPs := appendValid [] (PrivateAddrV4 node) in
  let allowedIPs := appendValid allowedIPs (PrivateAddrV6 node) in
  match GetRoutesByNode nw (Id node) with
  | Err _ => Some (Err "get routes by node")
  | Ok routes =>
      match appendRoutes deps thisRoutes (destinationCidrs routes) allowedIPs with
      | None => Some (Err "parse prefix")
      | Some allowedIPs =>
          match recurseEdges recursionBudget node ∅ with
          | None => None
          | Some (Err _) => Some (Err "recurse edge allowed IPs")
          | Some (Ok (edgeIPs, edgeRoutes, _)) =>
              Some (Ok (appendNew allowedIPs edgeIPs, appendNew [] edgeRoutes))
          end
      end
  end.

End RecurseEdges.

(** The preferred wireguard endpoint of a node. *)
Definition preferredEndpoint (node : MeshNode) : string :=
  let primaryEndpoint :=
    if negb (String.eqb (PrimaryEndpoint node) "") then
      match List.find (fun endpoint => HasPrefix endpoint (PrimaryEndpoint node))
              (WireguardEndpoints node) with
      | Some endpoint => endpoint
      | None => ""
      end
    else "" in
  if String.eqb primaryEndpoint "" then
    match WireguardEndpoints node with
    | first :: _ => first
    | [] => primaryEndpoint
    end
  else primaryEndpoint.

(** [ourRoutes]: all destination prefixes of the caller's routes. *)
Definition parsePrefixes (deps : Deps) (cidrs : list string) : option (list Prefix) :=
  mapM (ParsePrefix deps) cidrs.

(** The [for adjacent, edge := range directAdjacents] loop. *)
Fixpoint peersOfAdjacents (deps : Deps) (nw : Networking) (graph : Graph)
  (adjacencyMap : AdjacencyMap) (peerID : string) (ourRoutes : list Prefix)
  (directAdjacents : EdgeMap) (out : list WireGuardPeer)
  : outcome (list WireGuardPeer) :=
  match directAdjacents with
  | [] => Some (Ok out)
  | (adjacent, edge) :: rest =>
      match Vertex graph adjacent with
      | None => Some (Err "get vertex")
      | Some node =>
          if String.eqb (PublicKey node) "" then
            peersOfAdjacents deps nw graph adjacencyMap peerID ourRoutes rest out
          else
            match recursePeers deps nw graph adjacencyMap peerID ourRoutes node with
            | None => None
            | Some (Err _) => Some (Err "recurse allowed IPs")
            | Some (Ok (allowedIPs, allowedRoutes)) =>
                let peer := {|
                  PeerId := Id node;
                  PeerPublicKey := PublicKey node;
                  PeerHostPublicKey := HostPublicKey node;
                  PeerPrimaryEndpoint := preferredEndpoint node;
                  PeerWireguardEndpoints := WireguardEndpoints node;
                  PeerZoneAwarenessId := ZoneAwarenessId node;
                  PeerMultiaddrs := Multiaddrs node;
                  PeerPrivateIpv4 :=
                    if IsValid (PrivateAddrV4 node)
                    then PrefixString (PrivateAddrV4 node) else "";
                  PeerPrivateIpv6 :=
                    if IsValid (PrivateAddrV6 node)
                    then PrefixString (PrivateAddrV6 node) else "";
                  PeerFeatures := Features node;
                  PeerJoinedAt := JoinedAt node;
                  Proto := ProtoFromEdgeAttrs deps (EdgeAttributes edge);
                  AllowedIps := PrefixString <$> allowedIPs;
                  AllowedRoutes := PrefixString <$> allowedRoutes
                |} in
                peersOfAdjacents deps nw graph adjacencyMap peerID ourRoutes rest
                  (out ++ [peer])
            end
      end
  end.

(** [WireGuardPeersFor] *)
Definition WireGuardPeersFor (deps : Deps) (st : MeshStorage) (peerID : string)
  : outcome (list WireGuardPeer) :=
  let graph := PeersGraph st in
  let nw := NetworkingNew st in
  match FilterGraph nw graph peerID with
  | Err _ => Some (Err "filter adjacency map")
  | Ok adjacencyMap =>
      match GetRoutesByNode nw peerID with
      | Err _ => Some (Err "get routes by node")
      | Ok routes =>
          match parsePrefixes deps (destinationCidrs routes) with
          | None => Some (Err "parse prefix")
          | Some ourRoutes =>
              peersOfAdjacents deps nw graph adjacencyMap peerID ourRoutes
                (adjacents adjacencyMap peerID) []
          end
      end
  end.

End Meshutil.

(** ** The network store behind [networking.New(st)] *)

Module MeshNetworking.
Import v1 Networking Peers Meshutil.

(** The mesh state the resolver reads: stored ACLs, groups and routes. *)
Record NetworkStore := {
  StoredACLs : list NetworkACL;
  StoredGroups : Storage;
  StoredRoutes : list Route
}.

(** The action an edge is judged by. The specification writes it
    [{src=a, dst=b, src_cidr=*, dst_cidr=*, proto=*, port=0}]: only the
    two node fields are constrained. An unconstrained field of a
    [v1.NetworkAction] is its zero value, which is the value for which
    [Matches] skips the block ([TestWireGuardPeers] depends on it: its
    allow-all ACL lists no protocol). *)
Definition edgeAction (a b : string) : NetworkAction :=
  {| SrcNode := a; SrcCidr := ""; DstNode := b; DstCidr := "";
     Protocol := ""; Port := 0 |}.

(** [ListNetworkACLs]: the stored ACLs, each with its handle on the
    storage. *)
Definition ListNetworkACLs (store : NetworkStore) : ACLs :=
  (fun n => {| acl := n; storage := StoredGroups store |}) <$> StoredACLs store.

(** Modelled from the spec: [networking.FilterGraph] is not among the
    sources. Section 4.4, step 1: an edge (a,b) of G is in the filtered
    graph G' iff the ACLs, evaluated in descending priority with the
    first match winning, accept the action of the edge. Every edge is
    judged against the ACLs as stored. *)
Definition FilterGraph (rt : Runtime) (store : NetworkStore) (graph : Graph)
  (thisNodeID : string) : result AdjacencyMap :=
  let acls := Sort rt (ListNetworkACLs store) SortDescending in
  Ok ((fun kv : string * EdgeMap =>
         (kv.1, List.filter (fun e : string * Edge =>
                  (Accept rt acls (edgeAction kv.1 e.1)).1) kv.2))
        <$> edges graph).

(** Modelled from the spec: [networking.GetRoutesByNode] is not among the
    sources. Section 3: a route names its owning node; the routes of a
    node are the stored routes it owns. *)
Definition GetRoutesByNode (store : NetworkStore) (nodeID : string)
  : result (list Route) :=
  Ok (List.filter (fun r => String.eqb (RouteNode r) nodeID) (StoredRoutes store)).

(** [networking.New(st)] *)
Definition New (rt : Runtime) (store : NetworkStore) : Networking :=
  {| Meshutil.FilterGraph := FilterGraph rt store;
     Meshutil.GetRoutesByNode := GetRoutesByNode store |}.

End MeshNetworking.

(** ** [pkg/snapshots] (the snapshotter) *)

Module Snapshots.

(** The rows of the generated package [raftdb], with the columns the
    snapshotter copies. [sql.NullString] is [option string]; times are
    instants. *)
Record MeshState := { Key : string; Value : string }.

Record Node := {
  ID : string;
  PublicKey : option string;
  RaftPort : Z;
  GrpcPort : Z;
  WireguardPort : Z;
  PublicEndpoint : option string;
  NetworkIpv6 : option string;
  NodeCreatedAt : Z;
  NodeUpdatedAt : Z
}.

Record Lease := { NodeID : string; Ipv4 : string; LeaseCreatedAt : Z }.

Record RaftAcl := {
  AclName : string;
  AclNodes : string;
  AclAction : Z;
  AclCreatedAt : Z;
  AclUpdatedAt : Z
}.

Record NodeEdge := { SrcNodeID : string; DstNodeID : string; Weight : Z }.

(** The database: the default of the [weight] column and the five
    tables, each in insertion order. *)
Record DB := {
  weightDefault : Z;
  mesh_state : list MeshState;
  nodes : list Node;
  leases : list Lease;
  raft_acls : list RaftAcl;
  node_edges : list NodeEdge
}.

(** [snapshotModel] *)
Record snapshotModel := {
  State : list MeshState;
  Nodes : list Node;
  Leases : list Lease;
  RaftACLs : list RaftAcl;
  NodeEdges : list NodeEdge
}.

(** A Go [error] result: [None] is [nil]. *)
Definition error := option string.

(** [database/sql]: a transaction holds its pending state until
    [Commit]; after [Commit] or [Rollback] every operation on it fails
    with [sql.ErrTxDone]. *)
Record Tx := { pending : DB; txDone : bool }.

Definition ErrTxDone : string :=
  "sql: transaction has already been committed or rolled back".

(** [db.Begin()] *)
Definition Begin (db : DB) : Tx := {| pending := db; txDone := false |}.

(** [tx.Rollback()] *)
Definition Rollback (tx : Tx) : error * Tx :=
  if txDone tx then (Some ErrTxDone, tx)
  else (None, {| pending := pending tx; txDone := true |}).

(** [tx.Commit()]: the database afterwards. *)
Definition Commit (tx : Tx) (db : DB) : error * DB :=
  if txDone tx then (Some ErrTxDone, db) else (None, pending tx).

(** A statement executed through the transaction. *)
Definition exec (stmt : DB -> DB) (tx : Tx) : error * Tx :=
  if txDone tx then (Some ErrTxDone, tx)
  else (None, {| pending := stmt (pending tx); txDone := false |}).

Definition setMeshState (db : DB) (rows : list MeshState) : DB :=
  {| weightDefault := weightDefault db; mesh_state := rows; nodes := nodes db;
     leases := leases db; raft_acls := raft_acls db; node_edges := node_edges db |}.

Definition setNodes (db : DB) (rows : list Node) : DB :=
  {| weightDefault := weightDefault db; mesh_state := mesh_state db; nodes := rows;
     leases := leases db; raft_acls := raft_acls db; node_edges := node_edges db |}.

Definition setLeases (db : DB) (rows : list Lease) : DB :=
  {| weightDefault := weightDefault db; mesh_state := mesh_state db; nodes := nodes db;
     leases := rows; raft_acls := raft_acls db; node_edges := node_edges db |}.

Definition setRaftACLs (db : DB) (rows : list RaftAcl) : DB :=
  {| weightDefault := weightDefault db; mesh_state := mesh_state db; nodes := nodes db;
     leases := leases db; raft_acls := rows; node_edges := node_edges db |}.

Definition setNodeEdges (db : DB) (rows : list NodeEdge) : DB :=
  {| weightDefault := weightDefault db; mesh_state := mesh_state db; nodes := nodes db;
     leases := leases db; raft_acls := raft_acls db; node_edges := rows |}.

(** Modelled from the spec: the queries of package [raftdb] are not
    among the sources. Section 6, snapshot format: a table is dumped in
    insertion order, dropped as a whole, and restored row by row in the
    same order. A restore statement inserts the columns it is given; a
    column it is not given takes its default. *)
Definition DumpMeshState (db : DB) : list MeshState := mesh_state db.
Definition DumpNodes (db : DB) : list Node := nodes db.
Definition DumpLeases (db : DB) : list Lease := leases db.
Definition DumpRaftACLs (db : DB) : list RaftAcl := raft_acls db.
Definition DumpNodeEdges (db : DB) : list NodeEdge := node_edges db.

Definition DropMeshState : Tx -> error * Tx := exec (fun db => setMeshState db []).
Definition DropNodes : Tx -> error * Tx := exec (fun db => setNodes db []).
Definition DropLeases : Tx -> error * Tx := exec (fun db => setLeases db []).
Definition DropRaftACLs : Tx -> error * Tx := exec (fun db => setRaftACLs db []).
Definition DropNodeEdges : Tx -> error * Tx := exec (fun db => setNodeEdges db []).

Definition RestoreMeshState (key value : string) : Tx -> error * Tx :=
  exec (fun db => setMeshState db (mesh_state db ++ [{| Key := key; Value := value |}])).

Definition RestoreNode (row : Node) : Tx -> error * Tx :=
  exec (fun db => setNodes db (nodes db ++ [row])).

Definition RestoreLease (row : Lease) : Tx -> error * Tx :=
  exec (fun db => setLeases db (leases db ++ [row])).

Definition RestoreRaftACL (row : RaftAcl) : Tx -> error * Tx :=
  exec (fun db => setRaftACLs db (raft_acls db ++ [row])).

(** [RestoreNodeEdgeParams] has no [Weight]. *)
Definition RestoreNodeEdge (src dst : string) : Tx -> error * Tx :=
  exec (fun db => setNodeEdges db
          (node_edges db ++
             [{| SrcNodeID := src; DstNodeID := dst; Weight := weightDefault db |}])).

(** [snapshotter.Snapshot]: the model that is encoded into the snapshot.
    The gzip and JSON layers are inverse to each other and left out, as
    are the errors of the dump queries. *)
Definition Snapshot (db : DB) : snapshotModel :=
  {| State := DumpMeshState db;
     Nodes := DumpNodes db;
     Leases := DumpLeases db;
     RaftACLs := DumpRaftACLs db;
     NodeEdges := DumpNodeEdges db |}.

(** [err = q.X(ctx); if err != nil { return fmt.Errorf("msg: %w", err) }] *)
Definition step (msg : string) (q : Tx -> error * Tx) (k : Tx -> error * Tx)
  : Tx -> error * Tx :=
  fun tx =>
    match q tx with
    | (Some e, tx) => (Some (msg +:+ ": " +:+ e), tx)
    | (None, tx) => k tx
    end.

(** [for _, row := range rows { err = q.X(ctx, ...); if err != nil { return ... } }] *)
Fixpoint each {A} (msg : string) (q : A -> Tx -> error * Tx) (rows : list A)
  (k : Tx -> error * Tx) : Tx -> error * Tx :=
  match rows with
  | [] => k
  | row :: rows => step msg (q row) (each msg q rows k)
  end.

(** The statements of [Restore] between the opening of the transaction
    and its commit. *)
Definition restoreStatements (model : snapshotModel) : Tx -> error * Tx :=
  step "drop mesh state" DropMeshState
  (step "drop nodes" DropNodes
  (step "drop leases" DropLeases
  (step "drop raft acls" DropRaftACLs
  (step "drop node edges" DropNodeEdges
  (each "restore mesh state"
     (fun state => RestoreMeshState (Key state) (Value state)) (State model)
  (each "restore node"
     (fun node => RestoreNode
        {| ID := ID node; PublicKey := PublicKey node; RaftPort := RaftPort node;
           GrpcPort := GrpcPort node; WireguardPort := WireguardPort node;
           PublicEndpoint := PublicEndpoint node; NetworkIpv6 := NetworkIpv6 node;
           NodeCreatedAt := NodeCreatedAt node; NodeUpdatedAt := NodeUpdatedAt node |})
     (Nodes model)
  (each "restore lease"
     (fun lease => RestoreLease
        {| NodeID := NodeID lease; Ipv4 := Ipv4 lease;
           LeaseCreatedAt := LeaseCreatedAt lease |})
     (Leases model)
  (each "restore raft acl"
     (fun a => RestoreRaftACL
        {| AclName := AclName a; AclNodes := AclNodes a; AclAction := AclAction a;
           AclCreatedAt := AclCreatedAt a; AclUpdatedAt := AclUpdatedAt a |})
     (RaftACLs model)
  (each "restore node edge"
     (fun edge => RestoreNodeEdge (SrcNodeID edge) (DstNodeID edge))
     (NodeEdges model)
  (fun tx => (None, tx))))))))))).

(** [snapshotter.Restore]: the returned error and the database
    afterwards. The function literal that rolls the transaction back is
    called where it stands (it is not deferred), before the first
    statement. *)
Definition Restore (model : snapshotModel) (db : DB) : error * DB :=
  let tx := Begin db in
  let tx := (Rollback tx).2 in
  match restoreStatements model tx with
  | (Some e, _) => (Some e, db)
  | (None, tx) =>
      match Commit tx db with
      | (Some e, db) => (Some ("commit transaction: " +:+ e), db)
      | (None, db) => (None, db)
      end
  end.

End Snapshots.

(** ** [hashicorp/raft], as far as the store and the membership server see it *)

Module Raft.

Inductive ServerSuffrage := Voter | Nonvoter | Staging.

Record Server := {
  Suffrage : ServerSuffrage;
  ServerID : string;
  ServerAddress : string
}.

(** The data of an observation, by its dynamic type. *)
Inductive Observation :=
| RequestVoteRequest
| RaftState
| PeerObservation (Removed : bool) (Peer : Server)
| LeaderObservation (LeaderID : string)
| ResumedHeartbeatObservation (PeerID : string)
| FailedHeartbeatObservation (PeerID : string).

#[global] Instance ServerSuffrage_eq_dec : EqDecision ServerSuffrage.
Proof. solve_decision. Defined.

#[global] Instance Server_eq_dec : EqDecision Server.
Proof. solve_decision. Defined.

End Raft.

(** ** [pkg/store]: the raft observer *)

Module Store.
Import Raft.

Inductive WatchEvent :=
| WATCH_EVENT_NODE_JOIN
| WATCH_EVENT_NODE_LEAVE
| WATCH_EVENT_LEADER_CHANGE.

Inductive ClusterStatus :=
| CLUSTER_STATUS_UNKNOWN
| CLUSTER_LEADER
| CLUSTER_VOTER
| CLUSTER_NON_VOTER.

(** What the observer reads of the store: the test flag, leadership,
    the raft configuration and the ids of the node records in the peers
    store. *)
Record store := {
  testStore : bool;
  IsLeader : bool;
  Servers : list Server;
  NodeRecords : list string
}.

(** The calls by which the observer acts on its collaborators. Their
    errors are logged and do not change the course of the loop. *)
Inductive Call :=
| RefreshPeers
| Emit (type : WatchEvent) (node : string) (status : ClusterStatus)
| RemoveServer (id : string)
| PeersDelete (id : string).

#[global] Instance WatchEvent_eq_dec : EqDecision WatchEvent.
Proof. solve_decision. Defined.

#[global] Instance ClusterStatus_eq_dec : EqDecision ClusterStatus.
Proof. solve_decision. Defined.

#[global] Instance Call_eq_dec : EqDecision Call.
Proof. solve_decision. Defined.

(** [failedHeartbeats[id]]: a missing key reads as zero. *)
Definition count (failedHeartbeats : gmap string Z) (id : string) : Z :=
  default 0 (failedHeartbeats !! id).

(** [p.Get(ctx, id)] succeeds for the nodes that have a record. *)
Definition peersGet (s : store) (id : string) : bool :=
  bool_decide (id ∈ NodeRecords s).

(** The body of the [for] loop of [observe] for one event received on
    [s.observerChan]: the [failedHeartbeats] map afterwards and the
    calls made, in order. *)
Definition handle (s : store) (failedHeartbeats : gmap string Z) (ev : Observation)
  : gmap string Z * list Call :=
  match ev with
  | RequestVoteRequest => (failedHeartbeats, [])
  | RaftState => (failedHeartbeats, [])
  | PeerObservation removed peer =>
      if testStore s then (failedHeartbeats, [])
      else if peersGet s (ServerID peer) then
        (failedHeartbeats,
         [RefreshPeers;
          Emit (if removed then WATCH_EVENT_NODE_LEAVE else WATCH_EVENT_NODE_JOIN)
            (ServerID peer)
            (if removed then CLUSTER_STATUS_UNKNOWN
             else if bool_decide (Suffrage peer = Nonvoter) then CLUSTER_NON_VOTER
             else CLUSTER_VOTER)])
      else (failedHeartbeats, [RefreshPeers])
  | LeaderObservation leaderID =>
      if peersGet s leaderID
      then (failedHeartbeats, [Emit WATCH_EVENT_LEADER_CHANGE leaderID CLUSTER_LEADER])
      else (failedHeartbeats, [])
  | ResumedHeartbeatObservation _ => (failedHeartbeats, [])
  | FailedHeartbeatObservation peerID =>
      if 30 <? count failedHeartbeats peerID then
        let cfg := Servers s in
        (delete peerID failedHeartbeats,
         if IsLeader s then
           flat_map (fun srv =>
             if bool_decide (ServerID srv = peerID)
                && bool_decide (Suffrage srv = Nonvoter)
             then [RemoveServer peerID; PeersDelete peerID]
             else []) cfg
         else [])
      else if count failedHeartbeats peerID =? 0 then
        (<[peerID := 1]> failedHeartbeats, [])
      else
        (<[peerID := count failedHeartbeats peerID + 1]> failedHeartbeats, [])
  end.

(** The effect of a call that succeeds. *)
Definition perform (s : store) (c : Call) : store :=
  match c with
  | RemoveServer id =>
      {| testStore := testStore s; IsLeader := IsLeader s;
         Servers := List.filter (fun srv => negb (bool_decide (ServerID srv = id))) (Servers s);
         NodeRecords := NodeRecords s |}
  | PeersDelete id =>
      {| testStore := testStore s; IsLeader := IsLeader s; Servers := Servers s;
         NodeRecords := List.filter (fun n => negb (bool_decide (n = id))) (NodeRecords s) |}
  | _ => s
  end.

(** The observer loop over the events received, every call succeeding:
    the store and the [failedHeartbeats] map when the events are
    consumed. [failedHeartbeats] starts empty in [observe]. *)
Fixpoint observeFrom (s : store) (failedHeartbeats : gmap string Z)
  (events : list Observation) : store * gmap string Z :=
  match events with
  | [] => (s, failedHeartbeats)
  | ev :: events =>
      let r := handle s failedHeartbeats ev in
      observeFrom (fold_left perform r.2 s) r.1 events
  end.

Definition observe (s : store) (events : list Observation) : store * gmap string Z :=
  observeFrom s ∅ events.

End Store.

(** ** [pkg/services/membership/leave.go] *)

Module Membership.
Import Raft.

(** gRPC status codes returned by [Leave]. *)
Inductive Code := InvalidArgument | FailedPrecondition | PermissionDenied | Internal.

(** The server and what its collaborators answer during one call:
    leadership, the [insecure] flag, the raft configuration (or the
    error of reading it), and the errors of [RemoveServer] and of
    [peers.Delete] ([None] for [nil]). *)
Record Server := {
  insecure : bool;
  IsLeader : bool;
  Configuration : option (list Raft.Server);
  RemoveServerErr : option string;
  DeleteErr : option string
}.

(** What [Leave] reads from the request context. *)
Record Context := {
  ProxiedFor : option string;
  AuthenticatedCaller : option string
}.

(** The calls [Leave] makes on the mutex, raft and the peers store. *)
Inductive Call :=
| Lock
| Unlock
| RemoveServer (id : string)
| Barrier (seconds : Z)
| PeersDelete (id : string).

#[global] Instance Call_eq_dec : EqDecision Call.
Proof. solve_decision. Defined.

(** The check "that the node is indeed who they say they are". *)
Definition authorized (s : Server) (ctx : Context) (id : string) : bool :=
  if negb (insecure s) then
    match ProxiedFor ctx with
    | Some proxiedFor => String.eqb proxiedFor id
    | None =>
        match AuthenticatedCaller ctx with
        | Some peer => String.eqb peer id
        | None => false
        end
    end
  else true.

(** [Server.Leave]: the calls made, in order, and the status returned
    ([None] for the [LeaveResponse]). Deferred calls run when the
    function returns, last deferred first. *)
Definition Leave (s : Server) (ctx : Context) (id : string) : list Call * option Code :=
  if String.eqb id "" then ([], Some InvalidArgument)
  else if negb (IsLeader s) then ([], Some FailedPrecondition)
  else
    let calls := [Lock] in
    let deferred := [Unlock] in
    if negb (authorized s ctx id) then (calls ++ deferred, Some PermissionDenied)
    else
      match Configuration s with
      | None => (calls ++ deferred, Some Internal)
      | Some servers =>
          let raftMember := existsb (fun srv => String.eqb (ServerID srv) id) servers in
          let '(calls, deferred, err) :=
            if raftMember
            then (calls ++ [RemoveServer id], Barrier 15 :: deferred, RemoveServerErr s)
            else (calls, deferred, None) in
          match err with
          | Some _ => (calls ++ deferred, Some Internal)
          | None =>
              let calls := calls ++ [PeersDelete id] in
              match DeleteErr s with
              | Some _ => (calls ++ deferred, Some Internal)
              | None => (calls ++ deferred, None)
              end
          end
      end.

End Membership.

(** ** [pkg/net/mesh/equality.go] *)

Module Mesh.

(** [v1.FeaturePort] *)
Record FeaturePort := { Feature : Z; Port : Z }.

(** [v1.WireGuardPeer], as [equality.go] reads it. *)
Record WireGuardPeer := {
  Id : string;
  PublicKey : string;
  PrimaryEndpoint : string;
  ZoneAwarenessId : string;
  AddressIpv4 : string;
  AddressIpv6 : string;
  Proto : Z;
  Features : list (option FeaturePort);
  WireguardEndpoints : list string;
  AllowedIps : list string;
  AllowedRoutes : list string
}.

#[global] Instance FeaturePort_eq_dec : EqDecision FeaturePort.
Proof. solve_decision. Defined.

#[global] Instance WireGuardPeer_eq_dec : EqDecision WireGuardPeer.
Proof. solve_decision. Defined.

(** [GetId]: the getter of a nil message returns the zero value. *)
Definition GetId (p : option WireGuardPeer) : string :=
  match p with Some p => Id p | None => "" end.

(** [SortedWireGuardPeers.Less], on the elements. *)
Definition Less (p q : option WireGuardPeer) : bool :=
  String.ltb (GetId p) (GetId q).

(** [sort.Sort(SortedWireGuardPeers(s))]: the sort is not stable, so
    the source only fixes that the result is a permutation ordered by
    [Less]. *)
Record PeerSort := {
  sortPeers : list (option WireGuardPeer) -> list (option WireGuardPeer);
  sortPeers_perm : forall l, sortPeers l ≡ₚ l;
  sortPeers_sorted : forall l,
    StronglySorted (fun p q => Less q p = false) (sortPeers l)
}.

(** [sort.Strings]: the increasing arrangement of the strings. *)
Definition sortStrings (l : list string) : list string :=
  merge_sort String.le l.

(** [slices.Equal] on strings. *)
Definition slicesEqual (a b : list string) : bool := bool_decide (a = b).

(** [FeaturePortEqual] *)
Definition FeaturePortEqual (a b : option FeaturePort) : bool :=
  match a, b with
  | None, Some _ => false
  | Some _, None => false
  | None, None => true
  | Some a, Some b => (Feature a =? Feature b) && (Port a =? Port b)
  end.

(** The loop of [FeaturePortsEqual]; it runs after the lengths were
    found equal, so [b[i]] exists. *)
Fixpoint featurePortsLoop (a b : list (option FeaturePort)) : bool :=
  match a, b with
  | [], _ => true
  | port :: a', bi :: b' =>
      if negb (FeaturePortEqual port bi) then false else featurePortsLoop a' b'
  | _ :: _, [] => false
  end.

(** [FeaturePortsEqual] *)
Definition FeaturePortsEqual (a b : list (option FeaturePort)) : bool :=
  if negb (length a =? length b)%nat then false else featurePortsLoop a b.

(** The peer after [sort.Strings] ran on its three lists. *)
Definition sortLists (p : WireGuardPeer) : WireGuardPeer :=
  {| Id := Id p; PublicKey := PublicKey p; PrimaryEndpoint := PrimaryEndpoint p;
     ZoneAwarenessId := ZoneAwarenessId p; AddressIpv4 := AddressIpv4 p;
     AddressIpv6 := AddressIpv6 p; Proto := Proto p; Features := Features p;
     WireguardEndpoints := sortStrings (WireguardEndpoints p);
     AllowedIps := sortStrings (AllowedIps p);
     AllowedRoutes := sortStrings (AllowedRoutes p) |}.

(** [WireGuardPeerEqual]: the verdict, and the two peers as the call
    leaves them (it sorts their lists in place). *)
Definition WireGuardPeerEqual (a b : option WireGuardPeer)
  : bool * option WireGuardPeer * option WireGuardPeer :=
  match a, b with
  | None, Some _ => (false, a, b)
  | Some _, None => (false, a, b)
  | None, None => (true, a, b)
  | Some a, Some b =>
      let a := sortLists a in
      let b := sortLists b in
      (String.eqb (Id a) (Id b) &&
       String.eqb (PublicKey a) (PublicKey b) &&
       String.eqb (PrimaryEndpoint a) (PrimaryEndpoint b) &&
       String.eqb (ZoneAwarenessId a) (ZoneAwarenessId b) &&
       String.eqb (AddressIpv4 a) (AddressIpv4 b) &&
       String.eqb (AddressIpv6 a) (AddressIpv6 b) &&
       (Proto a =? Proto b) &&
       FeaturePortsEqual (Features a) (Features b) &&
       slicesEqual (WireguardEndpoints a) (WireguardEndpoints b) &&
       slicesEqual (AllowedIps a) (AllowedIps b) &&
       slicesEqual (AllowedRoutes a) (AllowedRoutes b),
       Some a, Some b)
  end.

(** The loop of [WireGuardPeersEqual] over the sorted lists: the
    verdict, and the lists with the peers that were compared left as
    [WireGuardPeerEqual] left them. The peers of the two lists are
    taken to be distinct objects. *)
Fixpoint peersLoop (a b : list (option WireGuardPeer))
  : bool * list (option WireGuardPeer) * list (option WireGuardPeer) :=
  match a, b with
  | [], _ => (true, [], b)
  | peer :: a', bi :: b' =>
      let '(eq, peer', bi') := WireGuardPeerEqual peer bi in
      if negb eq then (false, peer' :: a', bi' :: b')
      else
        let '(r, a'', b'') := peersLoop a' b' in
        (r, peer' :: a'', bi' :: b'')
  | _ :: _, [] => (false, a, b)
  end.

(** [WireGuardPeersEqual] *)
Definition WireGuardPeersEqual (srt : PeerSort) (a b : list (option WireGuardPeer))
  : bool * list (option WireGuardPeer) * list (option WireGuardPeer) :=
  if negb (length a =? length b)%nat then (false, a, b)
  else peersLoop (sortPeers srt a) (sortPeers srt b).

End Mesh.

(** ** [pkg/services/peerdiscovery/server.go] *)

Module PeerDiscovery.
Import v1 Networking Raft.

(** [v1.RaftPeer] *)
Record RaftPeer := {
  PeerId : string;
  Address : string;
  Voter : bool;
  Leader : bool
}.

(** What [ListPeers] reads during one call: the public RPC addresses
    (a map, in the order [range] visits it, every address printed), the
    leader, the raft configuration, and the stored network ACLs. [None]
    is an error. *)
Record Server := {
  ListPublicRPCAddresses : option (list (string * string));
  StoreLeader : option string;
  Configuration : list Raft.Server;
  ListNetworkACLs : option ACLs
}.

(** The status [ListPeers] returns with an error. *)
Inductive Code := Internal.

(** The function literal that fills [Voter]. *)
Definition isVoter (servers : list Raft.Server) (id : string) : bool :=
  match List.find (fun s => String.eqb (ServerID s) id) servers with
  | Some s => bool_decide (Suffrage s = Raft.Voter)
  | None => false
  end.

(** The first loop: one [RaftPeer] for every public RPC address. *)
Definition raftPeers (servers : list Raft.Server) (leader : string)
  (peers : list (string * string)) : list RaftPeer :=
  (fun kv : string * string =>
     {| PeerId := kv.1; Address := kv.2;
        Voter := isVoter servers kv.1;
        Leader := String.eqb kv.1 leader |}) <$> peers.

(** The action judged for a peer: [action := v1.NetworkAction{SrcNode:
    caller}] with [action.DstNode = peer.Id]. *)
Definition peerAction (caller : string) (peer : RaftPeer) : NetworkAction :=
  {| SrcNode := caller; SrcCidr := ""; DstNode := PeerId peer; DstCidr := "";
     Protocol := ""; Port := 0 |}.

(** The second loop. It evaluates every peer against the same list
    [nacls], which [Accept] rewrites as it goes. *)
Fixpoint allowedPeers (rt : Runtime) (nacls : ACLs) (caller : string)
  (out : list RaftPeer) : list RaftPeer :=
  match out with
  | [] => []
  | peer :: rest =>
      let r := Accept rt nacls (peerAction caller peer) in
      if negb r.1 then allowedPeers rt r.2 caller rest
      else peer :: allowedPeers rt r.2 caller rest
  end.

(** [Server.ListPeers]; [caller] is [context.AuthenticatedCallerFrom]. *)
Definition ListPeers (rt : Runtime) (s : Server) (caller : option string)
  : list RaftPeer + Code :=
  match ListPublicRPCAddresses s with
  | None => inr Internal
  | Some peers =>
      match StoreLeader s with
      | None => inr Internal
      | Some leader =>
          let out := raftPeers (Configuration s) leader peers in
          match caller with
          | Some caller =>
              match ListNetworkACLs s with
              | None => inr Internal
              | Some nacls => inl (allowedPeers rt nacls caller out)
              end
          | None => inl out
          end
      end
  end.

End PeerDiscovery.

(** ** [store.initialBootstrapLeader]: the voters group and its ACL *)

Module Bootstrap.
Import GoStrings v1 Raft.

(** The subjects of the group [rbac.VotersGroup]: the admin, every
    server of the raft configuration and, when [Bootstrap.Voters] is set,
    its comma-separated entries, all as nodes. *)
Definition votersSubjects (admin : string) (servers : list Raft.Server)
  (voters : string) : list Subject :=
  [{| SubjectName := admin; SubjectKind := SUBJECT_NODE |}]
  ++ ((fun server => {| SubjectName := ServerID server; SubjectKind := SUBJECT_NODE |})
        <$> servers)
  ++ (if negb (String.eqb voters "")
      then (fun voter => {| SubjectName := voter; SubjectKind := SUBJECT_NODE |})
             <$> Split voters ","%char
      else []).

(** The group passed to [rb.PutGroup]; [votersGroup] is the constant
    [rbac.VotersGroup]. *)
Definition votersGroupOf (votersGroup admin : string) (servers : list Raft.Server)
  (voters : string) : Group :=
  {| GroupName := votersGroup; Subjects := votersSubjects admin servers voters |}.

(** The ACL passed to [nw.PutNetworkACL] "that ensures bootstrap servers
    and admins can continue to communicate with each other"; [name] is
    the constant [networking.BootstrapNodesNetworkACLName]. *)
Definition bootstrapNodesNetworkACL (name votersGroup : string) : NetworkACL :=
  {| Name := name; Priority := 2147483647; Action := ACTION_ACCEPT;
     SourceNodes := ["group:" +:+ votersGroup];
     DestinationNodes := ["group:" +:+ votersGroup];
     SourceCidrs := []; DestinationCidrs := []; Protocols := []; Ports := [] |}.

End Bootstrap.

(** ** [pkg/net/manager.go]: [RefreshPeers] *)

Module NetManager.

(** [v1.WireGuardPeer], as [RefreshPeers] reads it. *)
Record WireGuardPeer := { Id : string; Ice : bool }.

(** A peer returned by [ListByFeature]: its public RPC address and its
    private IPv4 and IPv6 RPC addresses, printed; [None] is an invalid
    address. *)
Record IcePeer := {
  PublicRPCAddr : option string;
  PrivateRPCAddrV4 : option string;
  PrivateRPCAddrV6 : option string
}.

(** The manager and what its collaborators answer during one call:
    whether the interface exists ([m.wg != nil]), the result of
    [mesh.WireGuardPeersFor] ([None] for an error), the ids in
    [m.wg.Peers()] in the order [range] visits them, the ids with an
    entry in [m.iceConns] when the second loop reads it, the result of
    [ListByFeature], and whether [addPeer] and [DeletePeer] fail. *)
Record manager := {
  wg : bool;
  WireGuardPeersFor : option (list WireGuardPeer);
  Peers : list string;
  iceConns : list string;
  ListByFeature : option (list IcePeer);
  addPeerFails : WireGuardPeer -> list string -> bool;
  DeletePeerFails : string -> bool
}.

(** The calls [RefreshPeers] makes on the lock [wgmu], the resolver, the
    peers store and the interface; the inner lock [pcmu] is left out. *)
Inductive Call :=
| Lock
| Unlock
| CallWireGuardPeersFor
| CallListByFeature
| CallAddPeer (id : string) (iceServers : list string)
| CloseICE (id : string)
| CallDeletePeer (id : string).

#[global] Instance Call_eq_dec : EqDecision Call.
Proof. solve_decision. Defined.

(** The [switch] over an ICE peer: the address appended, if any. *)
Definition iceServerOf (icepeer : IcePeer) : list string :=
  match PublicRPCAddr icepeer with
  | Some addr => [addr]
  | None =>
      match PrivateRPCAddrV4 icepeer with
      | Some addr => [addr]
      | None =>
          match PrivateRPCAddrV6 icepeer with
          | Some addr => [addr]
          | None => []
          end
      end
  end.

(** The state of the first loop: [seenPeers], [iceServers], [errs] and
    the calls made so far. *)
Record refresh := {
  seenPeers : list string;
  iceServers : list string;
  errs : list string;
  calls : list Call
}.

(** One turn of [for _, peer := range wgpeers]. *)
Definition ensurePeer (m : manager) (st : refresh) (peer : WireGuardPeer) : refresh :=
  let seen := seenPeers st ++ [Id peer] in
  let gather := Ice peer && (length (iceServers st) =? 0)%nat in
  match (if gather then ListByFeature m else Some []) with
  | None =>
      {| seenPeers := seen; iceServers := iceServers st;
         errs := errs st ++ ["list public peers with feature"];
         calls := calls st ++ [CallListByFeature] |}
  | Some icepeers =>
      let servers := iceServers st ++ flat_map iceServerOf icepeers in
      {| seenPeers := seen; iceServers := servers;
         errs := errs st ++ (if addPeerFails m peer servers then ["add peer"] else []);
         calls := calls st ++ (if gather then [CallListByFeature] else [])
                           ++ [CallAddPeer (Id peer) servers] |}
  end.

(** One turn of [for peer := range currentPeers]. *)
Definition removeStale (m : manager) (st : refresh) (peer : string) : refresh :=
  if negb (bool_decide (peer ∈ seenPeers st)) then
    {| seenPeers := seenPeers st; iceServers := iceServers st;
       errs := errs st ++ (if DeletePeerFails m peer then ["delete peer"] else []);
       calls := calls st ++ (if bool_decide (peer ∈ iceConns m) then [CloseICE peer] else [])
                         ++ [CallDeletePeer peer] |}
  else st.

(** [manager.RefreshPeers]: the calls made, in order, and the errors
    joined into the returned error ([[]] for [nil]). *)
Definition RefreshPeers (m : manager) : list Call * list string :=
  if negb (wg m) then ([Lock; Unlock], [])
  else
    match WireGuardPeersFor m with
    | None => ([Lock; CallWireGuardPeersFor; Unlock], ["wireguard peers for"])
    | Some wgpeers =>
        let st := {| seenPeers := []; iceServers := []; errs := [];
                     calls := [Lock; CallWireGuardPeersFor] |} in
        let st := fold_left (ensurePeer m) wgpeers st in
        let st := fold_left (removeStale m) (Peers m) st in
        (calls st ++ [Unlock], errs st)
    end.

End NetManager.

(** ** The peers store: list columns *)

Module PeersStore.
Import GoStrings.

(** [strings.Join] *)
Fixpoint Join (elems : list string) (sep : string) : string :=
  match elems with
  | [] => ""
  | [x] => x
  | x :: rest => x +:+ sep +:+ Join rest sep
  end.

(** How [Create] and [Update] fill the columns [allowed_ips] and
    [available_zones]: [if len(l) > 0 { sql.NullString{String:
    strings.Join(l, ","), Valid: true} }]; [None] is the zero
    [sql.NullString], which is not valid. *)
Definition encodeList (l : list string) : option string :=
  if (0 <? length l)%nat then Some (Join l ",") else None.

(** How [Get], [List], [ListPeers] and [nodeModelToNode] read them:
    [if !col.Valid { return nil }; return strings.Split(col.String, ",")]. *)
Definition decodeList (col : option string) : list string :=
  match col with
  | None => []
  | Some s => Split s ","%char
  end.

End PeersStore.

(* ================================================================== *)
(** * Part II: properties                                              *)
(* ================================================================== *)

(** ** ACL evaluation *)

Section ACLFacts.
Import GoStrings v1 Networking.

(** The order [sort.Sort] establishes for [less]. *)
Definition notAfter (less : ACL -> ACL -> bool) (a b : ACL) : Prop :=
  less b a = false.

#[local] Instance notAfter_dec less a b : Decision (notAfter less a b).
Proof. unfold notAfter. apply _. Defined.

(** The fields of an ACL that no block assigns. *)
Definition sameRules (a a' : ACL) : Prop :=
  storage a' = storage a /\
  Name (acl a') = Name (acl a) /\
  Priority (acl a') = Priority (acl a) /\
  Action (acl a') = Action (acl a) /\
  SourceCidrs (acl a') = SourceCidrs (acl a) /\
  DestinationCidrs (acl a') = DestinationCidrs (acl a) /\
  Protocols (acl a') = Protocols (acl a) /\
  Ports (acl a') = Ports (acl a).

(** The ACL as the two node blocks leave it. *)
Definition afterNodes (rt : Runtime) (action : NetworkAction) (a : ACL) : ACL :=
  (checkDstNode rt action (checkSrcNode rt action a).2).2.


Lemma merge_sort_notAfter (less : ACL -> ACL -> bool) :
  (forall a b, less a b = true -> less b a = false) ->
  (forall a b c, less b a = false -> less c b = false -> less c a = false) ->
  forall l, StronglySorted (notAfter less) (merge_sort (notAfter less) l).
Proof.
  intros Hasym Htrans l.
  assert (Transitive (notAfter less)) by (intros a b c; apply Htrans).
  assert (Total (notAfter less)).
  { intros a b. unfold notAfter.
    destruct (less b a) eqn:E; [right; by apply Hasym | by left]. }
  by apply StronglySorted_merge_sort.
Qed.

(** A runtime that ranges over [groups] in insertion order and sorts by
    a stable merge sort. *)
Definition insertionOrderRuntime : Runtime :=
  {| rangeGroups := fun m => m;
     rangeGroups_perm := fun m => reflexivity m;
     sortSort := fun less l => merge_sort (notAfter less) l;
     sortSort_perm := fun less l => merge_sort_Permutation (notAfter less) l;
     sortSort_sorted := merge_sort_notAfter |}.

Lemma Less_asym a b : Less a b = true -> Less b a = false.
Proof. unfold Less. lia. Qed.

Lemma Less_negtrans a b c : Less b a = false -> Less c b = false -> Less c a = false.
Proof. unfold Less. lia. Qed.

Lemma StronglySorted_weaken {A} (R R' : relation A) (l : list A) :
  (forall a b, R a b -> R' a b) -> StronglySorted R l -> StronglySorted R' l.
Proof.
  intros HR. induction 1 as [|x l Hl IH Hx]; constructor; [done|].
  eapply Forall_impl; [exact Hx | auto].
Qed.

(** [Sort(SortDescending)] leaves the priorities non-increasing. *)
Lemma Sort_descending rt (l : ACLs) :
  StronglySorted (fun a b => Priority (acl b) <= Priority (acl a))
    (Sort rt l SortDescending).
Proof.
  unfold Sort.
  eapply StronglySorted_weaken; last first.
  - apply (sortSort_sorted rt ReverseLess).
    + intros a b. unfold ReverseLess. apply Less_asym.
    + intros a b c. unfold ReverseLess. intros; by eapply Less_negtrans.
  - intros a b. unfold ReverseLess, Less. simpl. lia.
Qed.

Lemma Sort_perm rt (l : ACLs) d : Sort rt l d ≡ₚ l.
Proof. destruct d; apply sortSort_perm. Qed.

Lemma andThen_fst (c1 c2 : Check) a :
  (andThen c1 c2 a).1 = (c1 a).1 && (c2 (c1 a).2).1.
Proof. unfold andThen. by destruct (c1 a) as [[] ?]. Qed.

Lemma andThen_snd (c1 c2 : Check) a :
  (andThen c1 c2 a).2 = if (c1 a).1 then (c2 (c1 a).2).2 else (c1 a).2.
Proof. unfold andThen. by destruct (c1 a) as [[] ?]. Qed.

Lemma lenGeZero_true {A} (l : list A) : lenGeZero l = true.
Proof. unfold lenGeZero. apply Z.leb_le. lia. Qed.

Lemma expandGroups_nil rt st : expandGroups rt st [] = Some [].
Proof.
  unfold expandGroups. simpl.
  pose proof (rangeGroups_perm rt []) as Hp.
  apply Permutation_nil_r in Hp. by rewrite Hp.
Qed.

Lemma sameRules_refl a : sameRules a a.
Proof. by repeat split. Qed.

Lemma sameRules_trans a b c : sameRules a b -> sameRules b c -> sameRules a c.
Proof. unfold sameRules. intros; destruct_and!; repeat split; congruence. Qed.

Lemma checkSrcNode_frame rt action a :
  sameRules a (checkSrcNode rt action a).2 /\
  DestinationNodes (acl (checkSrcNode rt action a).2) = DestinationNodes (acl a).
Proof.
  unfold checkSrcNode.
  repeat case_match; simpl; split; try apply sameRules_refl; try done;
    by repeat split.
Qed.

Lemma checkDstNode_frame rt action a :
  sameRules a (checkDstNode rt action a).2 /\
  SourceNodes (acl (checkDstNode rt action a).2) = SourceNodes (acl a).
Proof.
  unfold checkDstNode.
  repeat case_match; simpl; split; try apply sameRules_refl; try done;
    by repeat split.
Qed.

Lemma checkList_snd field value a : (checkList field value a).2 = a.
Proof. unfold checkList. by repeat case_match. Qed.

Lemma checkPort_snd action a : (checkPort action a).2 = a.
Proof. unfold checkPort. by repeat case_match. Qed.

Lemma Matches_fst rt a action :
  (Matches rt a action).1 =
    (checkSrcNode rt action a).1 &&
    ((checkDstNode rt action (checkSrcNode rt action a).2).1 &&
     ((checkList SourceCidrs (SrcCidr action) (afterNodes rt action a)).1 &&
      ((checkList DestinationCidrs (DstCidr action) (afterNodes rt action a)).1 &&
       ((checkList Protocols (Protocol action) (afterNodes rt action a)).1 &&
        (checkPort action (afterNodes rt action a)).1)))).
Proof.
  unfold Matches, afterNodes.
  rewrite !andThen_fst, !checkList_snd. done.
Qed.

Lemma Matches_snd rt a action :
  (Matches rt a action).2 =
    if (checkSrcNode rt action a).1 then afterNodes rt action a
    else (checkSrcNode rt action a).2.
Proof.
  unfold Matches, afterNodes.
  rewrite !andThen_snd, !checkList_snd, !checkPort_snd.
  by repeat case_match.
Qed.

Lemma afterNodes_frame rt action a : sameRules a (afterNodes rt action a).
Proof.
  unfold afterNodes. eapply sameRules_trans.
  - apply checkSrcNode_frame.
  - apply checkDstNode_frame.
Qed.

Lemma Matches_frame rt a action : sameRules a (Matches rt a action).2.
Proof.
  rewrite Matches_snd. case_match.
  - apply afterNodes_frame.
  - apply checkSrcNode_frame.
Qed.

End ACLFacts.

Section ACLClaims.
Import GoStrings v1 Networking.

(** The [default-accept] ACL that [bootstrap] stores. *)
Definition defaultAccept (st : Storage) : ACL :=
  {| acl := {| Name := "default-accept"; Priority := -2147483648;
               Action := ACTION_ACCEPT;
               SourceNodes := ["*"]; DestinationNodes := ["*"];
               SourceCidrs := ["*"]; DestinationCidrs := ["*"];
               Protocols := []; Ports := [] |};
     storage := st |}.


Lemma checkSrcNode_empty rt action a :
  SourceNodes (acl a) = [] -> SrcNode action <> "" ->
  (checkSrcNode rt action a).1 = false.
Proof.
  intros Hnil Hne. unfold checkSrcNode.
  apply String.eqb_neq in Hne. rewrite Hne. simpl. by rewrite lenGeZero_true, Hnil, expandGroups_nil.
Qed.

Lemma checkDstNode_empty rt action a :
  DestinationNodes (acl a) = [] -> DstNode action <> "" ->
  (checkDstNode rt action a).1 = false.
Proof.
  intros Hnil Hne. unfold checkDstNode.
  apply String.eqb_neq in Hne. rewrite Hne. simpl. by rewrite lenGeZero_true, Hnil, expandGroups_nil.
Qed.

Lemma checkList_empty field value a :
  field (acl a) = [] -> value <> "" -> (checkList field value a).1 = false.
Proof.
  intros Hnil Hne. unfold checkList.
  apply String.eqb_neq in Hne. by rewrite Hne, lenGeZero_true, Hnil.
Qed.

Lemma checkPort_empty action a :
  Ports (acl a) = [] -> Port action <> 0 -> (checkPort action a).1 = false.
Proof.
  intros Hnil Hne. unfold checkPort.
  apply Z.eqb_neq in Hne. by rewrite Hne, lenGeZero_true, Hnil.
Qed.

(** C7. An ACL with an empty source-nodes (destination-nodes,
    source-cidrs, destination-cidrs, protocols, ports) list does not match
    an action whose corresponding field is set: the guard
    [len(list) >= 0] always holds, so the membership test runs against
    the empty list and fails. *)
Theorem Matches_empty_list_fails_closed rt a action :
  (SourceNodes (acl a) = [] /\ SrcNode action <> "") \/
  (DestinationNodes (acl a) = [] /\ DstNode action <> "") \/
  (SourceCidrs (acl a) = [] /\ SrcCidr action <> "") \/
  (DestinationCidrs (acl a) = [] /\ DstCidr action <> "") \/
  (Protocols (acl a) = [] /\ Protocol action <> "") \/
  (Ports (acl a) = [] /\ Port action <> 0) ->
  (Matches rt a action).1 = false.
Proof.
  intros H. rewrite Matches_fst.
  pose proof (afterNodes_frame rt action a) as (_ & _ & _ & _ & Hsc & Hdc & Hpr & Hpo).
  destruct H as [[Hl Hv]|[[Hl Hv]|[[Hl Hv]|[[Hl Hv]|[[Hl Hv]|[Hl Hv]]]]]].
  - by rewrite checkSrcNode_empty.
  - rewrite (checkDstNode_empty rt action (checkSrcNode rt action a).2);
      [by rewrite andb_false_r | | done].
    destruct (checkSrcNode_frame rt action a) as [_ ->]. done.
  - rewrite (checkList_empty SourceCidrs); [by rewrite !andb_false_r | congruence | done].
  - rewrite (checkList_empty DestinationCidrs); [by rewrite ?andb_false_r | congruence | done].
  - rewrite (checkList_empty Protocols); [by rewrite ?andb_false_r | congruence | done].
  - rewrite checkPort_empty; [by rewrite ?andb_false_r | congruence | done].
Qed.

Lemma Matches_empty_list_fails_closed_witness :
  (Matches insertionOrderRuntime (defaultAccept (fun _ => ErrGroupNotFound))
     {| SrcNode := "a"; SrcCidr := ""; DstNode := "b"; DstCidr := "";
        Protocol := "tcp"; Port := 0 |}).1 = false.
Proof.
  apply Matches_empty_list_fails_closed.
  right; right; right; right; left. split; [reflexivity | discriminate].
Defined.
End ACLClaims.

Section GroupExpansion.
Import GoStrings v1 Networking.

(** A subject that [Matches] collects as a member. *)
Definition nodeSubject (s : Subject) : bool :=
  bool_decide (SubjectKind s = SUBJECT_ALL) || bool_decide (SubjectKind s = SUBJECT_NODE).

(** An entry that [Matches] expands: a reference [group:X] to a stored
    group with at least one node or all subject. *)
Definition expandable (st : Storage) (node : string) : bool :=
  HasPrefix node "group:" &&
  match st (TrimPrefix node "group:") with
  | GroupFound g => existsb nodeSubject (Subjects g)
  | _ => false
  end.

(** The bootstrap ACL of [store.bootstrap], over a storage whose
    voters group holds the node [node-a]. *)
Definition votersStorage : Storage :=
  fun name =>
    if String.eqb name "voters"
    then GroupFound {| GroupName := "voters";
                       Subjects := [{| SubjectName := "node-a"; SubjectKind := SUBJECT_NODE |}] |}
    else ErrGroupNotFound.

Definition bootstrapNodesACL : ACL :=
  {| acl := {| Name := "bootstrap-nodes"; Priority := 2147483647;
               Action := ACTION_ACCEPT;
               SourceNodes := ["group:voters"];
               DestinationNodes := ["group:voters"];
               SourceCidrs := []; DestinationCidrs := [];
               Protocols := []; Ports := [] |};
     storage := votersStorage |}.

Lemma collect_no_member (subjects : list Subject) name (groups : GroupMap) :
  existsb nodeSubject subjects = false ->
  fold_left (fun gs subject =>
     if bool_decide (SubjectKind subject = SUBJECT_ALL)
        || bool_decide (SubjectKind subject = SUBJECT_NODE)
     then groupsAppend gs name (SubjectName subject) else gs) subjects groups = groups.
Proof.
  induction subjects as [|s subjects IH]; simpl; [done|].
  intros [Hs Hrest]%orb_false_elim. unfold nodeSubject in Hs. rewrite Hs. auto.
Qed.

Lemma collectGroups_unexpandable st nodes groups :
  Forall (fun n => expandable st n = false) nodes ->
  collectGroups st nodes groups = None \/ collectGroups st nodes groups = Some groups.
Proof.
  induction 1 as [|node nodes Hnode _ IH]; simpl; [by right|].
  unfold expandable in Hnode.
  destruct (HasPrefix node "group:"); [|done].
  destruct (groupsHas groups node); [done|].
  simpl in Hnode.
  destruct (st (TrimPrefix node "group:")) as [g| |]; [|done|by left].
  by rewrite collect_no_member.
Qed.

Lemma expandGroups_unexpandable rt st nodes :
  Forall (fun n => expandable st n = false) nodes ->
  expandGroups rt st nodes = None \/ expandGroups rt st nodes = Some nodes.
Proof.
  intros H. unfold expandGroups.
  destruct (collectGroups_unexpandable st nodes [] H) as [-> | ->]; [by left|].
  right. pose proof (rangeGroups_perm rt []) as Hp.
  apply Permutation_nil_r in Hp. by rewrite Hp.
Qed.

Lemma checkSrcNode_unchanged rt action a :
  SrcNode action = "" \/
  Forall (fun n => expandable (storage a) n = false) (SourceNodes (acl a)) ->
  SourceNodes (acl (checkSrcNode rt action a).2) = SourceNodes (acl a).
Proof.
  intros H. unfold checkSrcNode.
  destruct (negb (String.eqb (SrcNode action) "")) eqn:E; [|done].
  destruct H as [H|H]; [by rewrite H in E|].
  rewrite lenGeZero_true.
  by destruct (expandGroups_unexpandable rt _ _ H) as [-> | ->].
Qed.

Lemma checkDstNode_unchanged rt action a :
  DstNode action = "" \/
  Forall (fun n => expandable (storage a) n = false) (DestinationNodes (acl a)) ->
  DestinationNodes (acl (checkDstNode rt action a).2) = DestinationNodes (acl a).
Proof.
  intros H. unfold checkDstNode.
  destruct (negb (String.eqb (DstNode action) "")) eqn:E; [|done].
  destruct H as [H|H]; [by rewrite H in E|].
  rewrite lenGeZero_true.
  by destruct (expandGroups_unexpandable rt _ _ H) as [-> | ->].
Qed.

(** C8, as the code has it. [Matches] assigns the expanded lists to the
    receiver. It never touches another field, and it leaves a node list
    as it was when the action does not name a node on that side or when
    no entry of the list refers to a stored group with a node or all
    subject. *)
Theorem Matches_rewrites_only_resolved_groups rt a action :
  sameRules a (Matches rt a action).2 /\
  (SrcNode action = "" \/
   Forall (fun n => expandable (storage a) n = false) (SourceNodes (acl a)) ->
   SourceNodes (acl (Matches rt a action).2) = SourceNodes (acl a)) /\
  (DstNode action = "" \/
   Forall (fun n => expandable (storage a) n = false) (DestinationNodes (acl a)) ->
   DestinationNodes (acl (Matches rt a action).2) = DestinationNodes (acl a)).
Proof.
  split; [apply Matches_frame|].
  rewrite Matches_snd. unfold afterNodes.
  destruct (checkSrcNode_frame rt action a) as [(Hst & _) Hdst].
  split; intros H.
  - destruct (checkSrcNode rt action a).1.
    + destruct (checkDstNode_frame rt action (checkSrcNode rt action a).2) as [_ ->].
      by apply checkSrcNode_unchanged.
    + by apply checkSrcNode_unchanged.
  - destruct (checkSrcNode rt action a).1; [|done].
    rewrite checkDstNode_unchanged; [done|].
    rewrite Hdst, Hst. done.
Qed.

(** C8, as stated, fails: evaluating the bootstrap ACL against an action
    from [node-a] overwrites its source nodes with the members of the
    voters group. *)
Lemma Matches_mutates_stored_acl :
  SourceNodes (acl (Matches insertionOrderRuntime bootstrapNodesACL
                      {| SrcNode := "node-a"; SrcCidr := ""; DstNode := "node-b";
                         DstCidr := ""; Protocol := ""; Port := 0 |}).2)
    = ["node-a"] /\
  SourceNodes (acl bootstrapNodesACL) = ["group:voters"] /\
  SourceNodes (acl (Matches insertionOrderRuntime bootstrapNodesACL
                      {| SrcNode := "node-a"; SrcCidr := ""; DstNode := "node-b";
                         DstCidr := ""; Protocol := ""; Port := 0 |}).2)
    <> SourceNodes (acl bootstrapNodesACL).
Proof. vm_compute. repeat split; discriminate. Qed.

End GroupExpansion.

Section EdgeFiltering.
Import GoStrings v1 Networking Peers Meshutil MeshNetworking.

(** The first ACL of the list that matches the action accepts it. *)
Definition firstMatchAccepts (rt : Runtime) (acls : ACLs) (action : NetworkAction) : Prop :=
  exists pre a post,
    acls = pre ++ a :: post /\
    Forall (fun x => (Matches rt x action).1 = false) pre /\
    (Matches rt a action).1 = true /\
    Action (acl a) = ACTION_ACCEPT.

Lemma Accept_first_match rt acls action :
  (Accept rt acls action).1 = true <-> firstMatchAccepts rt acls action.
Proof.
  induction acls as [|x l IH]; simpl.
  - split; [done|]. intros (pre & a & post & H & _). by destruct pre.
  - destruct (Matches_frame rt x action) as (_ & _ & _ & Hact & _).
    destruct (Matches rt x action).1 eqn:Hx; simpl.
    + rewrite Hact, bool_decide_eq_true. split.
      * intros Ha. exists [], x, l. by rewrite Hx.
      * intros (pre & a & post & Heq & Hpre & Ha & Hacc).
        destruct pre as [|y pre]; simplify_eq/=; [done|].
        apply Forall_cons in Hpre as [Hy _]. congruence.
    + rewrite IH. split.
      * intros (pre & a & post & -> & Hpre & Ha & Hacc).
        exists (x :: pre), a, post. split_and!; try done. by constructor.
      * intros (pre & a & post & Heq & Hpre & Ha & Hacc).
        destruct pre as [|y pre]; simplify_eq/=; [congruence|].
        apply Forall_cons in Hpre as [_ Hpre]. by exists pre, a, post.
Qed.

Lemma Accept_no_match rt acls action :
  Forall (fun x => (Matches rt x action).1 = false) acls ->
  (Accept rt acls action).1 = false.
Proof.
  induction 1 as [|x l Hx _ IH]; simpl; [done|]. by rewrite Hx.
Qed.

Lemma adjacents_fmap (f : string -> EdgeMap -> EdgeMap) (m : AdjacencyMap) a :
  f a [] = [] ->
  adjacents ((fun kv : string * EdgeMap => (kv.1, f kv.1 kv.2)) <$> m) a
    = f a (adjacents m a).
Proof.
  intros Hnil. unfold adjacents.
  induction m as [|[k es] m IH]; simpl; [done|].
  destruct (String.eqb k a) eqn:E; [|done].
  apply String.eqb_eq in E. by subst.
Qed.

(** C2. The filtered graph keeps an edge (a,b) iff, with the stored
    ACLs in descending order of priority, the first ACL that matches the
    action of the edge accepts; when no ACL matches (the empty list
    included) the edge is dropped. The verdict of [Accept] is that of
    the first match for every action, however its CIDR, protocol and
    port fields are filled. *)
Theorem FilterGraph_first_match_wins rt store graph thisNodeID a b e :
  let acls := Sort rt (ListNetworkACLs store) SortDescending in
  acls ≡ₚ ListNetworkACLs store /\
  StronglySorted (fun x y => Priority (acl y) <= Priority (acl x)) acls /\
  (forall action, (Accept rt acls action).1 = true <-> firstMatchAccepts rt acls action) /\
  exists filtered,
    FilterGraph rt store graph thisNodeID = Ok filtered /\
    ((b, e) ∈ adjacents filtered a <->
       (b, e) ∈ adjacents (edges graph) a /\
       firstMatchAccepts rt acls (edgeAction a b)) /\
    (Forall (fun x => (Matches rt x (edgeAction a b)).1 = false) acls ->
     (b, e) ∉ adjacents filtered a).
Proof.
  intros acls. split; [apply Sort_perm|]. split; [apply Sort_descending|].
  split; [intros action; apply Accept_first_match|].
  eexists. split; [reflexivity|].
  rewrite (adjacents_fmap
    (fun k es => List.filter (fun e0 : string * Edge =>
       (Accept rt acls (edgeAction k e0.1)).1) es)) by done.
  rewrite !list_elem_of_In, filter_In. simpl.
  rewrite <- Accept_first_match. split; [done|].
  intros Hno [_ Hacc]. by rewrite Accept_no_match in Hacc.
Qed.

End EdgeFiltering.

(** ** The star scenario *)

Section StarScenario.
Import GoStrings v1 Networking Netip Peers Meshutil MeshNetworking.

(** A node that has joined: it has a public key and both addresses. *)
Definition joinedNode (id v4 v6 : string) : MeshNode :=
  {| Id := id; PublicKey := "key-" +:+ id; HostPublicKey := "";
     PrimaryEndpoint := ""; WireguardEndpoints := []; ZoneAwarenessId := "";
     Multiaddrs := []; PrivateAddrV4 := MkPrefix v4; PrivateAddrV6 := MkPrefix v6;
     Features := []; JoinedAt := 0 |}.

Definition edgeTo (from to : string) : string * Edge :=
  (to, {| EdgeSource := from; EdgeTarget := to; EdgeWeight := 1; EdgeAttributes := [] |}).

(** The star: the router [R] and [P1] .. [P5] with the addresses
    [172.16.0.i/32] and [2001:db8::i/128] ([R] takes [i = 6]), and the
    edges [{R, Pi}], present in the adjacency map in both directions. *)
Definition starGraph : Graph :=
  {| vertices :=
       [joinedNode "R" "172.16.0.6/32" "2001:db8::6/128";
        joinedNode "P1" "172.16.0.1/32" "2001:db8::1/128";
        joinedNode "P2" "172.16.0.2/32" "2001:db8::2/128";
        joinedNode "P3" "172.16.0.3/32" "2001:db8::3/128";
        joinedNode "P4" "172.16.0.4/32" "2001:db8::4/128";
        joinedNode "P5" "172.16.0.5/32" "2001:db8::5/128"];
     edges :=
       [("R", [edgeTo "R" "P1"; edgeTo "R" "P2"; edgeTo "R" "P3";
               edgeTo "R" "P4"; edgeTo "R" "P5"]);
        ("P1", [edgeTo "P1" "R"]);
        ("P2", [edgeTo "P2" "R"]);
        ("P3", [edgeTo "P3" "R"]);
        ("P4", [edgeTo "P4" "R"]);
        ("P5", [edgeTo "P5" "R"])] |}.

(** The allow-all policy of [TestWireGuardPeers]. *)
Definition allowAll : NetworkACL :=
  {| Name := "allow-all"; Priority := 0; Action := ACTION_ACCEPT;
     SourceNodes := ["*"]; DestinationNodes := ["*"];
     SourceCidrs := ["*"]; DestinationCidrs := ["*"];
     Protocols := []; Ports := [] |}.

Definition allowAllStore : NetworkStore :=
  {| StoredACLs := [allowAll];
     StoredGroups := fun _ => ErrGroupNotFound;
     StoredRoutes := [] |}.

Definition starStorage (rt : Runtime) : MeshStorage :=
  {| PeersGraph := starGraph; NetworkingNew := New rt allowAllStore |}.

(** Collaborators for closed examples: every CIDR parses to itself. *)
Definition plainDeps : Deps :=
  {| ParsePrefix := fun cidr => Some (MkPrefix cidr);
     ProtoFromEdgeAttrs := fun _ => CONNECT_NATIVE |}.

(** The id and the allowed IPs of each descriptor. *)
Definition summary (peers : list WireGuardPeer) : list (string * list string) :=
  (fun p => (PeerId p, AllowedIps p)) <$> peers.

Lemma Sort_singleton rt (x : ACL) d : Sort rt [x] d = [x].
Proof. apply Permutation_singleton_r, Sort_perm. Qed.

Lemma allowAll_accepts rt st a b :
  (Accept rt [{| acl := allowAll; storage := st |}] (edgeAction a b)).1 = true.
Proof.
  simpl. rewrite Matches_fst. unfold afterNodes, checkSrcNode, checkDstNode.
  pose proof (rangeGroups_perm rt []) as Hp. apply Permutation_nil_r in Hp.
  unfold expandGroups. simpl. rewrite !Hp. simpl.
  destruct (String.eqb a ""), (String.eqb b ""); simpl; rewrite ?Hp; simpl;
    by rewrite Matches_snd; unfold afterNodes, checkSrcNode, checkDstNode, expandGroups;
    simpl; rewrite ?Hp; simpl; repeat case_match.
Qed.

Lemma filter_all {A} (f : A -> bool) (l : list A) :
  (forall x, f x = true) -> List.filter f l = l.
Proof. intros Hf. induction l as [|x l IH]; simpl; [done|]. by rewrite Hf, IH. Qed.

Lemma FilterGraph_accept_all rt store graph thisNodeID :
  (forall a b, (Accept rt (Sort rt (ListNetworkACLs store) SortDescending)
                  (edgeAction a b)).1 = true) ->
  MeshNetworking.FilterGraph rt store graph thisNodeID = Ok (edges graph).
Proof.
  intros Hacc. unfold MeshNetworking.FilterGraph. f_equal.
  induction (edges graph) as [|[k es] m IH]; [done|].
  rewrite fmap_cons, IH. cbn [fst snd].
  rewrite filter_all; [done|]. intros x. apply Hacc.
Qed.

Lemma star_FilterGraph rt thisNodeID :
  MeshNetworking.FilterGraph rt allowAllStore starGraph thisNodeID = Ok (edges starGraph).
Proof.
  apply FilterGraph_accept_all. intros a b.
  change (ListNetworkACLs allowAllStore)
    with [{| acl := allowAll; storage := StoredGroups allowAllStore |}].
  rewrite Sort_singleton. apply allowAll_accepts.
Qed.

(** C1, with the count the code gives. For the star, under the
    allow-all policy, the router gets five descriptors, one per [Pi]
    with exactly the two addresses of that [Pi]; [P1] gets one
    descriptor, for the router, whose allowed IPs are the addresses of
    [R], [P2], [P3], [P4] and [P5]: ten prefixes. *)
Theorem star_topology rt deps :
  (exists peers,
     WireGuardPeersFor deps (starStorage rt) "R" = Some (Ok peers) /\
     summary peers =
       [("P1", ["172.16.0.1/32"; "2001:db8::1/128"]);
        ("P2", ["172.16.0.2/32"; "2001:db8::2/128"]);
        ("P3", ["172.16.0.3/32"; "2001:db8::3/128"]);
        ("P4", ["172.16.0.4/32"; "2001:db8::4/128"]);
        ("P5", ["172.16.0.5/32"; "2001:db8::5/128"])]) /\
  (exists r,
     WireGuardPeersFor deps (starStorage rt) "P1" = Some (Ok [r]) /\
     PeerId r = "R" /\
     AllowedIps r =
       ["172.16.0.6/32"; "2001:db8::6/128";
        "172.16.0.2/32"; "2001:db8::2/128";
        "172.16.0.3/32"; "2001:db8::3/128";
        "172.16.0.4/32"; "2001:db8::4/128";
        "172.16.0.5/32"; "2001:db8::5/128"] /\
     length (AllowedIps r) = 10%nat).
Proof.
  split; eexists; unfold WireGuardPeersFor, starStorage, New;
    cbn [PeersGraph NetworkingNew Meshutil.FilterGraph];
    rewrite star_FilterGraph; vm_compute; repeat split; reflexivity.
Qed.

(** C1, as stated, fails on the count: the descriptor [P1] gets for the
    router has ten allowed IPs, not eleven. *)
Lemma star_P1_has_ten_prefixes :
  exists r,
    WireGuardPeersFor plainDeps (starStorage insertionOrderRuntime) "P1" = Some (Ok [r]) /\
    PeerId r = "R" /\
    length (AllowedIps r) = 10%nat /\
    length (AllowedIps r) <> 11%nat.
Proof. eexists. vm_compute. repeat split. discriminate. Qed.

End StarScenario.

(** ** Topology resolution *)

Section Traversal.
Import GoStrings v1 Netip Peers Meshutil.

Variable deps : Deps.
Variable nw : Networking.
Variable graph : Graph.
Variable adjacencyMap : AdjacencyMap.
Variable thisPeer : string.
Variable thisRoutes : list Prefix.

(** The ids that can be visited. *)
Definition universe : gset string := list_to_set (targetIds adjacencyMap).

(** A recursive call that returns whenever fewer than [n] ids are
    still unvisited, and only adds to [visited]. *)
Definition returnsBelow (rec : MeshNode -> gset string -> outcome edgesResult)
  (n : nat) : Prop :=
  forall node v, (size (universe ∖ v) < n)%nat ->
    exists r, rec node v = Some r /\
      forall ips rts v', r = Ok (ips, rts, v') -> v ⊆ v'.


Lemma size_list_to_set_le (l : list string) :
  (size (list_to_set l : gset string) <= length l)%nat.
Proof.
  induction l as [|x l IH].
  - rewrite list_to_set_nil, size_empty. simpl. lia.
  - rewrite list_to_set_cons, size_union_alt, size_singleton. simpl.
    assert (size (list_to_set l ∖ {[x]} : gset string)
            <= size (list_to_set l : gset string))%nat
      by (apply subseteq_size; set_solver).
    lia.
Qed.

Lemma adjacents_elem (m : AdjacencyMap) id e :
  e ∈ adjacents m id -> exists kv, kv ∈ m /\ e ∈ kv.2.
Proof.
  unfold adjacents. destruct (List.find _ m) as [kv|] eqn:E.
  - apply find_some in E as [Hin _]. exists kv. split; [|done].
    by apply list_elem_of_In.
  - by intros ?%elem_of_nil.
Qed.

Lemma target_in_universe id t e :
  (t, e) ∈ adjacents adjacencyMap id -> t ∈ universe.
Proof.
  intros (kv & Hkv & He)%adjacents_elem.
  unfold universe, targetIds. apply elem_of_list_to_set, list_elem_of_In, in_flat_map.
  exists kv. split; [by apply list_elem_of_In|].
  apply list_elem_of_In, list_elem_of_fmap. by exists (t, e).
Qed.

Lemma visitTargets_returns rec n :
  returnsBelow rec n ->
  forall targets ips rts visited,
    (forall t e, (t, e) ∈ targets -> t ∈ universe) ->
    (size (universe ∖ visited) <= n)%nat ->
    exists r,
      visitTargets deps nw graph adjacencyMap thisPeer thisRoutes rec
        targets ips rts visited = Some r /\
      forall ips' rts' v', r = Ok (ips', rts', v') -> visited ⊆ v'.
Proof.
  intros Hrec. induction targets as [|[t e] targets IH]; intros ips rts visited Hin Hsize.
  - simpl. eexists. split; [done|]. intros; by simplify_eq.
  - assert (forall t' e', (t', e') ∈ targets -> t' ∈ universe) as Hin'
      by (intros; eapply Hin; by right).
    assert (t ∈ universe) as Ht by (eapply Hin; by left).
    simpl.
    destruct (String.eqb t thisPeer); [by apply IH|].
    destruct (hasEdge _ t); [by apply IH|].
    destruct (bool_decide (t ∈ visited)) eqn:Hvis; [by apply IH|].
    apply bool_decide_eq_false in Hvis.
    destruct (Vertex graph t) as [tn|]; [|by eexists].
    assert (forall v', {[t]} ∪ visited ⊆ v' ->
            (size (universe ∖ v') <= n)%nat) as Hmono.
    { intros v' Hv'. etrans; [|exact Hsize]. apply subseteq_size. set_solver. }
    destruct (String.eqb (PublicKey tn) "").
    { destruct (IH ips rts ({[t]} ∪ visited) Hin') as (r & Hr & Hsub); [by apply Hmono|].
      exists r. split; [done|]. intros ??? ->. etrans; [|by eapply Hsub]. set_solver. }
    destruct (GetRoutesByNode nw (Id tn)); [|by eexists].
    destruct (appendRoutes _ _ _ _); [|by eexists].
    destruct (Hrec tn ({[t]} ∪ visited)) as (r & Hr & Hsub).
    { eapply Nat.lt_le_trans; [|exact Hsize]. apply subset_size. set_solver. }
    rewrite Hr. destruct r as [[[ips' rts'] v']|]; [|by eexists].
    specialize (Hsub _ _ _ eq_refl).
    destruct (IH (appendNew l ips') (appendNew rts rts') v' Hin') as (r & Hr' & Hsub');
      [by apply Hmono|].
    exists r. split; [done|]. intros ??? ->. etrans; [|by eapply Hsub']. set_solver.
Qed.

Lemma recurseEdges_returns budget :
  returnsBelow (recurseEdges deps nw graph adjacencyMap thisPeer thisRoutes budget) budget.
Proof.
  induction budget as [|budget IH]; intros node v Hsize; [lia|].
  simpl.
  destruct (visitTargets_returns _ budget IH (adjacents adjacencyMap (Id node))
              [] [] ({[Id node]} ∪ v)) as (r & Hr & Hsub).
  - intros t e. apply target_in_universe.
  - etrans; [apply subseteq_size|apply Nat.lt_succ_r, Hsize]. set_solver.
  - exists r. split; [done|]. intros ??? ->. etrans; [|by eapply Hsub]. set_solver.
Qed.

(** [recursePeers] returns: the recursion budget of the model is never
    used up. *)
Lemma recursePeers_total node :
  recursePeers deps nw graph adjacencyMap thisPeer thisRoutes node <> None.
Proof.
  unfold recursePeers.
  destruct (GetRoutesByNode nw (Id node)); [|done].
  destruct (appendRoutes _ _ _ _); [|done].
  destruct (recurseEdges_returns (recursionBudget adjacencyMap) node ∅) as (r & -> & _).
  - unfold recursionBudget. apply Nat.lt_succ_r.
    etrans; [|apply (size_list_to_set_le (targetIds adjacencyMap))].
    apply subseteq_size. set_solver.
  - by destruct r as [[[? ?] ?]|].
Qed.

End Traversal.

Section Descriptors.
Import GoStrings v1 Netip Peers Meshutil.

(** The node has a record and a public key. *)
Definition hasPublicKey (g : Graph) (id : string) : bool :=
  match Vertex g id with
  | Some n => negb (String.eqb (PublicKey n) "")
  | None => false
  end.

(** [SortedWireGuardPeers]: the order [WireGuardPeersEqual] sorts by. *)
Definition sortedById (peers : list WireGuardPeer) : Prop :=
  StronglySorted (fun p q => String.leb (PeerId p) (PeerId q) = true) peers.

Lemma Vertex_Id g id n : Vertex g id = Some n -> Id n = id.
Proof.
  unfold Vertex. intros [_ H]%find_some. by apply String.eqb_eq.
Qed.


Lemma peersOfAdjacents_total deps nw g adj peerID ourRoutes das out :
  peersOfAdjacents deps nw g adj peerID ourRoutes das out <> None.
Proof.
  revert out. induction das as [|[adjacent edge] das IH]; intros out; simpl; [done|].
  destruct (Vertex g adjacent) as [node|]; [|done].
  destruct (String.eqb (PublicKey node) ""); [apply IH|].
  pose proof (recursePeers_total deps nw g adj peerID ourRoutes node) as Hr.
  destruct (recursePeers _ _ _ _ _ _ node) as [[[ips rts]|]|]; [apply IH|done|done].
Qed.

(** [WireGuardPeersFor] returns for every storage and every peer. *)
Lemma WireGuardPeersFor_total deps st peerID :
  WireGuardPeersFor deps st peerID <> None.
Proof.
  unfold WireGuardPeersFor.
  destruct (FilterGraph _ _ _); [|done].
  destruct (GetRoutesByNode _ _); [|done].
  destruct (parsePrefixes _ _); [|done].
  apply peersOfAdjacents_total.
Qed.

Lemma peersOfAdjacents_ids deps nw g adj peerID ourRoutes das out peers :
  peersOfAdjacents deps nw g adj peerID ourRoutes das out = Some (Ok peers) ->
  PeerId <$> peers = (PeerId <$> out) ++ List.filter (hasPublicKey g) das.*1.
Proof.
  revert out. induction das as [|[adjacent edge] das IH]; intros out; simpl.
  - intros [= ->]. by rewrite app_nil_r.
  - unfold hasPublicKey at 1.
    destruct (Vertex g adjacent) as [node|] eqn:Hv; [|done].
    destruct (String.eqb (PublicKey node) ""); simpl; [apply IH|].
    destruct (recursePeers _ _ _ _ _ _ node) as [[[ips rts]|]|]; [|done|done].
    intros H. apply IH in H. rewrite H, fmap_app. simpl.
    rewrite (Vertex_Id _ _ _ Hv). by rewrite <- app_assoc.
Qed.

(** C6, as the code has it. The descriptors come in the order in which
    [range] visits the requesting node's entry of the filtered adjacency
    map, one for every adjacent that has a public key; nothing sorts
    them. *)
Theorem WireGuardPeersFor_order deps st peerID adjacencyMap peers :
  FilterGraph (NetworkingNew st) (PeersGraph st) peerID = Ok adjacencyMap ->
  WireGuardPeersFor deps st peerID = Some (Ok peers) ->
  PeerId <$> peers =
    List.filter (hasPublicKey (PeersGraph st)) (adjacents adjacencyMap peerID).*1.
Proof.
  unfold WireGuardPeersFor. intros ->.
  destruct (GetRoutesByNode _ _); [|done].
  destruct (parsePrefixes _ _); [|done].
  intros H. by apply peersOfAdjacents_ids in H.
Qed.

End Descriptors.

Section DescriptorOrder.
Import GoStrings v1 Networking Netip Peers Meshutil MeshNetworking.

(** A node [a] with the two adjacents [b] and [c]; [order] is the order
    in which [range] visits the entry of [a]. *)
Definition forkGraph (order : list string) : Graph :=
  {| vertices :=
       [joinedNode "a" "172.16.0.1/32" "2001:db8::1/128";
        joinedNode "b" "172.16.0.2/32" "2001:db8::2/128";
        joinedNode "c" "172.16.0.3/32" "2001:db8::3/128"];
     edges :=
       [("a", edgeTo "a" <$> order);
        ("b", [edgeTo "b" "a"]);
        ("c", [edgeTo "c" "a"])] |}.

Definition forkStorage (order : list string) : MeshStorage :=
  {| PeersGraph := forkGraph order;
     NetworkingNew := New insertionOrderRuntime allowAllStore |}.

Lemma WireGuardPeersFor_order_witness :
  exists peers,
    WireGuardPeersFor plainDeps (forkStorage ["c"; "b"]) "a" = Some (Ok peers) /\
    PeerId <$> peers = ["c"; "b"].
Proof.
  eexists. split; [vm_compute; reflexivity|].
  apply (WireGuardPeersFor_order plainDeps (forkStorage ["c"; "b"]) "a"
           (edges (forkGraph ["c"; "b"]))); vm_compute; reflexivity.
Defined.

(** C6, as stated, fails: when [range] visits [c] before [b] the
    descriptors come out as [c], [b], which is not sorted by id; and
    the same mesh visited in the other order gives [b], [c]. *)
Lemma WireGuardPeersFor_not_sorted :
  exists peers peers',
    WireGuardPeersFor plainDeps (forkStorage ["c"; "b"]) "a" = Some (Ok peers) /\
    WireGuardPeersFor plainDeps (forkStorage ["b"; "c"]) "a" = Some (Ok peers') /\
    PeerId <$> peers = ["c"; "b"] /\
    PeerId <$> peers' = ["b"; "c"] /\
    ~ sortedById peers.
Proof.
  do 2 eexists. split; [vm_compute; reflexivity|].
  split; [vm_compute; reflexivity|].
  split; [reflexivity|]. split; [reflexivity|].
  intros H. apply StronglySorted_inv in H as [_ H].
  apply Forall_cons in H as [H _]. vm_compute in H. discriminate.
Qed.

End DescriptorOrder.

Section KeyedReachability.
Import GoStrings v1 Netip Peers Meshutil.

Variable deps : Deps.
Variable nw : Networking.
Variable graph : Graph.
Variable adjacencyMap : AdjacencyMap.
Variable thisPeer : string.
Variable thisRoutes : list Prefix.

(** [reached d t]: [t] is reached from the direct neighbour [d] along
    edges of the filtered graph, without passing [thisPeer] or another
    direct neighbour, through nodes that all have a record and a public
    key ([d] and [t] included). *)
Inductive reached (d : string) : string -> Prop :=
| reached_start dn :
    Vertex graph d = Some dn -> PublicKey dn <> "" -> reached d d
| reached_step n t e tn :
    reached d n ->
    (t, e) ∈ adjacents adjacencyMap n ->
    t <> thisPeer ->
    hasEdge (adjacents adjacencyMap thisPeer) t = false ->
    Vertex graph t = Some tn ->
    PublicKey tn <> "" ->
    reached d t.

(** The prefixes a node adds to an allowed-IPs list: its valid private
    addresses and the destinations of its routes. *)
Definition contributes (n : MeshNode) (p : Prefix) : Prop :=
  (IsValid p = true /\ (p = PrivateAddrV4 n \/ p = PrivateAddrV6 n)) \/
  (exists routes cidr,
     GetRoutesByNode nw (Id n) = Ok routes /\
     cidr ∈ destinationCidrs routes /\
     ParsePrefix deps cidr = Some p).

(** A prefix that some node reached from [d] contributes. *)
Definition fromReached (d : string) (p : Prefix) : Prop :=
  exists t tn, reached d t /\ Vertex graph t = Some tn /\ contributes tn p.

(** A recursive call whose allowed IPs come from reached nodes and
    whose allowed routes are empty. *)
Definition soundCall (d : string)
  (rec : MeshNode -> gset string -> outcome edgesResult) : Prop :=
  forall node v ips rts v',
    reached d (Id node) -> Vertex graph (Id node) = Some node ->
    rec node v = Some (Ok (ips, rts, v')) ->
    Forall (fromReached d) ips /\ rts = [].

(** What the traversal grants a descriptor: no allowed route, and
    allowed IPs that each print a prefix contributed by a node reached
    from the peer through nodes with public keys. *)
Definition grantedByReached (peer : WireGuardPeer) : Prop :=
  AllowedRoutes peer = [] /\
  Forall (fun ip => exists p, ip = PrefixString p /\ fromReached (PeerId peer) p)
    (AllowedIps peer).


Lemma reached_keyed d t :
  reached d t -> exists tn, Vertex graph t = Some tn /\ PublicKey tn <> "".
Proof. destruct 1; eauto. Qed.

Lemma appendValid_from d t tn l p :
  reached d t -> Vertex graph t = Some tn ->
  p = PrivateAddrV4 tn \/ p = PrivateAddrV6 tn ->
  Forall (fromReached d) l -> Forall (fromReached d) (appendValid l p).
Proof.
  intros Hr Hv Hp Hl. unfold appendValid.
  destruct (IsValid p) eqn:E; [|done].
  apply Forall_app. split; [done|]. constructor; [|done].
  exists t, tn. split_and!; [done..|]. left. by split.
Qed.

Lemma appendRoutes_from d t tn routes cidrs l l' :
  reached d t -> Vertex graph t = Some tn ->
  GetRoutesByNode nw (Id tn) = Ok routes ->
  cidrs ⊆ destinationCidrs routes ->
  Forall (fromReached d) l ->
  appendRoutes deps thisRoutes cidrs l = Some l' ->
  Forall (fromReached d) l'.
Proof.
  intros Hr Hv Hroutes. revert l.
  induction cidrs as [|cidr cidrs IH]; intros l Hsub Hl; simpl.
  - by intros [= <-].
  - destruct (ParsePrefix deps cidr) as [p|] eqn:Hp; [|done].
    apply IH; [set_solver|].
    case_match; [|done].
    apply Forall_app. split; [done|]. constructor; [|done].
    exists t, tn. split_and!; [done..|]. right.
    exists routes, cidr. split_and!; [done| |done]. apply Hsub. by left.
Qed.

Lemma appendNew_Forall (P : Prefix -> Prop) acc ips :
  Forall P acc -> Forall P ips -> Forall P (appendNew acc ips).
Proof.
  unfold appendNew. intros Hacc Hips. revert acc Hacc.
  induction Hips as [|ip ips Hip _ IH]; intros acc Hacc; simpl; [done|].
  apply IH. case_match; [done|]. apply Forall_app. split; [done|]. by constructor.
Qed.

Lemma visitTargets_sound d rec n :
  soundCall d rec -> reached d n ->
  forall targets ips rts visited ips' rts' v',
    targets ⊆ adjacents adjacencyMap n ->
    Forall (fromReached d) ips -> rts = [] ->
    visitTargets deps nw graph adjacencyMap thisPeer thisRoutes rec
      targets ips rts visited = Some (Ok (ips', rts', v')) ->
    Forall (fromReached d) ips' /\ rts' = [].
Proof.
  intros Hrec Hn.
  induction targets as [|[t e] targets IH];
    intros ips rts visited ips' rts' v' Hsub Hips Hrts; simpl.
  - intros [= <- <- <-]. done.
  - assert (targets ⊆ adjacents adjacencyMap n) as Hsub' by set_solver.
    assert ((t, e) ∈ adjacents adjacencyMap n) as Hte by set_solver.
    destruct (String.eqb t thisPeer) eqn:Hself; [by eapply IH|].
    destruct (hasEdge _ t) eqn:Hdirect; [by eapply IH|].
    destruct (bool_decide (t ∈ visited)); [by eapply IH|].
    destruct (Vertex graph t) as [tn|] eqn:Hv; [|done].
    destruct (String.eqb (PublicKey tn) "") eqn:Hkey; [by eapply IH|].
    apply String.eqb_neq in Hself, Hkey.
    assert (reached d t) as Ht by (by eapply reached_step).
    destruct (GetRoutesByNode nw (Id tn)) as [routes|] eqn:Hroutes; [|done].
    destruct (appendRoutes _ _ _ _) as [l|] eqn:Happ; [|done].
    eapply appendRoutes_from in Happ; [| exact Ht | exact Hv | exact Hroutes | done |];
      last first.
    { eapply appendValid_from; [exact Ht|exact Hv|by right|].
      eapply appendValid_from; [exact Ht|exact Hv|by left|done]. }
    destruct (rec tn _) as [[[[ips1 rts1] v1]|]|] eqn:Hcall; [|done|done].
    pose proof (Vertex_Id _ _ _ Hv) as Hid.
    apply Hrec in Hcall as [Hips1 ->]; [|by rewrite Hid..].
    subst rts. eapply IH; [done| |done].
    by apply appendNew_Forall.
Qed.

Lemma recurseEdges_sound d budget :
  soundCall d (recurseEdges deps nw graph adjacencyMap thisPeer thisRoutes budget).
Proof.
  induction budget as [|budget IH]; intros node v ips rts v' Hr Hv; simpl; [done|].
  intros H. eapply visitTargets_sound in H; [done|exact IH|exact Hr|done..].
Qed.

Lemma recursePeers_sound d node ips rts :
  Vertex graph d = Some node -> PublicKey node <> "" ->
  recursePeers deps nw graph adjacencyMap thisPeer thisRoutes node = Some (Ok (ips, rts)) ->
  Forall (fromReached d) ips /\ rts = [].
Proof.
  intros Hv Hkey. unfold recursePeers.
  pose proof (Vertex_Id _ _ _ Hv) as Hid.
  assert (reached d d) as Hd by (by eapply reached_start).
  destruct (GetRoutesByNode nw (Id node)) as [routes|] eqn:Hroutes; [|done].
  destruct (appendRoutes _ _ _ _) as [l|] eqn:Happ; [|done].
  eapply appendRoutes_from in Happ; [| exact Hd | exact Hv | exact Hroutes | done |];
    last first.
  { eapply appendValid_from; [exact Hd|exact Hv|by right|].
    eapply appendValid_from; [exact Hd|exact Hv|by left|done]. }
  destruct (recurseEdges _ _ _ _ _ _ _ node ∅) as [[[[ips1 rts1] v1]|]|] eqn:Hcall;
    [|done|done].
  apply (recurseEdges_sound d) in Hcall as [Hips1 ->]; [|by rewrite Hid..].
  intros [= <- <-]. split; [|done]. by apply appendNew_Forall.
Qed.

Lemma peersOfAdjacents_sound ourRoutes das out peers :
  thisRoutes = ourRoutes ->
  Forall grantedByReached out ->
  peersOfAdjacents deps nw graph adjacencyMap thisPeer ourRoutes das out = Some (Ok peers) ->
  Forall grantedByReached peers.
Proof.
  intros <-. revert out.
  induction das as [|[adjacent edge] das IH]; intros out Hout; simpl.
  - by intros [= <-].
  - destruct (Vertex graph adjacent) as [node|] eqn:Hv; [|done].
    destruct (String.eqb (PublicKey node) "") eqn:Hkey; [by apply IH|].
    apply String.eqb_neq in Hkey.
    destruct (recursePeers _ _ _ _ _ _ node) as [[[ips rts]|]|] eqn:Hcall; [|done|done].
    apply (recursePeers_sound adjacent) in Hcall as [Hips ->]; [|done..].
    apply IH. apply Forall_app. split; [done|]. constructor; [|done].
    split; [done|]. simpl. rewrite (Vertex_Id _ _ _ Hv).
    apply Forall_fmap. eapply Forall_impl; [exact Hips|]. intros p Hp. by exists p.
Qed.

(** The step the claim describes: a target without a public key is
    marked visited and the loop goes on without descending into it. *)
Lemma visitTargets_unkeyed rec t e tn targets ips rts visited :
  t <> thisPeer ->
  hasEdge (adjacents adjacencyMap thisPeer) t = false ->
  t ∉ visited ->
  Vertex graph t = Some tn ->
  PublicKey tn = "" ->
  visitTargets deps nw graph adjacencyMap thisPeer thisRoutes rec
    ((t, e) :: targets) ips rts visited
  = visitTargets deps nw graph adjacencyMap thisPeer thisRoutes rec
      targets ips rts ({[t]} ∪ visited).
Proof.
  intros Hself Hdirect Hvis Hv Hkey. simpl.
  apply String.eqb_neq in Hself. rewrite Hself, Hdirect.
  rewrite bool_decide_eq_false_2 by done. by rewrite Hv, Hkey.
Qed.

End KeyedReachability.

Section BlockedTraversal.
Import GoStrings v1 Networking Netip Peers Meshutil MeshNetworking.

(** A chain [a - b - x - y] in which [x] has no public key. *)
Definition blockedGraph : Graph :=
  {| vertices :=
       [joinedNode "a" "172.16.0.1/32" "2001:db8::1/128";
        joinedNode "b" "172.16.0.2/32" "2001:db8::2/128";
        {| Id := "x"; PublicKey := ""; HostPublicKey := ""; PrimaryEndpoint := "";
           WireguardEndpoints := []; ZoneAwarenessId := ""; Multiaddrs := [];
           PrivateAddrV4 := MkPrefix "172.16.0.3/32";
           PrivateAddrV6 := MkPrefix "2001:db8::3/128";
           Features := []; JoinedAt := 0 |};
        joinedNode "y" "172.16.0.4/32" "2001:db8::4/128"];
     edges :=
       [("a", [edgeTo "a" "b"]);
        ("b", [edgeTo "b" "a"; edgeTo "b" "x"]);
        ("x", [edgeTo "x" "b"; edgeTo "x" "y"]);
        ("y", [edgeTo "y" "x"])] |}.

Definition blockedStorage : MeshStorage :=
  {| PeersGraph := blockedGraph;
     NetworkingNew := New insertionOrderRuntime allowAllStore |}.


(** C10. A node without a public key is marked visited and not
    descended into, so whatever [WireGuardPeersFor] returns, every
    allowed IP of a descriptor is contributed by a node that is reached
    from that peer through nodes with public keys only, and no
    descriptor has an allowed route: a node that can be reached only
    through nodes without public keys contributes nothing. *)
Theorem unkeyed_nodes_block_traversal deps st peerID adjacencyMap peers :
  Meshutil.FilterGraph (NetworkingNew st) (PeersGraph st) peerID = Ok adjacencyMap ->
  WireGuardPeersFor deps st peerID = Some (Ok peers) ->
  Forall (grantedByReached deps (NetworkingNew st) (PeersGraph st) adjacencyMap peerID)
    peers.
Proof.
  unfold WireGuardPeersFor. intros ->.
  destruct (Meshutil.GetRoutesByNode _ _); [|done].
  destruct (parsePrefixes _ _) as [ourRoutes|]; [|done].
  intros H. by eapply (peersOfAdjacents_sound _ _ _ _ _ ourRoutes) in H.
Qed.

Lemma unkeyed_nodes_block_traversal_witness :
  exists peers,
    WireGuardPeersFor plainDeps blockedStorage "a" = Some (Ok peers) /\
    summary peers = [("b", ["172.16.0.2/32"; "2001:db8::2/128"])] /\
    Forall (grantedByReached plainDeps (NetworkingNew blockedStorage)
              blockedGraph (edges blockedGraph) "a") peers.
Proof.
  eexists. split; [vm_compute; reflexivity|]. split; [reflexivity|].
  apply (unkeyed_nodes_block_traversal plainDeps blockedStorage "a" (edges blockedGraph));
    vm_compute; reflexivity.
Defined.

End BlockedTraversal.

(** ** Snapshots *)

Section SnapshotRoundTrip.
Import Snapshots.

(** The database a restore aims at: the tables of the model, an edge
    taking the default weight of the target database. *)
Definition restored (target : DB) (model : snapshotModel) : DB :=
  {| weightDefault := weightDefault target;
     mesh_state := State model;
     nodes := Nodes model;
     leases := Leases model;
     raft_acls := RaftACLs model;
     node_edges :=
       (fun edge => {| SrcNodeID := SrcNodeID edge; DstNodeID := DstNodeID edge;
                       Weight := weightDefault target |}) <$> NodeEdges model |}.

(** An open transaction over [db]. *)
Definition openTx (db : DB) : Tx := {| pending := db; txDone := false |}.

(** A state with one node, its lease and an edge of weight 5. *)
Definition sampleState : DB :=
  {| weightDefault := 1;
     mesh_state := [{| Key := "IPv4Prefix"; Value := "172.16.0.0/12" |}];
     nodes := [{| ID := "node-a"; PublicKey := Some "key-a"; RaftPort := 9443;
                  GrpcPort := 8443; WireguardPort := 51820; PublicEndpoint := None;
                  NetworkIpv6 := None; NodeCreatedAt := 0; NodeUpdatedAt := 0 |}];
     leases := [{| NodeID := "node-a"; Ipv4 := "172.16.0.1/32"; LeaseCreatedAt := 0 |}];
     raft_acls := [];
     node_edges := [{| SrcNodeID := "node-a"; DstNodeID := "node-b"; Weight := 5 |}] |}.

(** A freshly created database. *)
Definition emptyState : DB :=
  {| weightDefault := 1; mesh_state := []; nodes := []; leases := [];
     raft_acls := []; node_edges := [] |}.

(** [Restore] fails before its first statement takes effect, whatever
    the snapshot and the database: the transaction is already rolled
    back. *)
Lemma Restore_fails model db :
  Restore model db = (Some ("drop mesh state: " +:+ ErrTxDone), db).
Proof. reflexivity. Qed.

Lemma step_exec msg stmt k db :
  step msg (exec stmt) k (openTx db) = k (openTx (stmt db)).
Proof. reflexivity. Qed.

Lemma each_exec {A} msg (stmt : A -> DB -> DB) rows k db :
  each msg (fun row => exec (stmt row)) rows k (openTx db)
  = k (openTx (fold_left (fun db row => stmt row db) rows db)).
Proof.
  revert db. induction rows as [|row rows IH]; intros db; simpl; [done|].
  by rewrite step_exec, IH.
Qed.

Lemma each_mesh_state msg rows k db :
  each msg (fun state : MeshState => RestoreMeshState (Key state) (Value state)) rows k
    (openTx db)
  = k (openTx (setMeshState db (mesh_state db ++ rows))).
Proof.
  revert db. induction rows as [|[key value] rows IH]; intros db; simpl.
  - destruct db. simpl. by rewrite app_nil_r.
  - unfold RestoreMeshState at 1. rewrite step_exec, IH.
    destruct db. simpl. by rewrite <- app_assoc.
Qed.

Lemma each_node msg rows k db :
  each msg (fun node : Node => RestoreNode
     {| ID := ID node; PublicKey := PublicKey node; RaftPort := RaftPort node;
        GrpcPort := GrpcPort node; WireguardPort := WireguardPort node;
        PublicEndpoint := PublicEndpoint node; NetworkIpv6 := NetworkIpv6 node;
        NodeCreatedAt := NodeCreatedAt node; NodeUpdatedAt := NodeUpdatedAt node |})
    rows k (openTx db)
  = k (openTx (setNodes db (nodes db ++ rows))).
Proof.
  revert db. induction rows as [|[] rows IH]; intros db; simpl.
  - destruct db. simpl. by rewrite app_nil_r.
  - unfold RestoreNode at 1. rewrite step_exec, IH.
    destruct db. simpl. by rewrite <- app_assoc.
Qed.

Lemma each_lease msg rows k db :
  each msg (fun lease : Lease => RestoreLease
     {| NodeID := NodeID lease; Ipv4 := Ipv4 lease;
        LeaseCreatedAt := LeaseCreatedAt lease |})
    rows k (openTx db)
  = k (openTx (setLeases db (leases db ++ rows))).
Proof.
  revert db. induction rows as [|[] rows IH]; intros db; simpl.
  - destruct db. simpl. by rewrite app_nil_r.
  - unfold RestoreLease at 1. rewrite step_exec, IH.
    destruct db. simpl. by rewrite <- app_assoc.
Qed.

Lemma each_raft_acl msg rows k db :
  each msg (fun a : RaftAcl => RestoreRaftACL
     {| AclName := AclName a; AclNodes := AclNodes a; AclAction := AclAction a;
        AclCreatedAt := AclCreatedAt a; AclUpdatedAt := AclUpdatedAt a |})
    rows k (openTx db)
  = k (openTx (setRaftACLs db (raft_acls db ++ rows))).
Proof.
  revert db. induction rows as [|[] rows IH]; intros db; simpl.
  - destruct db. simpl. by rewrite app_nil_r.
  - unfold RestoreRaftACL at 1. rewrite step_exec, IH.
    destruct db. simpl. by rewrite <- app_assoc.
Qed.

Lemma each_node_edge msg rows k db :
  each msg (fun edge : NodeEdge => RestoreNodeEdge (SrcNodeID edge) (DstNodeID edge))
    rows k (openTx db)
  = k (openTx (setNodeEdges db
         (node_edges db ++
            ((fun edge => {| SrcNodeID := SrcNodeID edge; DstNodeID := DstNodeID edge;
                             Weight := weightDefault db |}) <$> rows)))).
Proof.
  revert db. induction rows as [|edge rows IH]; intros db; simpl.
  - destruct db. simpl. by rewrite app_nil_r.
  - unfold RestoreNodeEdge at 1. rewrite step_exec, IH.
    destruct db. simpl. by rewrite <- app_assoc.
Qed.

(** What the statements of [Restore] do in a transaction that is still
    open: they replace the five tables by those of the snapshot, every
    column but the weight of an edge. *)
Lemma restoreStatements_open model db :
  restoreStatements model (openTx db) = (None, openTx (restored db model)).
Proof.
  unfold restoreStatements, DropMeshState, DropNodes, DropLeases, DropRaftACLs,
    DropNodeEdges.
  rewrite !step_exec, each_mesh_state, each_node, each_lease, each_raft_acl,
    each_node_edge.
  by destruct db.
Qed.

(** C3 at the failing input. Restoring the snapshot of [sampleState]
    into a fresh database returns the error of the first statement and
    leaves the database empty; and the statements themselves, run in an
    open transaction, give edges the default weight 1 where the state
    had 5. *)
Theorem Restore_of_Snapshot_loses_state :
  (Restore (Snapshot sampleState) emptyState
    = (Some "drop mesh state: sql: transaction has already been committed or rolled back",
       emptyState)) /\
  ((Restore (Snapshot sampleState) emptyState).2 <> sampleState) /\
  ((restoreStatements (Snapshot sampleState) (openTx emptyState)).1 = None) /\
  (node_edges (pending (restoreStatements (Snapshot sampleState) (openTx emptyState)).2)
    = [{| SrcNodeID := "node-a"; DstNodeID := "node-b"; Weight := 1 |}]) /\
  (node_edges sampleState
    = [{| SrcNodeID := "node-a"; DstNodeID := "node-b"; Weight := 5 |}]).
Proof. repeat split; try reflexivity. discriminate. Qed.

End SnapshotRoundTrip.

(** ** The raft observer *)

Section Observer.
Import Raft Store.

(** The configuration holds a non-voter under the id. *)
Definition nonvoter (s : store) (id : string) : Prop :=
  exists srv, srv ∈ Servers s /\ ServerID srv = id /\ Suffrage srv = Nonvoter.

(** A leader whose configuration holds itself as voter and [peer] as
    non-voter, both with node records. *)
Definition leaderStore : store :=
  {| testStore := false; IsLeader := true;
     Servers := [{| Suffrage := Voter; ServerID := "leader"; ServerAddress := "10.0.0.1:9443" |};
                 {| Suffrage := Nonvoter; ServerID := "peer"; ServerAddress := "10.0.0.2:9443" |}];
     NodeRecords := ["leader"; "peer"] |}.

(** [n] failed heartbeats of [peer] in a row. *)
Definition failures (n : nat) : list Observation :=
  replicate n (FailedHeartbeatObservation "peer").

Lemma observeFrom_app s failedHeartbeats events events' :
  observeFrom s failedHeartbeats (events ++ events')
  = observeFrom (observeFrom s failedHeartbeats events).1
      (observeFrom s failedHeartbeats events).2 events'.
Proof.
  revert s failedHeartbeats.
  induction events as [|ev events IH]; intros s failedHeartbeats; simpl; [done|].
  apply IH.
Qed.

(** C4, as the code has it. A [ResumedHeartbeatObservation] is logged
    and nothing else: it leaves every counter as it was and makes no
    call. Taking a resumed heartbeat out of the stream of observations
    therefore changes nothing of what the loop does: a counter counts
    the failed heartbeats since it was last cleared, resumed heartbeats
    in between or not. *)
Theorem resumed_heartbeat_changes_nothing s failedHeartbeats peerID :
  handle s failedHeartbeats (ResumedHeartbeatObservation peerID) = (failedHeartbeats, []) /\
  forall before after,
    observeFrom s failedHeartbeats
      (before ++ ResumedHeartbeatObservation peerID :: after)
    = observeFrom s failedHeartbeats (before ++ after).
Proof.
  split; [reflexivity|]. intros before after.
  by rewrite !observeFrom_app.
Qed.

(** C4, as stated, fails: after three failed heartbeats a resumed
    heartbeat leaves the counter at three, not at zero. *)
Lemma resumed_heartbeat_keeps_count :
  count (observe leaderStore (failures 3)).2 "peer" = 3 /\
  count (observe leaderStore
           (failures 3 ++ [ResumedHeartbeatObservation "peer"])).2 "peer" = 3 /\
  count (observe leaderStore
           (failures 3 ++ [ResumedHeartbeatObservation "peer"])).2 "peer" <> 0.
Proof. vm_compute. repeat split; discriminate. Qed.

Lemma count_insert fh id n : count (<[id := n]> fh) id = n.
Proof. unfold count. by rewrite lookup_insert_eq. Qed.

Lemma count_delete fh id : count (delete id fh) id = 0.
Proof. unfold count. by rewrite lookup_delete_eq. Qed.

Lemma removal_calls_elem (cfg : list Server) peerID c :
  c ∈ flat_map (fun srv =>
        if bool_decide (ServerID srv = peerID) && bool_decide (Suffrage srv = Nonvoter)
        then [RemoveServer peerID; PeersDelete peerID] else []) cfg <->
  (c = RemoveServer peerID \/ c = PeersDelete peerID) /\
  exists srv, srv ∈ cfg /\ ServerID srv = peerID /\ Suffrage srv = Nonvoter.
Proof.
  rewrite list_elem_of_In, in_flat_map. split.
  - intros (srv & Hsrv & Hc). apply list_elem_of_In in Hsrv.
    destruct (bool_decide _ && bool_decide _) eqn:E; [|by destruct Hc].
    apply andb_prop in E as [E1%bool_decide_eq_true E2%bool_decide_eq_true].
    split; [|by exists srv]. simpl in Hc. naive_solver.
  - intros (Hc & srv & Hsrv & Hid & Hsuf). exists srv.
    split; [by apply list_elem_of_In|].
    rewrite !bool_decide_eq_true_2 by done. simpl. naive_solver.
Qed.

Lemma perform_servers s calls srv :
  srv ∈ Servers (fold_left perform calls s) <->
  srv ∈ Servers s /\ RemoveServer (ServerID srv) ∉ calls.
Proof.
  revert s. induction calls as [|c calls IH]; intros s; simpl.
  - set_solver.
  - rewrite IH, not_elem_of_cons. destruct c; simpl; try naive_solver.
    rewrite list_elem_of_In, filter_In, <- list_elem_of_In.
    rewrite negb_true_iff, bool_decide_eq_false. naive_solver.
Qed.

Lemma perform_records s calls id :
  id ∈ NodeRecords (fold_left perform calls s) <->
  id ∈ NodeRecords s /\ PeersDelete id ∉ calls.
Proof.
  revert s. induction calls as [|c calls IH]; intros s; simpl.
  - set_solver.
  - rewrite IH, not_elem_of_cons. destruct c; simpl; try naive_solver.
    rewrite list_elem_of_In, filter_In, <- list_elem_of_In.
    rewrite negb_true_iff, bool_decide_eq_false. naive_solver.
Qed.

(** What one failed heartbeat does. On a failed heartbeat of [peerID]:
    - while the counter is at most 30 the observer only counts;
    - when the counter is above 30 the counter is cleared, and on the
      leader a peer that the configuration holds as non-voter is removed
      from the configuration and its node record deleted;
    - no server is removed and no record deleted otherwise: the calls
      are only ever made on the leader, for the peer of the observation,
      with the counter above 30 and a non-voter entry in the
      configuration. *)
Theorem failed_heartbeat_removal s failedHeartbeats peerID :
  let r := handle s failedHeartbeats (FailedHeartbeatObservation peerID) in
  let s' := fold_left perform r.2 s in
  (count failedHeartbeats peerID <= 30 ->
     r.2 = [] /\ count r.1 peerID = count failedHeartbeats peerID + 1) /\
  (30 < count failedHeartbeats peerID ->
     r.1 !! peerID = None /\
     (IsLeader s = true -> nonvoter s peerID ->
        r.2 <> [] /\
        (forall c, c ∈ r.2 -> c = RemoveServer peerID \/ c = PeersDelete peerID) /\
        (peerID ∉ (ServerID <$> Servers s')) /\
        (peerID ∉ NodeRecords s'))) /\
  (forall c, c ∈ r.2 ->
     (c = RemoveServer peerID \/ c = PeersDelete peerID) /\
     30 < count failedHeartbeats peerID /\
     IsLeader s = true /\
     nonvoter s peerID).
Proof.
  intros r s'. subst s' r. simpl.
  destruct (30 <? count failedHeartbeats peerID) eqn:E.
  - apply Z.ltb_lt in E. split; [lia|]. simpl. split.
    + intros _. split; [apply lookup_delete_eq|].
      intros -> Hnv. split_and!.
      * destruct Hnv as (srv & Hsrv & Hid & Hsuf).
        intros Hnil.
        assert (RemoveServer peerID ∈ ([] : list Call)) as Hin; [|by apply elem_of_nil in Hin].
        rewrite <- Hnil. apply removal_calls_elem. split; [by left|by exists srv].
      * intros c Hc. by apply removal_calls_elem in Hc as [Hc _].
      * intros (srv & Hid & Hsrv)%list_elem_of_fmap.
        apply perform_servers in Hsrv as [_ Hno]. apply Hno.
        apply removal_calls_elem. split; [left; by rewrite Hid|done].
      * intros [_ Hno]%perform_records. apply Hno.
        apply removal_calls_elem. split; [by right|done].
    + intros c Hc. destruct (IsLeader s); [|by apply elem_of_nil in Hc].
      apply removal_calls_elem in Hc as [Hc Hnv]. done.
  - apply Z.ltb_ge in E. split; [|split; [lia|]].
    + intros _. destruct (count failedHeartbeats peerID =? 0) eqn:E0; simpl.
      * apply Z.eqb_eq in E0. by rewrite count_insert, E0.
      * by rewrite count_insert.
    + intros c Hc. by destruct (count failedHeartbeats peerID =? 0); apply elem_of_nil in Hc.
Qed.

(** C5. The claim removes a non-voter when it has missed 30 heartbeats
    in a row, as the comment of the source does ("if we lose 30
    heartbeats from a peer then we should remove it"). The loop tests
    [failedHeartbeats[id] > 30] before it counts the failure: on the
    leader, thirty failed heartbeats of the non-voter in a row, with
    nothing in between, leave the counter at 30 and the configuration and
    the node records as they were; so does the thirty-first, and only
    the thirty-second removes the peer and its record. *)
Lemma thirty_failures_remove_nothing :
  IsLeader leaderStore = true /\
  nonvoter leaderStore "peer" /\
  count (observe leaderStore (failures 30)).2 "peer" = 30 /\
  (observe leaderStore (failures 30)).1 = leaderStore /\
  count (observe leaderStore (failures 31)).2 "peer" = 31 /\
  (observe leaderStore (failures 31)).1 = leaderStore /\
  ServerID <$> Servers (observe leaderStore (failures 32)).1 = ["leader"] /\
  NodeRecords (observe leaderStore (failures 32)).1 = ["leader"].
Proof.
  split; [reflexivity|]. split.
  - eexists. split; [apply list_elem_of_further, list_elem_of_here|]. by split.
  - vm_compute. repeat split.
Qed.

End Observer.

(** ** The leave RPC *)

Section LeaveOrder.
Import Raft Membership.

(** [c1] is called, and [c2] is called at some later point. *)
Fixpoint precedes (c1 c2 : Call) (calls : list Call) : bool :=
  match calls with
  | [] => false
  | c :: calls =>
      (bool_decide (c = c1) && bool_decide (c2 ∈ calls)) || precedes c1 c2 calls
  end.

(** A leader whose configuration holds [node-a]; every call succeeds. *)
Definition leavingServer : Membership.Server :=
  {| insecure := false; IsLeader := true;
     Configuration :=
       Some [{| Suffrage := Voter; ServerID := "leader"; ServerAddress := "10.0.0.1:9443" |};
             {| Suffrage := Nonvoter; ServerID := "node-a"; ServerAddress := "10.0.0.2:9443" |}];
     RemoveServerErr := None; DeleteErr := None |}.

Definition callerIs (id : string) : Context :=
  {| ProxiedFor := None; AuthenticatedCaller := Some id |}.

(** C9, as the code has it. For a leave request that passes the checks
    (an id, on the leader, from the node itself): if the node is in the
    raft configuration the server is removed from it, then the node
    record is deleted, and the barrier, being deferred, is awaited last
    (when removing the server fails, the barrier is all that follows);
    if the node is not in the configuration only the node record is
    deleted. *)
Theorem Leave_call_order s ctx id servers :
  id <> "" ->
  IsLeader s = true ->
  authorized s ctx id = true ->
  Configuration s = Some servers ->
  (Leave s ctx id).1 =
    if existsb (fun srv => String.eqb (ServerID srv) id) servers then
      match RemoveServerErr s with
      | None => [Lock; RemoveServer id; PeersDelete id; Barrier 15; Unlock]
      | Some _ => [Lock; RemoveServer id; Barrier 15; Unlock]
      end
    else [Lock; PeersDelete id; Unlock].
Proof.
  intros Hid Hleader Hauth Hcfg. unfold Leave.
  apply String.eqb_neq in Hid. rewrite Hid, Hleader, Hauth, Hcfg. simpl.
  destruct (existsb _ servers); simpl.
  - destruct (RemoveServerErr s); [done|]. by destruct (DeleteErr s).
  - by destruct (DeleteErr s).
Qed.

Lemma Leave_call_order_witness :
  (Leave leavingServer (callerIs "node-a") "node-a").1
    = [Lock; RemoveServer "node-a"; PeersDelete "node-a"; Barrier 15; Unlock] /\
  (Leave leavingServer (callerIs "node-b") "node-b").1
    = [Lock; PeersDelete "node-b"; Unlock].
Proof.
  split.
  - apply (Leave_call_order leavingServer (callerIs "node-a") "node-a"
             (default [] (Configuration leavingServer))); [discriminate|reflexivity..].
  - apply (Leave_call_order leavingServer (callerIs "node-b") "node-b"
             (default [] (Configuration leavingServer))); [discriminate|reflexivity..].
Defined.

(** C9, as stated, fails: the node record is deleted before the barrier
    is awaited, not after. *)
Lemma Leave_deletes_before_barrier :
  (Leave leavingServer (callerIs "node-a") "node-a").1
    = [Lock; RemoveServer "node-a"; PeersDelete "node-a"; Barrier 15; Unlock] /\
  precedes (PeersDelete "node-a") (Barrier 15)
    (Leave leavingServer (callerIs "node-a") "node-a").1 = true /\
  precedes (Barrier 15) (PeersDelete "node-a")
    (Leave leavingServer (callerIs "node-a") "node-a").1 = false.
Proof. vm_compute. repeat split. Qed.

End LeaveOrder.

(* ================================================================== *)
(** * Part III: further properties of the code                         *)
(* ================================================================== *)

(** ** Go's [strings] functions *)

Section StringFacts.
Import GoStrings.

(** The string holds no ["*"]. *)
Definition starFree (s : string) : Prop := Contains s "*" = false.

(** The last byte of the string is ["*"]. *)
Fixpoint endsWithStar (s : string) : bool :=
  match s with
  | EmptyString => false
  | String c EmptyString => bool_decide (c = "*"%char)
  | String _ s' => endsWithStar s'
  end.

Lemma append_cons c s t : String c s +:+ t = String c (s +:+ t).
Proof. reflexivity. Qed.

Lemma append_nil s : "" +:+ s = s.
Proof. reflexivity. Qed.

Lemma length_app s1 s2 :
  String.length (s1 +:+ s2) = (String.length s1 + String.length s2)%nat.
Proof. induction s1 as [|c s1 IH]; simpl; [done|]. by rewrite IH. Qed.

Lemma prefix_app p s : String.prefix p (p +:+ s) = true.
Proof.
  induction p as [|c p IH]; simpl; [by destruct s|].
  by destruct (ascii_dec c c).
Qed.

Lemma prefix_inv p s : String.prefix p s = true -> exists r, s = p +:+ r.
Proof.
  revert s. induction p as [|c p IH]; intros s; simpl.
  - intros _. by exists s.
  - destruct s as [|d s]; [done|]. simpl.
    destruct (ascii_dec c d) as [->|]; [|done].
    intros [r ->]%IH. by exists r.
Qed.

Lemma substring_all s : String.substring 0 (String.length s) s = s.
Proof. induction s as [|d s IHs]; simpl; [done|]. by rewrite IHs. Qed.

Lemma substring_app_r p s :
  String.substring (String.length p) (String.length s) (p +:+ s) = s.
Proof. induction p as [|c p IH]; simpl; [apply substring_all|done]. Qed.

Lemma substring_app_l p s :
  String.substring 0 (String.length p) (p +:+ s) = p.
Proof.
  induction p as [|c p IH]; simpl; [by destruct s|]. by rewrite IH.
Qed.

Lemma substring_split s k :
  (k <= String.length s)%nat ->
  s = String.substring 0 k s +:+ String.substring k (String.length s - k) s.
Proof.
  revert k. induction s as [|c s IH]; intros [|k] Hk; simpl in *; try lia.
  - done.
  - by rewrite substring_all.
  - rewrite append_cons. f_equal. apply IH. lia.
Qed.

Lemma HasPrefix_spec s p : HasPrefix s p = true <-> exists r, s = p +:+ r.
Proof.
  unfold HasPrefix. split; [apply prefix_inv|]. intros [r ->]. apply prefix_app.
Qed.

Lemma HasSuffix_spec s q : HasSuffix s q = true <-> exists r, s = r +:+ q.
Proof.
  unfold HasSuffix. rewrite andb_true_iff, Nat.leb_le, String.eqb_eq. split.
  - intros [Hle Hsub].
    exists (String.substring 0 (String.length s - String.length q) s).
    pose proof (substring_split s (String.length s - String.length q)) as Hs.
    replace (String.length s - (String.length s - String.length q))%nat
      with (String.length q) in Hs by lia.
    rewrite Hsub in Hs. apply Hs. lia.
  - intros [r ->]. rewrite length_app. split; [lia|].
    replace (String.length r + String.length q - String.length q)%nat
      with (String.length r) by lia.
    apply substring_app_r.
Qed.

Lemma TrimPrefix_app p s : TrimPrefix (p +:+ s) p = s.
Proof.
  unfold TrimPrefix, HasPrefix. rewrite prefix_app, length_app.
  replace (String.length p + String.length s - String.length p)%nat
    with (String.length s) by lia.
  apply substring_app_r.
Qed.

Lemma TrimSuffix_app s q : TrimSuffix (s +:+ q) q = s.
Proof.
  unfold TrimSuffix.
  assert (HasSuffix (s +:+ q) q = true) as -> by (apply HasSuffix_spec; by exists s).
  rewrite length_app.
  replace (String.length s + String.length q - String.length q)%nat
    with (String.length s) by lia.
  apply substring_app_l.
Qed.

Lemma Contains_char_cons a c s :
  Contains (String c s) (String a "") =
  bool_decide (c = a) || Contains s (String a "").
Proof.
  unfold Contains. simpl.
  destruct (ascii_dec a c) as [<-|Hne].
  - rewrite bool_decide_eq_true_2 by done. by destruct s.
  - rewrite bool_decide_eq_false_2 by congruence. simpl.
    by destruct (String.index 0 (String a "") s).
Qed.

Lemma Contains_star_cons c s :
  Contains (String c s) "*" = bool_decide (c = "*"%char) || Contains s "*".
Proof. apply Contains_char_cons. Qed.

Lemma starFree_cons c s : starFree (String c s) <-> c <> "*"%char /\ starFree s.
Proof.
  unfold starFree. rewrite Contains_star_cons, orb_false_iff, bool_decide_eq_false.
  done.
Qed.

Lemma starFree_nil : starFree "".
Proof. done. Qed.

Lemma Contains_star_app p q : Contains (p +:+ String "*" q) "*" = true.
Proof.
  induction p as [|c p IH].
  - rewrite append_nil, Contains_star_cons. done.
  - rewrite append_cons, Contains_star_cons, IH. apply orb_true_r.
Qed.

Lemma Split_starFree s : starFree s -> Split s "*" = [s].
Proof.
  induction s as [|c s IH]; simpl; [done|].
  intros [Hc Hs]%starFree_cons.
  apply Ascii.eqb_neq in Hc. by rewrite Hc, IH.
Qed.

Lemma Split_app p q :
  starFree p -> Split (p +:+ String "*" q) "*" = p :: Split q "*".
Proof.
  induction p as [|c p IH]; simpl; [done|].
  intros [Hc Hp]%starFree_cons.
  apply Ascii.eqb_neq in Hc. by rewrite Hc, IH.
Qed.

Lemma HasPrefix_char_cons a c s :
  HasPrefix (String c s) (String a "") = bool_decide (c = a).
Proof.
  unfold HasPrefix. simpl. destruct (ascii_dec a c) as [<-|Hne].
  - rewrite bool_decide_eq_true_2 by done. by destruct s.
  - by rewrite bool_decide_eq_false_2 by congruence.
Qed.

Lemma HasPrefix_star_cons c s :
  HasPrefix (String c s) "*" = bool_decide (c = "*"%char).
Proof. apply HasPrefix_char_cons. Qed.

Lemma endsWithStar_cons c d s :
  endsWithStar (String c (String d s)) = endsWithStar (String d s).
Proof. reflexivity. Qed.

Lemma endsWithStar_snoc r : endsWithStar (r +:+ "*") = true.
Proof.
  induction r as [|c r IH]; [done|]. rewrite append_cons.
  destruct r as [|d r]; [done|].
  rewrite append_cons in *. by rewrite endsWithStar_cons.
Qed.

Lemma endsWithStar_inv s : endsWithStar s = true -> exists r, s = r +:+ "*".
Proof.
  induction s as [|c s IH]; [done|].
  destruct s as [|d s].
  - simpl. intros ->%bool_decide_eq_true. by exists "".
  - rewrite endsWithStar_cons. intros [r Hr]%IH. exists (String c r).
    by rewrite append_cons, <- Hr.
Qed.

Lemma HasSuffix_star s : HasSuffix s "*" = endsWithStar s.
Proof.
  apply eq_true_iff_eq. rewrite HasSuffix_spec. split.
  - intros [r ->]. apply endsWithStar_snoc.
  - apply endsWithStar_inv.
Qed.

Lemma endsWithStar_app p q : q <> "" -> endsWithStar (p +:+ q) = endsWithStar q.
Proof.
  intros Hq. induction p as [|c p IH]; [done|]. rewrite append_cons.
  destruct (p +:+ q) as [|d t] eqn:E.
  - destruct p, q; simplify_eq/=.
  - by rewrite endsWithStar_cons.
Qed.

Lemma endsWithStar_Contains s : endsWithStar s = true -> Contains s "*" = true.
Proof.
  intros [r ->]%endsWithStar_inv. apply (Contains_star_app r "").
Qed.

End StringFacts.

(** ** [eval.go]: wildcards, group expansion, failed lookups *)

Section Wildcards.
Import GoStrings v1 Networking.

Lemma containsOrWildcardMatch_elem ss s :
  containsOrWildcardMatch ss s = true <->
  exists v, v ∈ ss /\ containsOrWildcardMatch [v] s = true.
Proof.
  unfold containsOrWildcardMatch. rewrite existsb_exists. split.
  - intros (v & Hin & Hv). exists v. rewrite list_elem_of_In. split; [done|].
    simpl. by rewrite Hv.
  - intros (v & Hin & Hv). exists v. rewrite <- list_elem_of_In. split; [done|].
    simpl in Hv. by rewrite orb_false_r in Hv.
Qed.

Lemma wildcard_singleton v s :
  containsOrWildcardMatch [v] s =
    if String.eqb v "*" then true
    else if Contains v "*" then
      if HasPrefix v "*" then HasSuffix s (TrimPrefix v "*")
      else if HasSuffix v "*" then HasPrefix s (TrimSuffix v "*")
      else HasPrefix s (nth 0 (Split v "*"%char) "")
           && HasSuffix s (nth 1 (Split v "*"%char) "")
    else String.eqb v s.
Proof.
  unfold containsOrWildcardMatch. cbn [existsb]. by rewrite orb_false_r.
Qed.

Lemma starFree_not_star v : starFree v -> String.eqb v "*" = false.
Proof. intros Hv. apply String.eqb_neq. by intros ->. Qed.

Lemma wildcard_literal v s :
  starFree v -> containsOrWildcardMatch [v] s = true <-> v = s.
Proof.
  intros Hv. rewrite wildcard_singleton.
  rewrite starFree_not_star, Hv by done. apply String.eqb_eq.
Qed.

Lemma wildcard_suffix q s :
  q <> "" ->
  containsOrWildcardMatch ["*" +:+ q] s = true <-> exists r, s = r +:+ q.
Proof.
  intros Hq. rewrite wildcard_singleton.
  rewrite (TrimPrefix_app "*" q).
  change ("*" +:+ q) with (String "*" q).
  assert (String.eqb (String "*" q) "*" = false) as ->.
  { apply String.eqb_neq. by intros [= ->]. }
  assert (Contains (String "*" q) "*" = true) as ->
    by apply (Contains_star_app "" q).
  rewrite HasPrefix_star_cons, bool_decide_eq_true_2 by done.
  apply HasSuffix_spec.
Qed.

Lemma starFree_head c p : starFree (String c p) -> c <> "*"%char.
Proof. by intros [? _]%starFree_cons. Qed.

Lemma wildcard_prefix p s :
  starFree p -> p <> "" ->
  containsOrWildcardMatch [p +:+ "*"] s = true <-> exists r, s = p +:+ r.
Proof.
  intros Hp Hne. rewrite wildcard_singleton.
  destruct p as [|c p]; [done|].
  assert (String.eqb (String c p +:+ "*") "*" = false) as ->.
  { apply String.eqb_neq. rewrite append_cons. intros [= -> _].
    by apply starFree_head in Hp. }
  assert (Contains (String c p +:+ "*") "*" = true) as ->
    by apply (Contains_star_app _ "").
  rewrite HasSuffix_star, endsWithStar_snoc, TrimSuffix_app.
  rewrite append_cons, HasPrefix_star_cons.
  rewrite bool_decide_eq_false_2 by by apply starFree_head in Hp.
  apply HasPrefix_spec.
Qed.

Lemma wildcard_infix p q s :
  starFree p -> starFree q -> p <> "" -> q <> "" ->
  containsOrWildcardMatch [p +:+ "*" +:+ q] s = true <->
  (exists r, s = p +:+ r) /\ (exists r, s = r +:+ q).
Proof.
  intros Hp Hq Hpne Hqne. rewrite wildcard_singleton.
  destruct p as [|c p]; [done|].
  assert (String.eqb (String c p +:+ "*" +:+ q) "*" = false) as ->.
  { apply String.eqb_neq. rewrite append_cons. intros [= -> _].
    by apply starFree_head in Hp. }
  change ("*" +:+ q) with (String "*" q).
  rewrite Contains_star_app.
  rewrite HasSuffix_star, endsWithStar_app by done.
  assert (endsWithStar (String "*" q) = false) as ->.
  { destruct q as [|d q]; [done|]. rewrite endsWithStar_cons.
    destruct (endsWithStar (String d q)) eqn:E; [|done].
    apply endsWithStar_Contains in E. congruence. }
  rewrite Split_app, Split_starFree by done. cbn [nth].
  rewrite append_cons, HasPrefix_star_cons.
  rewrite bool_decide_eq_false_2 by by apply starFree_head in Hp.
  rewrite andb_true_iff, HasPrefix_spec, HasSuffix_spec. done.
Qed.

(** X1. What the entries of an ACL list match. A list matches iff one of
    its entries does. The entry ["*"] matches everything; an entry without
    ["*"] matches itself only; ["*q"] matches the strings that end in [q],
    ["p*"] those that start with [p], and ["p*q"] those that both start
    with [p] and end in [q] (the two may overlap). *)
Theorem containsOrWildcardMatch_patterns (p q s : string) :
  starFree p -> starFree q -> p <> "" -> q <> "" ->
  (forall ss, containsOrWildcardMatch ss s = true <->
     exists v, v ∈ ss /\ containsOrWildcardMatch [v] s = true) /\
  containsOrWildcardMatch ["*"] s = true /\
  (containsOrWildcardMatch [p] s = true <-> s = p) /\
  (containsOrWildcardMatch ["*" +:+ q] s = true <-> exists r, s = r +:+ q) /\
  (containsOrWildcardMatch [p +:+ "*"] s = true <-> exists r, s = p +:+ r) /\
  (containsOrWildcardMatch [p +:+ "*" +:+ q] s = true <->
     (exists r, s = p +:+ r) /\ (exists r, s = r +:+ q)).
Proof.
  intros Hp Hq Hpne Hqne. split_and!.
  - intros ss. apply containsOrWildcardMatch_elem.
  - done.
  - rewrite wildcard_literal by done. split; congruence.
  - by apply wildcard_suffix.
  - by apply wildcard_prefix.
  - by apply wildcard_infix.
Qed.

Lemma containsOrWildcardMatch_patterns_witness :
  containsOrWildcardMatch ["node-*-east"] "node-7-east" = true.
Proof.
  apply (containsOrWildcardMatch_patterns "node-" "-east" "node-7-east");
    [reflexivity | reflexivity | discriminate | discriminate |].
  split; [by exists "7-east" | by exists "node-7"].
Defined.

End Wildcards.

Section GroupReferences.
Import GoStrings v1 Networking.

(** An entry that is not a group reference. *)
Definition plainEntry (n : string) : Prop := HasPrefix n "group:" = false.

(** The members [Matches] collects for a group: the names of its node
    and all subjects, in order. *)
Definition membersOf (g : Group) : list string :=
  SubjectName <$> List.filter nodeSubject (Subjects g).

(** The subject loop of [Matches], filling [groups[groupName]]. *)
Definition collectSubjects (groupName : string) (subjects : list Subject)
  (groups : GroupMap) : GroupMap :=
  fold_left (fun gs subject =>
     if bool_decide (SubjectKind subject = SUBJECT_ALL)
        || bool_decide (SubjectKind subject = SUBJECT_NODE)
     then groupsAppend gs groupName (SubjectName subject)
     else gs) subjects groups.

(** No entry reads [group:group:...]. *)
Definition noNestedRef (n : string) : Prop := HasPrefix n "group:group:" = false.

(** The list holds a reference whose lookup fails with an error other
    than [ErrGroupNotFound]. *)
Definition failingRef (st : Storage) (nodes : list string) : Prop :=
  Forall noNestedRef nodes /\
  exists n, n ∈ nodes /\ HasPrefix n "group:" = true /\
            st (TrimPrefix n "group:") = GetGroupError.

Lemma collectSubjects_head g subjects acc rest :
  collectSubjects g subjects ((g, acc) :: rest)
  = (g, acc ++ (SubjectName <$> List.filter nodeSubject subjects)) :: rest.
Proof.
  unfold collectSubjects. revert acc.
  induction subjects as [|x l IH]; intros acc; simpl.
  - by rewrite app_nil_r.
  - unfold nodeSubject at 1.
    destruct (bool_decide _ || bool_decide _); simpl.
    + rewrite String.eqb_refl, IH, <- app_assoc. done.
    + apply IH.
Qed.

Lemma collectSubjects_nil g subjects :
  collectSubjects g subjects []
  = match SubjectName <$> List.filter nodeSubject subjects with
    | [] => []
    | members => [(g, members)]
    end.
Proof.
  induction subjects as [|x l IH]; [done|].
  unfold collectSubjects in *. simpl. unfold nodeSubject at 1.
  destruct (bool_decide _ || bool_decide _); simpl; [|apply IH].
  apply (collectSubjects_head g l [SubjectName x] []).
Qed.

Lemma collectGroups_cons st node rest groups :
  collectGroups st (node :: rest) groups =
    if HasPrefix node "group:" then
      if groupsHas groups node then collectGroups st rest groups
      else
        match st (TrimPrefix node "group:") with
        | GetGroupError => None
        | ErrGroupNotFound => collectGroups st rest groups
        | GroupFound group =>
            collectGroups st rest
              (collectSubjects (TrimPrefix node "group:") (Subjects group) groups)
        end
    else collectGroups st rest groups.
Proof. reflexivity. Qed.

Lemma collectGroups_plain st l gs :
  Forall plainEntry l -> collectGroups st l gs = Some gs.
Proof.
  induction 1 as [|n l Hn _ IH]; [done|]. by rewrite collectGroups_cons, Hn.
Qed.

Lemma collectGroups_single st pre g post grp :
  Forall plainEntry (pre ++ post) -> st g = GroupFound grp ->
  collectGroups st (pre ++ ("group:" +:+ g) :: post) []
  = Some (collectSubjects g (Subjects grp) []).
Proof.
  intros [Hpre Hpost]%Forall_app Hg.
  induction Hpre as [|n l Hn _ IH].
  - rewrite app_nil_l, collectGroups_cons.
    assert (HasPrefix ("group:" +:+ g) "group:" = true) as ->
      by apply prefix_app.
    cbn [groupsHas existsb]. rewrite (TrimPrefix_app "group:" g), Hg.
    by apply collectGroups_plain.
  - rewrite <- app_comm_cons, collectGroups_cons. by rewrite Hn.
Qed.

Lemma find_elem (x : string) l :
  x ∈ l -> List.find (fun n => String.eqb n x) l = Some x.
Proof.
  induction 1 as [x l|x y l _ IH]; simpl.
  - by rewrite String.eqb_refl.
  - destruct (String.eqb y x) eqn:E; [|done]. by apply String.eqb_eq in E as ->.
Qed.

Lemma replace_absent l obj w : obj ∉ l -> replace l obj w = l.
Proof.
  induction l as [|v l IH]; simpl; [done|].
  intros [Hv Hl]%not_elem_of_cons.
  assert (String.eqb v obj = false) as -> by by apply String.eqb_neq.
  by rewrite IH.
Qed.

Lemma replace_app l1 l2 obj w :
  replace (l1 ++ l2) obj w = replace l1 obj w ++ replace l2 obj w.
Proof.
  induction l1 as [|v l IH]; simpl; [done|].
  destruct (String.eqb v obj); rewrite IH; by rewrite <- ?app_assoc.
Qed.

Lemma replace_elem l obj w x :
  x ∈ replace l obj w <-> (x ∈ l /\ x <> obj) \/ (obj ∈ l /\ x ∈ w).
Proof.
  induction l as [|v l IH]; simpl.
  - rewrite !elem_of_nil. tauto.
  - destruct (String.eqb v obj) eqn:E.
    + apply String.eqb_eq in E as ->.
      rewrite elem_of_app, IH, !elem_of_cons. naive_solver.
    + apply String.eqb_neq in E.
      rewrite !elem_of_cons, IH. naive_solver.
Qed.

Lemma plain_no_ref pre g : Forall plainEntry pre -> ("group:" +:+ g) ∉ pre.
Proof.
  intros Hpre Hin. rewrite Forall_forall in Hpre. apply Hpre in Hin.
  unfold plainEntry, HasPrefix in Hin. by rewrite prefix_app in Hin.
Qed.

Lemma expandGroups_single rt st pre g post grp :
  Forall plainEntry (pre ++ post) -> st g = GroupFound grp ->
  expandGroups rt st (pre ++ ("group:" +:+ g) :: post)
  = Some (match membersOf grp with
          | [] => pre ++ ("group:" +:+ g) :: post
          | members => pre ++ members ++ post
          end).
Proof.
  intros Hplain Hg. unfold expandGroups.
  rewrite (collectGroups_single st pre g post grp), collectSubjects_nil by done.
  fold (membersOf grp). apply Forall_app in Hplain as [Hpre Hpost].
  destruct (membersOf grp) as [|m ms] eqn:Hm.
  - pose proof (rangeGroups_perm rt []) as Hp.
    apply Permutation_nil_r in Hp. by rewrite Hp.
  - pose proof (rangeGroups_perm rt [(g, m :: ms)]) as Hp.
    apply Permutation_singleton_r in Hp. rewrite Hp. cbn [fold_left fst snd].
    unfold replaceGroup. rewrite find_elem by set_solver.
    rewrite replace_app. cbn [replace]. rewrite String.eqb_refl.
    rewrite !replace_absent by by apply plain_no_ref.
    by rewrite <- ?app_assoc.
Qed.

Lemma Matches_SourceNodes rt a action :
  SourceNodes (acl (Matches rt a action).2)
  = SourceNodes (acl (checkSrcNode rt action a).2).
Proof.
  rewrite Matches_snd. case_match; [|done].
  unfold afterNodes. apply checkDstNode_frame.
Qed.

(** X2. How [Matches] expands a group reference. When the source nodes
    of the ACL hold one reference [group:g] among entries that are no
    references, and the group is stored, evaluating an action with a
    source node replaces the reference, in place, by the names of the
    group's node and all subjects, and the ACL matches only if the source
    node matches the rewritten list. A group without such subjects leaves
    the list, reference included, as it was. *)
Theorem Matches_expands_group rt a action pre g post grp :
  SrcNode action <> "" ->
  SourceNodes (acl a) = pre ++ ("group:" +:+ g) :: post ->
  Forall plainEntry (pre ++ post) ->
  storage a g = GroupFound grp ->
  let expanded := match membersOf grp with
                  | [] => pre ++ ("group:" +:+ g) :: post
                  | members => pre ++ members ++ post
                  end in
  SourceNodes (acl (Matches rt a action).2) = expanded /\
  ((Matches rt a action).1 = true ->
   containsOrWildcardMatch expanded (SrcNode action) = true).
Proof.
  intros Hsrc Hnodes Hplain Hg expanded.
  rewrite Matches_SourceNodes, Matches_fst.
  unfold checkSrcNode. apply String.eqb_neq in Hsrc. rewrite Hsrc. cbn [negb].
  rewrite lenGeZero_true, Hnodes, (expandGroups_single rt _ pre g post grp) by done.
  fold expanded. cbn. split; [done|]. by intros [? _]%andb_true_iff.
Qed.

Lemma Matches_expands_group_witness :
  let a := {| acl := {| Name := "ops"; Priority := 0; Action := ACTION_ACCEPT;
                        SourceNodes := ["gw-*"; "group:voters"; "db"];
                        DestinationNodes := ["*"];
                        SourceCidrs := []; DestinationCidrs := [];
                        Protocols := []; Ports := [] |};
              storage := votersStorage |} in
  let action := {| SrcNode := "node-a"; SrcCidr := ""; DstNode := "db";
                   DstCidr := ""; Protocol := ""; Port := 0 |} in
  SourceNodes (acl (Matches insertionOrderRuntime a action).2)
    = ["gw-*"; "node-a"; "db"] /\
  ((Matches insertionOrderRuntime a action).1 = true ->
   containsOrWildcardMatch ["gw-*"; "node-a"; "db"] "node-a" = true).
Proof.
  intros a action.
  apply (Matches_expands_group insertionOrderRuntime a action ["gw-*"] "voters" ["db"]
           {| GroupName := "voters";
              Subjects := [{| SubjectName := "node-a"; SubjectKind := SUBJECT_NODE |}] |});
    [discriminate | reflexivity | | reflexivity].
  repeat constructor.
Defined.

Lemma groupsAppend_keys gs k v :
  Forall (fun kv : string * list string => plainEntry kv.1) gs -> plainEntry k ->
  Forall (fun kv : string * list string => plainEntry kv.1) (groupsAppend gs k v).
Proof.
  intros Hgs Hk. induction Hgs as [|[k' vs] gs Hk' Hgs IH]; simpl.
  - by repeat constructor.
  - destruct (String.eqb k' k); constructor; first [exact Hk' | done].
Qed.

Lemma collectSubjects_keys g subjects gs :
  Forall (fun kv : string * list string => plainEntry kv.1) gs -> plainEntry g ->
  Forall (fun kv : string * list string => plainEntry kv.1) (collectSubjects g subjects gs).
Proof.
  intros Hgs Hg. unfold collectSubjects. revert gs Hgs.
  induction subjects as [|x l IH]; intros gs Hgs; simpl; [done|].
  apply IH. destruct (bool_decide _ || bool_decide _); [|done].
  by apply groupsAppend_keys.
Qed.

Lemma groupsHas_ref gs n :
  Forall (fun kv : string * list string => plainEntry kv.1) gs ->
  HasPrefix n "group:" = true -> groupsHas gs n = false.
Proof.
  intros Hgs Hn. unfold groupsHas.
  induction Hgs as [|[k vs] gs Hk _ IH]; simpl; [done|].
  rewrite IH, orb_false_r. apply String.eqb_neq. intros ->.
  unfold plainEntry in Hk. simpl in Hk. congruence.
Qed.

Lemma TrimPrefix_plain n :
  HasPrefix n "group:" = true -> noNestedRef n ->
  plainEntry (TrimPrefix n "group:").
Proof.
  intros [r ->]%HasPrefix_spec Hnest. rewrite (TrimPrefix_app "group:" r).
  unfold plainEntry. destruct (HasPrefix r "group:") eqn:E; [|done].
  apply HasPrefix_spec in E as [r' ->].
  unfold noNestedRef in Hnest.
  assert (HasPrefix ("group:" +:+ "group:" +:+ r') "group:group:" = true)
    by (apply HasPrefix_spec; by exists r').
  congruence.
Qed.

Lemma collectGroups_error st nodes gs :
  failingRef st nodes ->
  Forall (fun kv : string * list string => plainEntry kv.1) gs ->
  collectGroups st nodes gs = None.
Proof.
  intros (Hnest & n & Hin & Hn & Herr). revert gs.
  induction nodes as [|x l IH]; intros gs Hgs; [by apply elem_of_nil in Hin|].
  apply Forall_cons in Hnest as [Hx Hl]. rewrite collectGroups_cons.
  destruct (HasPrefix x "group:") eqn:Ex.
  - rewrite groupsHas_ref by done.
    destruct (st (TrimPrefix x "group:")) as [grp| |] eqn:Est; [| |done].
    + apply elem_of_cons in Hin as [->|Hin]; [congruence|].
      apply IH; [done..|].
      apply (collectSubjects_keys _ (Subjects grp)); [done|].
      by apply TrimPrefix_plain.
    + apply elem_of_cons in Hin as [->|Hin]; [congruence|]. by apply IH.
  - apply elem_of_cons in Hin as [->|Hin]; [congruence|]. by apply IH.
Qed.

Lemma expandGroups_error rt st nodes :
  failingRef st nodes -> expandGroups rt st nodes = None.
Proof.
  intros H. unfold expandGroups. by rewrite collectGroups_error.
Qed.

(** X3. [Matches] fails closed on a storage error. If the action names a
    source (destination) node and the source (destination) nodes of the
    ACL hold a group reference whose lookup fails with an error other
    than not-found, the ACL does not match, whatever else the list holds,
    a ["*"] included; a failure on the source side leaves the ACL as it
    was. *)
Theorem Matches_lookup_error rt a action :
  (SrcNode action <> "" /\ failingRef (storage a) (SourceNodes (acl a))) \/
  (DstNode action <> "" /\ failingRef (storage a) (DestinationNodes (acl a))) ->
  (Matches rt a action).1 = false /\
  (SrcNode action <> "" /\ failingRef (storage a) (SourceNodes (acl a)) ->
   (Matches rt a action).2 = a).
Proof.
  intros H. split.
  - rewrite Matches_fst. destruct H as [[Hne Hf]|[Hne Hf]].
    + unfold checkSrcNode at 1. apply String.eqb_neq in Hne. rewrite Hne. cbn [negb].
      by rewrite lenGeZero_true, expandGroups_error.
    + apply andb_false_intro2, andb_false_intro1.
      destruct (checkSrcNode_frame rt action a) as [(Hst & _) Hdst].
      unfold checkDstNode. apply String.eqb_neq in Hne. rewrite Hne. cbn [negb].
      rewrite lenGeZero_true, Hdst, Hst. by rewrite expandGroups_error.
  - intros [Hne Hf]. rewrite Matches_snd.
    unfold checkSrcNode. apply String.eqb_neq in Hne. rewrite Hne. cbn [negb].
    by rewrite lenGeZero_true, expandGroups_error.
Qed.

Lemma Matches_lookup_error_witness :
  let a := {| acl := {| Name := "any"; Priority := 0; Action := ACTION_ACCEPT;
                        SourceNodes := ["*"; "group:ops"];
                        DestinationNodes := ["*"];
                        SourceCidrs := []; DestinationCidrs := [];
                        Protocols := []; Ports := [] |};
              storage := fun _ => GetGroupError |} in
  let action := {| SrcNode := "node-a"; SrcCidr := ""; DstNode := "node-b";
                   DstCidr := ""; Protocol := ""; Port := 0 |} in
  (Matches insertionOrderRuntime a action).1 = false /\
  (SrcNode action <> "" /\ failingRef (storage a) (SourceNodes (acl a)) ->
   (Matches insertionOrderRuntime a action).2 = a).
Proof.
  intros a action. apply (Matches_lookup_error insertionOrderRuntime a action).
  left. split; [discriminate|]. split; [by repeat constructor|].
  exists "group:ops". split; [|by split].
  apply list_elem_of_further, list_elem_of_here.
Defined.

(** X4. [replace] substitutes every occurrence of [obj]: the result holds
    the entries of [in] other than [obj] and, when [obj] occurs, those of
    [with]; it is [in] itself when [obj] does not occur, and it is the
    concatenation of the pieces when the list is cut in two. *)
Theorem replace_spec (in_ : list string) (obj : string) (with_ : list string) :
  (forall x, x ∈ replace in_ obj with_ <->
     (x ∈ in_ /\ x <> obj) \/ (obj ∈ in_ /\ x ∈ with_)) /\
  (obj ∉ in_ -> replace in_ obj with_ = in_) /\
  (forall l1 l2, in_ = l1 ++ l2 ->
     replace in_ obj with_ = replace l1 obj with_ ++ replace l2 obj with_).
Proof.
  split_and!.
  - intros x. apply replace_elem.
  - apply replace_absent.
  - intros l1 l2 ->. apply replace_app.
Qed.

(** X5. [Accept] changes no rule. The list it leaves has, entry by
    entry, the name, priority, action, CIDRs, protocols, ports and storage
    it had, so a list sorted by priority stays sorted over any number of
    evaluations. *)
Theorem Accept_keeps_rules rt (l : ACLs) action :
  Forall2 sameRules l (Accept rt l action).2 /\
  (fun a => Priority (acl a)) <$> (Accept rt l action).2
    = (fun a => Priority (acl a)) <$> l.
Proof.
  assert (Forall2 sameRules l (Accept rt l action).2) as HF.
  { induction l as [|x l IH]; simpl; [constructor|].
    destruct (Matches rt x action).1 eqn:E; simpl.
    - constructor; [apply Matches_frame|].
      apply Forall_Forall2_diag, Forall_forall. intros; apply sameRules_refl.
    - constructor; [apply Matches_frame|apply IH]. }
  split; [done|].
  induction HF as [|x y l l' Hxy _ IH]; [done|].
  rewrite !fmap_cons, IH. f_equal. apply Hxy.
Qed.

End GroupReferences.

(** ** Group expansion in general *)

Section GroupSemantics.
Import GoStrings v1 Networking.

(** A storage that answers every group lookup, in which no group name
    and no member name starts with [group:]. *)
Definition orderly (st : Storage) : Prop :=
  (forall g, st g <> GetGroupError) /\
  (forall g grp, st g = GroupFound grp ->
     plainEntry g /\ Forall plainEntry (membersOf grp)).

(** What a node list stands for: its entries that [Matches] does not
    expand, and the members of the groups it refers to. *)
Definition means (st : Storage) (nodes : list string) (x : string) : Prop :=
  (x ∈ nodes /\ expandable st x = false) \/
  (exists g grp,
     ("group:" +:+ g) ∈ nodes /\ st g = GroupFound grp /\ x ∈ membersOf grp).

(** [groups] after the subject loop ran for the group [g] with the
    members [ms]. *)
Fixpoint extend (gs : GroupMap) (g : string) (ms : list string) : GroupMap :=
  match gs with
  | [] => match ms with [] => [] | _ => [(g, ms)] end
  | (k, v) :: rest =>
      if String.eqb k g then (k, v ++ ms) :: rest
      else (k, v) :: extend rest g ms
  end.

(** The [groups] map while the first loop of a node block runs, the
    entries [seen] behind it. *)
Definition collected (st : Storage) (seen : list string) (gs : GroupMap) : Prop :=
  NoDup gs.*1 /\
  (forall g ms, (g, ms) ∈ gs ->
     ("group:" +:+ g) ∈ seen /\ ms <> [] /\
     exists grp, st g = GroupFound grp /\ forall x, x ∈ ms <-> x ∈ membersOf grp) /\
  (forall g grp, ("group:" +:+ g) ∈ seen -> st g = GroupFound grp ->
     membersOf grp <> [] -> g ∈ gs.*1).

Lemma ref_inj g g' : "group:" +:+ g = "group:" +:+ g' -> g = g'.
Proof. intros H. by injection H. Qed.

Lemma ref_not_plain g : ~ plainEntry ("group:" +:+ g).
Proof. unfold plainEntry, HasPrefix. by rewrite prefix_app. Qed.

Lemma expandable_ref st g :
  expandable st ("group:" +:+ g) =
    match st g with
    | GroupFound grp => existsb nodeSubject (Subjects grp)
    | _ => false
    end.
Proof.
  unfold expandable.
  assert (HasPrefix ("group:" +:+ g) "group:" = true) as -> by apply prefix_app.
  by rewrite (TrimPrefix_app "group:" g).
Qed.

Lemma expandable_inv st x :
  expandable st x = true -> exists g, x = "group:" +:+ g.
Proof. unfold expandable. intros [H _]%andb_true_iff. by apply HasPrefix_spec. Qed.

Lemma membersOf_nonempty grp :
  existsb nodeSubject (Subjects grp) = true <-> membersOf grp <> [].
Proof.
  unfold membersOf. induction (Subjects grp) as [|s l IH]; simpl; [done|].
  destruct (nodeSubject s); simpl; [done|]. apply IH.
Qed.

Lemma collectSubjects_skip g subjects k v rest :
  String.eqb k g = false ->
  collectSubjects g subjects ((k, v) :: rest) = (k, v) :: collectSubjects g subjects rest.
Proof.
  intros Hk. unfold collectSubjects. revert rest.
  induction subjects as [|s l IH]; intros rest; simpl; [done|].
  destruct (bool_decide _ || bool_decide _); simpl; [|apply IH].
  rewrite Hk. apply IH.
Qed.

Lemma collectSubjects_extend g subjects gs :
  collectSubjects g subjects gs
  = extend gs g (SubjectName <$> List.filter nodeSubject subjects).
Proof.
  induction gs as [|[k v] gs IH]; simpl.
  - rewrite collectSubjects_nil. by destruct (_ <$> _).
  - destruct (String.eqb k g) eqn:E.
    + apply String.eqb_eq in E as ->. apply collectSubjects_head.
    + by rewrite collectSubjects_skip, IH.
Qed.

Lemma extend_keys gs g ms k :
  k ∈ (extend gs g ms).*1 <-> k ∈ gs.*1 \/ (k = g /\ ms <> []).
Proof.
  induction gs as [|[k' v] gs IH]; simpl.
  - destruct ms; simpl; [set_solver|].
    rewrite list_elem_of_singleton. set_solver.
  - destruct (String.eqb k' g) eqn:E; simpl.
    + apply String.eqb_eq in E as ->. set_solver.
    + rewrite !elem_of_cons, IH. tauto.
Qed.

Lemma extend_NoDup gs g ms : NoDup gs.*1 -> NoDup (extend gs g ms).*1.
Proof.
  induction gs as [|[k v] gs IH]; simpl.
  - intros _. destruct ms; simpl; [constructor|]. apply NoDup_singleton.
  - intros [Hk Hgs]%NoDup_cons. destruct (String.eqb k g) eqn:E; simpl.
    + by apply NoDup_cons.
    + apply String.eqb_neq in E. apply NoDup_cons. split; [|by apply IH].
      rewrite extend_keys. naive_solver.
Qed.

Lemma extend_elem gs g ms k v :
  NoDup gs.*1 -> (k, v) ∈ extend gs g ms ->
  (k <> g /\ (k, v) ∈ gs) \/
  (k = g /\ ((exists old, (g, old) ∈ gs /\ v = old ++ ms) \/
             ((g ∉ gs.*1) /\ ms <> [] /\ v = ms))).
Proof.
  induction gs as [|[k' v'] gs IH]; simpl.
  - intros _. destruct ms as [|m ms]; [by intros ?%elem_of_nil|].
    intros [= -> ->]%list_elem_of_singleton. right. split; [done|]. right.
    split_and!; [apply not_elem_of_nil|done|done].
  - intros [Hk Hgs]%NoDup_cons. destruct (String.eqb k' g) eqn:E.
    + apply String.eqb_eq in E as ->.
      intros [[= -> ->]|Hin]%elem_of_cons.
      * right. split; [done|]. left. exists v'. split; [by left|done].
      * left. split; [|by right]. intros ->. apply Hk.
        apply list_elem_of_fmap. by exists (g, v).
    + apply String.eqb_neq in E.
      intros [[= -> ->]|Hin]%elem_of_cons.
      * left. split; [done|by left].
      * destruct (IH Hgs Hin) as [[Hne Hin']|[-> [(old & Hold & ->)|(Hno & Hms & ->)]]].
        -- left. split; [done|by right].
        -- right. split; [done|]. left. exists old. split; [by right|done].
        -- right. split; [done|]. right. split_and!; [|done|done].
           rewrite not_elem_of_cons. done.
Qed.

Lemma extend_keeps gs g ms k v :
  k <> g -> (k, v) ∈ gs -> (k, v) ∈ extend gs g ms.
Proof.
  intros Hne. induction gs as [|[k' v'] gs IH]; simpl; [by intros ?%elem_of_nil|].
  intros [[= <- <-]|Hin]%elem_of_cons.
  - apply String.eqb_neq in Hne. rewrite Hne. by left.
  - destruct (String.eqb k' g); right; [done|by apply IH].
Qed.

Lemma groupsHas_plain gs n :
  (forall g ms, (g, ms) ∈ gs -> plainEntry g) ->
  HasPrefix n "group:" = true -> groupsHas gs n = false.
Proof.
  intros Hgs Hn. apply groupsHas_ref; [|done].
  apply Forall_forall. intros [g ms] Hin. by eapply Hgs.
Qed.

Lemma collectGroups_collected st :
  orderly st ->
  forall rest seen gs,
    collected st seen gs ->
    exists gs', collectGroups st rest gs = Some gs' /\ collected st (seen ++ rest) gs'.
Proof.
  intros [Hrel Hplain].
  induction rest as [|n rest IH]; intros seen gs Hc.
  - exists gs. by rewrite app_nil_r.
  - rewrite collectGroups_cons.
    assert (forall gs1, collected st (seen ++ [n]) gs1 ->
            exists gs', collectGroups st rest gs1 = Some gs' /\
                        collected st (seen ++ n :: rest) gs') as Hnext.
    { intros gs1 H1. destruct (IH _ _ H1) as (gs' & Hgs' & Hc').
      exists gs'. by rewrite <- app_assoc in Hc'. }
    destruct Hc as (Hnd & Hin & Hcov).
    destruct (HasPrefix n "group:") eqn:Hn.
    + apply HasPrefix_spec in Hn as [g ->].
      rewrite groupsHas_plain; last first.
      { by apply prefix_app. }
      { intros g' ms' (_ & _ & grp & Hg & _)%Hin. by apply (Hplain g' grp). }
      rewrite (TrimPrefix_app "group:" g).
      destruct (st g) as [grp| |] eqn:Hg; [| |by destruct (Hrel g)].
      * apply Hnext. rewrite collectSubjects_extend. fold (membersOf grp).
        split_and!.
        -- by apply extend_NoDup.
        -- intros k v Hkv. apply extend_elem in Hkv; [|done].
           destruct Hkv as [[Hne Hkv]|[-> [(old & Hold & ->)|(Hno & Hms & ->)]]].
           ++ destruct (Hin _ _ Hkv) as (Hs & Hv & grp' & Hg' & Hm).
              split_and!; [set_solver|done|by exists grp'].
           ++ destruct (Hin _ _ Hold) as (Hs & Hv & grp' & Hg' & Hm).
              assert (grp' = grp) as -> by congruence.
              split_and!; [set_solver|by destruct old|].
              exists grp. split; [done|]. intros x. rewrite elem_of_app, Hm. tauto.
           ++ split_and!; [set_solver|done|]. by exists grp.
        -- intros g' grp' [Hs|Hs%list_elem_of_singleton]%elem_of_app Hg' Hm.
           ++ apply extend_keys. left. by eapply Hcov.
           ++ apply ref_inj in Hs as ->. assert (grp' = grp) as -> by congruence.
              apply extend_keys. by right.
      * apply Hnext. split_and!; [done| |].
        -- intros k v Hkv. destruct (Hin _ _ Hkv) as (Hs & Hrest).
           split; [set_solver|done].
        -- intros g' grp' [Hs|Hs%list_elem_of_singleton]%elem_of_app Hg' Hm.
           ++ by eapply Hcov.
           ++ apply ref_inj in Hs as ->. congruence.
    + apply Hnext. split_and!; [done| |].
      * intros k v Hkv. destruct (Hin _ _ Hkv) as (Hs & Hrest).
        split; [set_solver|done].
      * intros g' grp' [Hs|Hs%list_elem_of_singleton]%elem_of_app Hg' Hm.
        -- by eapply Hcov.
        -- subst n. pose proof (ref_not_plain g') as Hnp.
           unfold plainEntry in Hnp. congruence.
Qed.

Lemma find_absent (x : string) l :
  x ∉ l -> List.find (fun n => String.eqb n x) l = None.
Proof.
  induction l as [|y l IH]; simpl; [done|].
  intros [Hy Hl]%not_elem_of_cons.
  assert (String.eqb y x = false) as -> by (apply String.eqb_neq; congruence).
  by apply IH.
Qed.

Lemma replaceGroup_elem nodes g ms x :
  x ∈ replaceGroup nodes g ms <->
  (x ∈ nodes /\ x <> "group:" +:+ g) \/ (("group:" +:+ g) ∈ nodes /\ x ∈ ms).
Proof.
  unfold replaceGroup.
  destruct (decide (("group:" +:+ g) ∈ nodes)) as [Hin|Hno].
  - rewrite find_elem by done. apply replace_elem.
  - rewrite find_absent by done. split; [|naive_solver].
    intros Hx. left. split; [done|]. by intros ->.
Qed.

Lemma fold_replace_elem (gs : GroupMap) :
  NoDup gs.*1 ->
  (forall g ms, (g, ms) ∈ gs -> Forall plainEntry ms) ->
  forall nodes x,
    x ∈ fold_left (fun ns (gm : string * list string) => replaceGroup ns gm.1 gm.2)
          gs nodes <->
    (x ∈ nodes /\ forall g, g ∈ gs.*1 -> x <> "group:" +:+ g) \/
    (exists g ms, (g, ms) ∈ gs /\ ("group:" +:+ g) ∈ nodes /\ x ∈ ms).
Proof.
  induction gs as [|[g ms] gs IH]; intros Hnd Hplain nodes x.
  - simpl. split; [intros; left; split; [done|by intros ? ?%elem_of_nil]|].
    intros [[? _]|(? & ? & ?%elem_of_nil & _)]; done.
  - rewrite fmap_cons in Hnd. apply NoDup_cons in Hnd as [Hg Hnd].
    assert (Forall plainEntry ms) as Hms by (eapply Hplain; by left).
    assert (forall y, y ∈ ms -> forall g', y <> "group:" +:+ g') as Hmsref.
    { intros y Hy g' ->. rewrite Forall_forall in Hms.
      by apply (ref_not_plain g'), Hms. }
    assert (forall g', g' ∈ gs.*1 ->
              ("group:" +:+ g') ∈ replaceGroup nodes g ms <-> ("group:" +:+ g') ∈ nodes)
      as Hrefs.
    { intros g' Hg'. rewrite replaceGroup_elem. split.
      - intros [[? _]|[_ Hy]]; [done|]. by destruct (Hmsref _ Hy g').
      - intros Hin. left. split; [done|]. intros ->%ref_inj. done. }
    cbn [fold_left fst snd]. rewrite IH; [|done|intros; eapply Hplain; by right].
    rewrite replaceGroup_elem. split.
    + intros [[[[Hx Hne]|[Href Hx]] Hall]|(g' & ms' & Hin & Href & Hx)].
      * left. split; [done|]. intros g' [->|Hg']%elem_of_cons; [done|by apply Hall].
      * right. exists g, ms. split_and!; [by left|done|done].
      * right. exists g', ms'. split_and!; [by right| |done].
        apply Hrefs; [|done]. apply list_elem_of_fmap. by exists (g', ms').
    + intros [[Hx Hall]|(g' & ms' & [[= -> ->]|Hin]%elem_of_cons & Href & Hx)].
      * left. split.
        -- left. split; [done|]. apply Hall. by left.
        -- intros g' Hg'. apply Hall. by right.
      * left. split; [by right|]. intros g' _. by apply Hmsref.
      * right. exists g', ms'. split_and!; [done| |done].
        apply Hrefs; [|done]. apply list_elem_of_fmap. by exists (g', ms').
Qed.

(** What both loops of a node block leave: a list that holds exactly
    what the list stood for. *)
Lemma expandGroups_means rt st nodes :
  orderly st ->
  exists nodes',
    expandGroups rt st nodes = Some nodes' /\ forall x, x ∈ nodes' <-> means st nodes x.
Proof.
  intros Hst. pose proof Hst as [Hrel Hplain].
  destruct (collectGroups_collected st Hst nodes [] []) as (gs & Hgs & Hc).
  { split_and!; [constructor|by intros ?? ?%elem_of_nil|by intros ?? ?%elem_of_nil]. }
  rewrite app_nil_l in Hc. destruct Hc as (Hnd & Hin & Hcov).
  unfold expandGroups. rewrite Hgs. eexists. split; [done|].
  pose proof (rangeGroups_perm rt gs) as Hp.
  intros x. rewrite fold_replace_elem; last first.
  { intros g ms Hgm. rewrite Hp in Hgm.
    destruct (Hin _ _ Hgm) as (_ & _ & grp & Hg & Hm).
    destruct (Hplain _ _ Hg) as [_ Hpl]. rewrite Forall_forall in Hpl.
    apply Forall_forall. intros y Hy. by apply Hpl, Hm. }
  { by rewrite Hp. }
  unfold means. split.
  - intros [[Hx Hall]|(g & ms & Hgm & Href & Hx)].
    + left. split; [done|]. destruct (expandable st x) eqn:E; [|done].
      destruct (expandable_inv _ _ E) as [g ->]. rewrite expandable_ref in E.
      destruct (st g) as [grp| |] eqn:Hg; [|done|done].
      apply membersOf_nonempty in E. destruct (Hall g); [|done].
      rewrite Hp. by eapply Hcov.
    + rewrite Hp in Hgm. destruct (Hin _ _ Hgm) as (_ & _ & grp & Hg & Hm).
      right. exists g, grp. split_and!; [done..|]. by apply Hm.
  - intros [[Hx Hun]|(g & grp & Href & Hg & Hx)].
    + left. split; [done|]. intros g Hg ->. rewrite Hp in Hg.
      apply list_elem_of_fmap in Hg as ([g' ms] & -> & Hgm).
      destruct (Hin _ _ Hgm) as (_ & Hms & grp & Hgrp & Hm). simpl in *.
      rewrite expandable_ref, Hgrp in Hun.
      assert (membersOf grp <> []) as Hne.
      { destruct ms as [|m ms]; [done|]. intros Hnil.
        assert (m ∈ membersOf grp) as Hmem by (apply Hm; by left).
        rewrite Hnil in Hmem. by apply elem_of_nil in Hmem. }
      apply membersOf_nonempty in Hne. congruence.
    + assert (membersOf grp <> []) as Hne.
      { intros Hnil. rewrite Hnil in Hx. by apply elem_of_nil in Hx. }
      pose proof (Hcov g grp Href Hg Hne) as Hk.
      apply list_elem_of_fmap in Hk as ([g' ms] & Heq & Hgm). simpl in Heq. subst g'.
      destruct (Hin _ _ Hgm) as (_ & _ & grp' & Hg' & Hm).
      assert (grp' = grp) as -> by congruence.
      right. exists g, ms. split_and!; [by rewrite Hp|done|by apply Hm].
Qed.

End GroupSemantics.

Section StableVerdicts.
Import GoStrings v1 Networking.

(** Some entry the list stands for matches [s]. *)
Definition admits (st : Storage) (nodes : list string) (s : string) : Prop :=
  exists x, means st nodes x /\ containsOrWildcardMatch [x] s = true.

(** The ACL [a'] is [a] with node lists that stand for the same
    entries. *)
Definition standsFor (a a' : ACL) : Prop :=
  sameRules a a' /\
  (forall x, means (storage a) (SourceNodes (acl a')) x
             <-> means (storage a) (SourceNodes (acl a)) x) /\
  (forall x, means (storage a) (DestinationNodes (acl a')) x
             <-> means (storage a) (DestinationNodes (acl a)) x).

(** The lists after the actions [acts] were evaluated one after the
    other. *)
Definition afterEvaluating (rt : Runtime) (l : ACLs) (acts : list NetworkAction)
  : ACLs :=
  fold_left (fun l act => (Accept rt l act).2) acts l.

(** A storage with the groups [ops] (two nodes and a user) and [db]
    (one node), and an ACL that refers to both. *)
Definition teamStorage : Storage :=
  fun g =>
    if String.eqb g "ops" then
      GroupFound {| GroupName := "ops";
                    Subjects := [{| SubjectName := "op-1"; SubjectKind := SUBJECT_NODE |};
                                 {| SubjectName := "alice"; SubjectKind := SUBJECT_USER |};
                                 {| SubjectName := "op-2"; SubjectKind := SUBJECT_NODE |}] |}
    else if String.eqb g "db" then
      GroupFound {| GroupName := "db";
                    Subjects := [{| SubjectName := "db-1"; SubjectKind := SUBJECT_NODE |}] |}
    else ErrGroupNotFound.

Definition teamACL : ACL :=
  {| acl := {| Name := "teams"; Priority := 5; Action := ACTION_ACCEPT;
               SourceNodes := ["group:ops"; "edge-*"; "group:db"; "group:gone"];
               DestinationNodes := ["group:db"; "group:ops"];
               SourceCidrs := []; DestinationCidrs := [];
               Protocols := []; Ports := [] |};
     storage := teamStorage |}.

Lemma containsOrWildcardMatch_ext l l' s :
  (forall x, x ∈ l <-> x ∈ l') ->
  containsOrWildcardMatch l s = containsOrWildcardMatch l' s.
Proof.
  intros H. apply eq_true_iff_eq. rewrite !containsOrWildcardMatch_elem.
  split; intros (v & Hv & Hm); exists v; (split; [by apply H|done]).
Qed.

Lemma containsOrWildcardMatch_admits st nodes nodes' s :
  (forall x, x ∈ nodes' <-> means st nodes x) ->
  containsOrWildcardMatch nodes' s = true <-> admits st nodes s.
Proof.
  intros H. rewrite containsOrWildcardMatch_elem. unfold admits.
  split; intros (v & Hv & Hm); exists v; (split; [by apply H|done]).
Qed.

Lemma plain_unexpandable st x : plainEntry x -> expandable st x = false.
Proof. unfold plainEntry, expandable. by intros ->. Qed.

Lemma means_expanded st nodes nodes' :
  orderly st ->
  (forall x, x ∈ nodes' <-> means st nodes x) ->
  forall x, means st nodes' x <-> means st nodes x.
Proof.
  intros [_ Hplain] H x. split.
  - intros [[Hx _]|(g & grp & Href & Hg & Hx)]; [by apply H|].
    apply H in Href as [[Href _]|(g' & grp' & _ & Hg' & Hmem)].
    + right. by exists g, grp.
    + destruct (Hplain _ _ Hg') as [_ Hpl]. rewrite Forall_forall in Hpl.
      destruct (ref_not_plain g). by apply Hpl.
  - intros Hm. left. split; [by apply H|].
    destruct Hm as [[_ Hun]|(g & grp & _ & Hg & Hx)]; [done|].
    destruct (Hplain _ _ Hg) as [_ Hpl]. rewrite Forall_forall in Hpl.
    by apply plain_unexpandable, Hpl.
Qed.

Lemma standsFor_refl a : standsFor a a.
Proof. split; [apply sameRules_refl|done]. Qed.

Lemma checkSrcNode_means rt action a :
  orderly (storage a) -> SrcNode action <> "" ->
  exists nodes',
    checkSrcNode rt action a
      = (containsOrWildcardMatch nodes' (SrcNode action), setSourceNodes a nodes') /\
    forall x, x ∈ nodes' <-> means (storage a) (SourceNodes (acl a)) x.
Proof.
  intros Hst Hsrc.
  destruct (expandGroups_means rt _ (SourceNodes (acl a)) Hst) as (nodes' & He & Hm).
  exists nodes'. split; [|done]. unfold checkSrcNode.
  apply String.eqb_neq in Hsrc. rewrite Hsrc. cbn [negb].
  by rewrite lenGeZero_true, He.
Qed.

Lemma checkDstNode_means rt action a :
  orderly (storage a) -> DstNode action <> "" ->
  exists nodes',
    checkDstNode rt action a
      = (containsOrWildcardMatch nodes' (DstNode action), setDestinationNodes a nodes') /\
    forall x, x ∈ nodes' <-> means (storage a) (DestinationNodes (acl a)) x.
Proof.
  intros Hst Hdst.
  destruct (expandGroups_means rt _ (DestinationNodes (acl a)) Hst) as (nodes' & He & Hm).
  exists nodes'. split; [|done]. unfold checkDstNode.
  apply String.eqb_neq in Hdst. rewrite Hdst. cbn [negb].
  by rewrite lenGeZero_true, He.
Qed.

Lemma checkSrcNode_standsFor rt action a a' :
  orderly (storage a) -> standsFor a a' ->
  (checkSrcNode rt action a').1 = (checkSrcNode rt action a).1 /\
  standsFor a (checkSrcNode rt action a').2.
Proof.
  intros Hst (Hrules & Hsrc & Hdst).
  pose proof Hrules as (Hstore & _).
  destruct (decide (SrcNode action = "")) as [Hs|Hs].
  - unfold checkSrcNode. rewrite Hs. simpl. done.
  - destruct (checkSrcNode_means rt action a Hst Hs) as (n & -> & Hn).
    destruct (checkSrcNode_means rt action a') as (n' & -> & Hn'); [by rewrite Hstore|done|].
    rewrite Hstore in Hn'. cbn [fst snd]. split.
    + apply containsOrWildcardMatch_ext. intros x. by rewrite Hn, Hn', Hsrc.
    + split_and!.
      * destruct Hrules as (? & ? & ? & ? & ? & ? & ? & ?). by repeat split.
      * cbn [setSourceNodes acl SourceNodes]. intros x.
        rewrite <- Hsrc. by apply means_expanded.
      * done.
Qed.

Lemma checkDstNode_standsFor rt action a a' :
  orderly (storage a) -> standsFor a a' ->
  (checkDstNode rt action a').1 = (checkDstNode rt action a).1 /\
  standsFor a (checkDstNode rt action a').2.
Proof.
  intros Hst (Hrules & Hsrc & Hdst).
  pose proof Hrules as (Hstore & _).
  destruct (decide (DstNode action = "")) as [Hs|Hs].
  - unfold checkDstNode. rewrite Hs. simpl. done.
  - destruct (checkDstNode_means rt action a Hst Hs) as (n & -> & Hn).
    destruct (checkDstNode_means rt action a') as (n' & -> & Hn'); [by rewrite Hstore|done|].
    rewrite Hstore in Hn'. cbn [fst snd]. split.
    + apply containsOrWildcardMatch_ext. intros x. by rewrite Hn, Hn', Hdst.
    + split_and!.
      * destruct Hrules as (? & ? & ? & ? & ? & ? & ? & ?). by repeat split.
      * done.
      * cbn [setDestinationNodes acl DestinationNodes]. intros x.
        rewrite <- Hdst. by apply means_expanded.
Qed.

Lemma checkList_rules (field : NetworkACL -> list string) value a b :
  field (acl b) = field (acl a) -> (checkList field value b).1 = (checkList field value a).1.
Proof. unfold checkList. intros ->. by repeat case_match. Qed.

Lemma checkPort_rules action a b :
  Ports (acl b) = Ports (acl a) -> (checkPort action b).1 = (checkPort action a).1.
Proof. unfold checkPort. intros ->. by repeat case_match. Qed.

Lemma afterNodes_standsFor rt action a a' :
  orderly (storage a) -> standsFor a a' -> standsFor a (afterNodes rt action a').
Proof.
  intros Hst H. unfold afterNodes.
  apply checkDstNode_standsFor; [done|]. by apply checkSrcNode_standsFor.
Qed.

Lemma Matches_standsFor rt action a a' :
  orderly (storage a) -> standsFor a a' ->
  (Matches rt a' action).1 = (Matches rt a action).1 /\
  standsFor a (Matches rt a' action).2.
Proof.
  intros Hst H. split.
  - rewrite !Matches_fst.
    destruct (checkSrcNode_standsFor rt action a a' Hst H) as [-> H1].
    destruct (checkSrcNode_standsFor rt action a a Hst (standsFor_refl a)) as [_ H2].
    destruct (checkDstNode_standsFor rt action a _ Hst H1) as [-> _].
    destruct (checkDstNode_standsFor rt action a _ Hst H2) as [-> _].
    destruct (afterNodes_standsFor rt action a a' Hst H)
      as ((_ & _ & _ & _ & Hsc & Hdc & Hpr & Hpo) & _).
    destruct (afterNodes_standsFor rt action a a Hst (standsFor_refl a))
      as ((_ & _ & _ & _ & Hsc' & Hdc' & Hpr' & Hpo') & _).
    rewrite (checkList_rules SourceCidrs _ a (afterNodes rt action a')) by done.
    rewrite (checkList_rules DestinationCidrs _ a (afterNodes rt action a')) by done.
    rewrite (checkList_rules Protocols _ a (afterNodes rt action a')) by done.
    rewrite (checkPort_rules _ a (afterNodes rt action a')) by done.
    rewrite (checkList_rules SourceCidrs _ a (afterNodes rt action a)) by done.
    rewrite (checkList_rules DestinationCidrs _ a (afterNodes rt action a)) by done.
    rewrite (checkList_rules Protocols _ a (afterNodes rt action a)) by done.
    by rewrite (checkPort_rules _ a (afterNodes rt action a)).
  - rewrite Matches_snd. case_match.
    + by apply afterNodes_standsFor.
    + by apply checkSrcNode_standsFor.
Qed.

Lemma Accept_standsFor rt action l l' :
  Forall (fun a => orderly (storage a)) l -> Forall2 standsFor l l' ->
  (Accept rt l' action).1 = (Accept rt l action).1 /\
  Forall2 standsFor l (Accept rt l' action).2.
Proof.
  intros Hst HF. revert Hst.
  induction HF as [|a a' l l' Ha HF IH]; intros Hst; [done|].
  apply Forall_cons in Hst as [Hst Hl]. simpl.
  destruct (Matches_standsFor rt action a a' Hst Ha) as [Hv Hs].
  destruct (Matches_standsFor rt action a a Hst (standsFor_refl a)) as [_ Hs'].
  rewrite Hv. destruct (Matches rt a action).1; simpl.
  - split; [|by constructor].
    destruct Hs as ((_ & _ & _ & -> & _) & _).
    destruct Hs' as ((_ & _ & _ & -> & _) & _). done.
  - destruct (IH Hl) as [-> HF']. split; [done|by constructor].
Qed.

Lemma afterEvaluating_standsFor rt l acts :
  Forall (fun a => orderly (storage a)) l ->
  Forall2 standsFor l (afterEvaluating rt l acts).
Proof.
  intros Hst. unfold afterEvaluating.
  assert (Forall2 standsFor l l) as H0.
  { apply Forall_Forall2_diag, Forall_forall. intros; apply standsFor_refl. }
  revert H0. generalize l at 2 4 as l'.
  induction acts as [|act acts IH]; intros l' H0; simpl; [done|].
  apply IH. by apply Accept_standsFor.
Qed.

(** X27. What a node list with group references matches. Over a
    storage that answers every lookup and in which no group name and no
    member name starts with [group:], the source nodes [Matches] leaves
    hold exactly the entries it does not expand and the names of the
    node and all subjects of every referenced group, however many
    references the list holds and in whatever order the groups are
    visited. An action between
    two nodes is matched only if its source and its destination each match
    such an entry, and that suffices when no other field is set. *)
Theorem Matches_group_semantics rt a action :
  orderly (storage a) -> SrcNode action <> "" -> DstNode action <> "" ->
  (forall x, x ∈ SourceNodes (acl (Matches rt a action).2)
             <-> means (storage a) (SourceNodes (acl a)) x) /\
  ((Matches rt a action).1 = true ->
   admits (storage a) (SourceNodes (acl a)) (SrcNode action) /\
   admits (storage a) (DestinationNodes (acl a)) (DstNode action)) /\
  (SrcCidr action = "" -> DstCidr action = "" -> Protocol action = "" ->
   Port action = 0 ->
   admits (storage a) (SourceNodes (acl a)) (SrcNode action) ->
   admits (storage a) (DestinationNodes (acl a)) (DstNode action) ->
   (Matches rt a action).1 = true).
Proof.
  intros Hst Hsrc Hdst.
  destruct (checkSrcNode_means rt action a Hst Hsrc) as (n & Hcs & Hn).
  destruct (checkDstNode_means rt action (setSourceNodes a n)) as (m & Hcd & Hm);
    [done|done|]. cbn [setSourceNodes acl storage DestinationNodes] in Hm.
  split_and!.
  - intros x. rewrite Matches_SourceNodes, Hcs. cbn [snd]. apply Hn.
  - rewrite Matches_fst, Hcs. cbn [fst snd]. rewrite Hcd. cbn [fst].
    intros [H1 [H2 _]%andb_true_iff]%andb_true_iff.
    split; by eapply containsOrWildcardMatch_admits.
  - intros H1 H2 H3 H4 Hs Hd.
    rewrite Matches_fst, Hcs. cbn [fst snd]. rewrite Hcd. cbn [fst].
    unfold checkList, checkPort. rewrite H1, H2, H3, H4.
    cbn [negb String.eqb Z.eqb fst]. rewrite !andb_true_r.
    apply andb_true_iff. split; by eapply containsOrWildcardMatch_admits.
Qed.

Lemma teamStorage_orderly : orderly teamStorage.
Proof.
  unfold orderly, teamStorage. split.
  - intros g. by repeat case_match.
  - intros g grp.
    destruct (String.eqb g "ops") eqn:E1.
    { apply String.eqb_eq in E1 as ->. intros [= <-]. split; [done|]. by repeat constructor. }
    destruct (String.eqb g "db") eqn:E2; [|done].
    apply String.eqb_eq in E2 as ->. intros [= <-]. split; [done|]. by repeat constructor.
Qed.

Lemma Matches_group_semantics_witness :
  (Matches insertionOrderRuntime teamACL
     {| SrcNode := "op-2"; SrcCidr := ""; DstNode := "db-1"; DstCidr := "";
        Protocol := ""; Port := 0 |}).1 = true.
Proof.
  destruct (Matches_group_semantics insertionOrderRuntime teamACL
              {| SrcNode := "op-2"; SrcCidr := ""; DstNode := "db-1"; DstCidr := "";
                 Protocol := ""; Port := 0 |} teamStorage_orderly)
    as (_ & _ & H); [discriminate..|].
  apply H; try reflexivity.
  - exists "op-2". split; [|reflexivity]. right.
    eexists "ops", _. split_and!; [apply list_elem_of_here|reflexivity|].
    apply list_elem_of_further, list_elem_of_here.
  - exists "db-1". split; [|reflexivity]. right.
    eexists "db", _. split_and!; [apply list_elem_of_here|reflexivity|].
    apply list_elem_of_here.
Defined.

(** X28. Evaluating an action does not change later verdicts. [Accept]
    rewrites the node lists of the ACLs it evaluates, but over storages
    that answer every lookup and in which no group name and no member
    name starts with [group:], a list that has been through any number of
    evaluations gives every action the verdict the stored list gives. *)
Theorem Accept_verdicts_stable rt (l : ACLs) acts action :
  Forall (fun a => orderly (storage a)) l ->
  (Accept rt (afterEvaluating rt l acts) action).1 = (Accept rt l action).1.
Proof.
  intros Hst. apply Accept_standsFor; [done|]. by apply afterEvaluating_standsFor.
Qed.

Lemma Accept_verdicts_stable_witness :
  (Accept insertionOrderRuntime
     (afterEvaluating insertionOrderRuntime [teamACL]
        [{| SrcNode := "op-1"; SrcCidr := ""; DstNode := "db-1"; DstCidr := "";
            Protocol := ""; Port := 0 |}])
     {| SrcNode := "db-1"; SrcCidr := ""; DstNode := "op-2"; DstCidr := "";
        Protocol := ""; Port := 0 |}).1
  = (Accept insertionOrderRuntime [teamACL]
       {| SrcNode := "db-1"; SrcCidr := ""; DstNode := "op-2"; DstCidr := "";
          Protocol := ""; Port := 0 |}).1.
Proof.
  apply (Accept_verdicts_stable insertionOrderRuntime [teamACL]).
  constructor; [apply teamStorage_orderly|constructor].
Defined.

End StableVerdicts.

(** ** [peers.go]: what a descriptor is allowed *)

Section AllowedIPs.
Import GoStrings v1 Netip Peers Meshutil.

Variable deps : Deps.
Variable nw : Networking.
Variable graph : Graph.
Variable adjacencyMap : AdjacencyMap.
Variable thisPeer : string.
Variable thisRoutes : list Prefix.

(** The two addresses of a node differ whenever the first is valid. *)
Definition distinctAddresses (n : MeshNode) : Prop :=
  IsValid (PrivateAddrV4 n) = true -> PrivateAddrV4 n <> PrivateAddrV6 n.

Lemma appendRoutes_NoDup cidrs l l' :
  NoDup l -> appendRoutes deps thisRoutes cidrs l = Some l' -> NoDup l'.
Proof.
  revert l. induction cidrs as [|cidr cidrs IH]; intros l Hl; simpl.
  - by intros [= <-].
  - destruct (ParsePrefix deps cidr) as [p|]; [|done].
    apply IH. destruct (negb _ && negb _) eqn:E; [|done].
    apply andb_true_iff in E as [E _]. apply negb_true_iff in E.
    unfold containsPrefix in E. apply bool_decide_eq_false in E.
    apply NoDup_app. split_and!; [done| |apply NoDup_singleton].
    intros x Hx ->%list_elem_of_singleton. done.
Qed.

Lemma appendNew_NoDup acc ips : NoDup acc -> NoDup (appendNew acc ips).
Proof.
  unfold appendNew. revert acc.
  induction ips as [|ip ips IH]; intros acc Hacc; simpl; [done|].
  apply IH. unfold containsPrefix. case_bool_decide; [done|].
  apply NoDup_app. split_and!; [done| |apply NoDup_singleton].
  intros x Hx ->%list_elem_of_singleton. done.
Qed.

Lemma recursePeers_NoDup node ips rts :
  distinctAddresses node ->
  recursePeers deps nw graph adjacencyMap thisPeer thisRoutes node = Some (Ok (ips, rts)) ->
  NoDup ips.
Proof.
  intros Hd. unfold recursePeers.
  destruct (GetRoutesByNode nw (Id node)) as [routes|]; [|done].
  destruct (appendRoutes _ _ _ _) as [l|] eqn:Happ; [|done].
  apply appendRoutes_NoDup in Happ; last first.
  { unfold appendValid, distinctAddresses in *.
    destruct (IsValid (PrivateAddrV4 node)), (IsValid (PrivateAddrV6 node));
      simpl; repeat constructor; set_solver. }
  destruct (recurseEdges _ _ _ _ _ _ _ node ∅) as [[[[ips1 rts1] v1]|]|]; [|done|done].
  intros [= <- <-]. by apply appendNew_NoDup.
Qed.

End AllowedIPs.

Section ExactGrants.
Import GoStrings v1 Netip Peers Meshutil.

Variable deps : Deps.
Variable nw : Networking.
Variable graph : Graph.
Variable adjacencyMap : AdjacencyMap.
Variable thisPeer : string.
Variable thisRoutes : list Prefix.

(** What a node that is traversed adds to the allowed IPs: its valid
    private addresses, and the parsed destinations of its routes that
    are none of the requesting node's own. *)
Definition owes (n : MeshNode) (p : Prefix) : Prop :=
  (IsValid p = true /\ (p = PrivateAddrV4 n \/ p = PrivateAddrV6 n)) \/
  ((p ∉ thisRoutes) /\
   exists routes cidr,
     GetRoutesByNode nw (Id n) = Ok routes /\
     cidr ∈ destinationCidrs routes /\
     ParsePrefix deps cidr = Some p).

(** A prefix owed by a node reached from the direct neighbour [d]. *)
Definition owedFrom (d : string) (p : Prefix) : Prop :=
  exists t tn,
    reached graph adjacencyMap thisPeer d t /\ Vertex graph t = Some tn /\ owes tn p.

(** A target the loop of [recurseEdges] does not pass over. *)
Definition eligible (t : string) : Prop :=
  t <> thisPeer /\ hasEdge (adjacents adjacencyMap thisPeer) t = false.

(** The node [t] has been dealt with: if it has a public key, what it
    owes is in [ips] and the targets of its edges are in [visited]. *)
Definition settled (ips : list Prefix) (visited : gset string) (t : string) : Prop :=
  forall tn, Vertex graph t = Some tn -> PublicKey tn <> "" ->
    (forall p, owes tn p -> p ∈ ips) /\
    (forall t' e, (t', e) ∈ adjacents adjacencyMap t -> eligible t' -> t' ∈ visited).

(** What a call of [recurseEdges] on [node] has done when it returns. *)
Definition completeCall (rec : MeshNode -> gset string -> outcome edgesResult)
  : Prop :=
  forall node v ips rts v',
    rec node v = Some (Ok (ips, rts, v')) ->
    {[Id node]} ∪ v ⊆ v' /\
    (forall t e, (t, e) ∈ adjacents adjacencyMap (Id node) -> eligible t -> t ∈ v') /\
    (forall t, t ∈ v' -> t ∉ {[Id node]} ∪ v -> settled ips v' t).

(** A recursive call whose allowed IPs are all owed by reached nodes. *)
Definition owedCall (d : string)
  (rec : MeshNode -> gset string -> outcome edgesResult) : Prop :=
  forall node v ips rts v',
    reached graph adjacencyMap thisPeer d (Id node) ->
    Vertex graph (Id node) = Some node ->
    rec node v = Some (Ok (ips, rts, v')) ->
    Forall (owedFrom d) ips.

Lemma settled_mono ips visited ips' visited' t :
  ips ⊆ ips' -> visited ⊆ visited' ->
  settled ips visited t -> settled ips' visited' t.
Proof.
  intros Hips Hvis Hs tn Hv Hk. destruct (Hs tn Hv Hk) as [H1 H2].
  split; [intros p Hp; by apply Hips, H1|].
  intros t' e Hin Hel. by eapply Hvis, H2.
Qed.

Lemma appendValid_subseteq l p : l ⊆ appendValid l p.
Proof. unfold appendValid. case_match; set_solver. Qed.

Lemma appendValid_elem l p : IsValid p = true -> p ∈ appendValid l p.
Proof. unfold appendValid. intros ->. set_solver. Qed.

Lemma appendRoutes_subseteq cidrs l l' :
  appendRoutes deps thisRoutes cidrs l = Some l' -> l ⊆ l'.
Proof.
  revert l. induction cidrs as [|cidr cidrs IH]; intros l; simpl.
  - by intros [= <-].
  - destruct (ParsePrefix deps cidr) as [p|]; [|done].
    intros H%IH. case_match; set_solver.
Qed.

Lemma appendRoutes_elem cidrs l l' cidr p :
  appendRoutes deps thisRoutes cidrs l = Some l' ->
  cidr ∈ cidrs -> ParsePrefix deps cidr = Some p -> p ∉ thisRoutes -> p ∈ l'.
Proof.
  revert l. induction cidrs as [|c cidrs IH]; intros l; simpl.
  - by intros _ ?%elem_of_nil.
  - destruct (ParsePrefix deps c) as [q|] eqn:Hq; [|done].
    intros Happ [->|Hin]%elem_of_cons Hp Hnot; [|by eapply IH].
    assert (q = p) as -> by congruence.
    apply appendRoutes_subseteq in Happ. apply Happ.
    unfold containsPrefix.
    rewrite (bool_decide_eq_false_2 (p ∈ thisRoutes)) by done.
    case_bool_decide; simpl; set_solver.
Qed.

Lemma appendNew_subseteq_l acc ips : acc ⊆ appendNew acc ips.
Proof.
  unfold appendNew. revert acc.
  induction ips as [|ip ips IH]; intros acc; simpl; [done|].
  etrans; [|apply IH]. case_match; set_solver.
Qed.

Lemma appendNew_subseteq_r acc ips : ips ⊆ appendNew acc ips.
Proof.
  unfold appendNew. revert acc.
  induction ips as [|ip ips IH]; intros acc; simpl; [set_solver|].
  intros x [->|Hx]%elem_of_cons; [|by apply IH].
  apply (appendNew_subseteq_l _ ips). unfold containsPrefix.
  case_bool_decide; set_solver.
Qed.

Lemma appendNew_elem acc ips x : x ∈ appendNew acc ips <-> x ∈ acc \/ x ∈ ips.
Proof.
  split.
  - unfold appendNew. revert acc.
    induction ips as [|ip ips IH]; intros acc; simpl; [by left|].
    intros [H|H]%IH; [|set_solver]. case_match; set_solver.
  - intros [H|H]; [by apply appendNew_subseteq_l|by apply appendNew_subseteq_r].
Qed.

(** What a traversed node owes is in the list once its addresses and
    routes have been appended. *)
Lemma owes_appended tn routes l l' p :
  GetRoutesByNode nw (Id tn) = Ok routes ->
  appendRoutes deps thisRoutes (destinationCidrs routes)
    (appendValid (appendValid l (PrivateAddrV4 tn)) (PrivateAddrV6 tn)) = Some l' ->
  owes tn p -> p ∈ l'.
Proof.
  intros Hroutes Happ [[Hv [->| ->]]|(Hnot & routes' & cidr & Hr & Hin & Hp)].
  - eapply appendRoutes_subseteq; [done|].
    by apply appendValid_subseteq, appendValid_elem.
  - eapply appendRoutes_subseteq; [done|]. by apply appendValid_elem.
  - assert (routes' = routes) as -> by congruence.
    by eapply appendRoutes_elem.
Qed.

Lemma visitTargets_complete rec :
  completeCall rec ->
  forall targets ips rts visited ips' rts' v',
    visitTargets deps nw graph adjacencyMap thisPeer thisRoutes rec
      targets ips rts visited = Some (Ok (ips', rts', v')) ->
    visited ⊆ v' /\ ips ⊆ ips' /\
    (forall t e, (t, e) ∈ targets -> eligible t -> t ∈ v') /\
    (forall t, t ∈ v' -> t ∉ visited -> settled ips' v' t).
Proof.
  intros Hrec.
  induction targets as [|[t e] targets IH];
    intros ips rts visited ips' rts' v'; simpl.
  - intros [= <- <- <-]. split_and!; [done|done| |done].
    by intros t e ?%elem_of_nil.
  - destruct (String.eqb t thisPeer) eqn:Hself.
    { intros (H1 & H2 & H3 & H4)%IH. split_and!; [done..| |done].
      intros t' e' [[= -> ->]|Hin]%elem_of_cons Hel; [|by eapply H3].
      destruct Hel as [Hne _]. by apply String.eqb_eq in Hself. }
    destruct (hasEdge _ t) eqn:Hdirect.
    { intros (H1 & H2 & H3 & H4)%IH. split_and!; [done..| |done].
      intros t' e' [[= -> ->]|Hin]%elem_of_cons Hel; [|by eapply H3].
      destruct Hel as [_ Hd]. congruence. }
    destruct (bool_decide (t ∈ visited)) eqn:Hvis.
    { apply bool_decide_eq_true in Hvis.
      intros (H1 & H2 & H3 & H4)%IH. split_and!; [done..| |done].
      intros t' e' [[= -> ->]|Hin]%elem_of_cons Hel; [by apply H1|by eapply H3]. }
    apply bool_decide_eq_false in Hvis.
    destruct (Vertex graph t) as [tn|] eqn:Hv; [|done].
    destruct (String.eqb (PublicKey tn) "") eqn:Hkey.
    { apply String.eqb_eq in Hkey.
      intros (H1 & H2 & H3 & H4)%IH. split_and!; [set_solver|done| |].
      - intros t' e' [[= -> ->]|Hin]%elem_of_cons Hel; [set_solver|by eapply H3].
      - intros x Hx Hnot. destruct (decide (x = t)) as [->|Hne]; [|apply H4; set_solver].
        intros tn' Hv' Hk'. congruence. }
    destruct (GetRoutesByNode nw (Id tn)) as [routes|] eqn:Hroutes; [|done].
    destruct (appendRoutes _ _ _ _) as [l|] eqn:Happ; [|done].
    destruct (rec tn _) as [[[[ips1 rts1] v1]|]|] eqn:Hcall; [|done|done].
    apply Hrec in Hcall as (Hc1 & Hc2 & Hc3).
    pose proof (Vertex_Id _ _ _ Hv) as Hid. rewrite Hid in Hc1, Hc2, Hc3.
    intros (H1 & H2 & H3 & H4)%IH.
    assert (ips ⊆ l) as Hl.
    { etrans; [|by eapply appendRoutes_subseteq].
      etrans; [|apply appendValid_subseteq]. apply appendValid_subseteq. }
    pose proof (appendNew_subseteq_l l ips1) as Hl1.
    pose proof (appendNew_subseteq_r l ips1) as Hl2.
    split_and!; [set_solver|set_solver| |].
    + intros t' e' [[= -> ->]|Hin]%elem_of_cons Hel; [set_solver|by eapply H3].
    + intros x Hx Hnot. destruct (decide (x ∈ v1)) as [Hx1|Hx1]; [|by apply H4].
      destruct (decide (x = t)) as [->|Hne].
      * intros tn' Hv' Hk'. assert (tn' = tn) as -> by congruence. split.
        -- intros p Hp. apply H2, Hl1. by eapply owes_appended.
        -- intros t' e' Hin Hel. apply H1. by eapply Hc2.
      * eapply settled_mono; [| |apply Hc3; [done|set_solver]]; set_solver.
Qed.

Lemma recurseEdges_complete budget :
  completeCall (recurseEdges deps nw graph adjacencyMap thisPeer thisRoutes budget).
Proof.
  induction budget as [|budget IH]; intros node v ips rts v'; simpl; [done|].
  intros (H1 & H2 & H3 & H4)%(visitTargets_complete _ IH). done.
Qed.

Lemma appendValid_owed d t tn l p :
  reached graph adjacencyMap thisPeer d t -> Vertex graph t = Some tn ->
  p = PrivateAddrV4 tn \/ p = PrivateAddrV6 tn ->
  Forall (owedFrom d) l -> Forall (owedFrom d) (appendValid l p).
Proof.
  intros Hr Hv Hp Hl. unfold appendValid.
  destruct (IsValid p) eqn:E; [|done].
  apply Forall_app. split; [done|]. constructor; [|done].
  exists t, tn. split_and!; [done..|]. left. by split.
Qed.

Lemma appendRoutes_owed d t tn routes cidrs l l' :
  reached graph adjacencyMap thisPeer d t -> Vertex graph t = Some tn ->
  GetRoutesByNode nw (Id tn) = Ok routes ->
  cidrs ⊆ destinationCidrs routes ->
  Forall (owedFrom d) l ->
  appendRoutes deps thisRoutes cidrs l = Some l' ->
  Forall (owedFrom d) l'.
Proof.
  intros Hr Hv Hroutes. revert l.
  induction cidrs as [|cidr cidrs IH]; intros l Hsub Hl; simpl.
  - by intros [= <-].
  - destruct (ParsePrefix deps cidr) as [p|] eqn:Hp; [|done].
    apply IH; [set_solver|].
    destruct (negb _ && negb _) eqn:E; [|done].
    apply andb_true_iff in E as [_ E]. apply negb_true_iff in E.
    unfold containsPrefix in E. apply bool_decide_eq_false in E.
    apply Forall_app. split; [done|]. constructor; [|done].
    exists t, tn. split_and!; [done..|]. right. split; [done|].
    exists routes, cidr. split_and!; [done| |done]. apply Hsub. by left.
Qed.

Lemma visitTargets_owed d rec n :
  owedCall d rec -> reached graph adjacencyMap thisPeer d n ->
  forall targets ips rts visited ips' rts' v',
    targets ⊆ adjacents adjacencyMap n ->
    Forall (owedFrom d) ips ->
    visitTargets deps nw graph adjacencyMap thisPeer thisRoutes rec
      targets ips rts visited = Some (Ok (ips', rts', v')) ->
    Forall (owedFrom d) ips'.
Proof.
  intros Hrec Hn.
  induction targets as [|[t e] targets IH];
    intros ips rts visited ips' rts' v' Hsub Hips; simpl.
  - by intros [= <- <- <-].
  - assert (targets ⊆ adjacents adjacencyMap n) as Hsub' by set_solver.
    assert ((t, e) ∈ adjacents adjacencyMap n) as Hte by set_solver.
    destruct (String.eqb t thisPeer) eqn:Hself; [by eapply IH|].
    destruct (hasEdge _ t) eqn:Hdirect; [by eapply IH|].
    destruct (bool_decide (t ∈ visited)); [by eapply IH|].
    destruct (Vertex graph t) as [tn|] eqn:Hv; [|done].
    destruct (String.eqb (PublicKey tn) "") eqn:Hkey; [by eapply IH|].
    apply String.eqb_neq in Hself, Hkey.
    assert (reached graph adjacencyMap thisPeer d t) as Ht by (by eapply reached_step).
    destruct (GetRoutesByNode nw (Id tn)) as [routes|] eqn:Hroutes; [|done].
    destruct (appendRoutes _ _ _ _) as [l|] eqn:Happ; [|done].
    eapply appendRoutes_owed in Happ; [| exact Ht | exact Hv | exact Hroutes | done |];
      last first.
    { eapply appendValid_owed; [exact Ht|exact Hv|by right|].
      eapply appendValid_owed; [exact Ht|exact Hv|by left|done]. }
    destruct (rec tn _) as [[[[ips1 rts1] v1]|]|] eqn:Hcall; [|done|done].
    pose proof (Vertex_Id _ _ _ Hv) as Hid.
    apply Hrec in Hcall; [|by rewrite Hid..].
    eapply IH; [done|]. by apply appendNew_Forall.
Qed.

Lemma recurseEdges_owed d budget :
  owedCall d (recurseEdges deps nw graph adjacencyMap thisPeer thisRoutes budget).
Proof.
  induction budget as [|budget IH]; intros node v ips rts v' Hr Hv; simpl; [done|].
  intros H. eapply visitTargets_owed in H; [done|exact IH|exact Hr|done..].
Qed.

(** The allowed IPs [recursePeers] computes for the direct neighbour
    [d] are what the nodes reached from [d] owe, no more and no less. *)
Lemma recursePeers_exact d node ips rts :
  Vertex graph d = Some node -> PublicKey node <> "" ->
  recursePeers deps nw graph adjacencyMap thisPeer thisRoutes node = Some (Ok (ips, rts)) ->
  forall p, p ∈ ips <-> owedFrom d p.
Proof.
  intros Hv Hkey. unfold recursePeers.
  pose proof (Vertex_Id _ _ _ Hv) as Hid.
  assert (reached graph adjacencyMap thisPeer d d) as Hd by (by eapply reached_start).
  destruct (GetRoutesByNode nw (Id node)) as [routes|] eqn:Hroutes; [|done].
  destruct (appendRoutes _ _ _ _) as [l|] eqn:Happ; [|done].
  destruct (recurseEdges _ _ _ _ _ _ _ node ∅) as [[[[ips1 rts1] v1]|]|] eqn:Hcall;
    [|done|done].
  intros [= <- <-] p. split.
  - revert p. apply Forall_forall, appendNew_Forall.
    + eapply appendRoutes_owed in Happ; [done| exact Hd | exact Hv | exact Hroutes | done |].
      eapply appendValid_owed; [exact Hd|exact Hv|by right|].
      eapply appendValid_owed; [exact Hd|exact Hv|by left|done].
    + eapply (recurseEdges_owed d); [| |exact Hcall]; by rewrite Hid.
  - apply recurseEdges_complete in Hcall as (Hc1 & Hc2 & Hc3).
    rewrite Hid in Hc1, Hc2, Hc3.
    intros (t & tn & Hr & Hvt & Hp).
    assert (t ∈ v1 /\ (t = d \/ settled ips1 v1 t)) as [Hin Hsett].
    { clear Hp Hvt tn. induction Hr as [dn Hdn Hdk|n t e tn Hn [IHin IHs] Hte Hself Hdirect Hvt Hk].
      - split; [set_solver|by left].
      - assert (t ∈ v1) as Ht.
        { destruct IHs as [->|Hs]; [by eapply Hc2|].
          destruct (reached_keyed _ _ _ _ _ Hn) as (nn & Hvn & Hkn).
          destruct (Hs nn Hvn Hkn) as [_ Hclos]. by eapply Hclos. }
        split; [done|]. destruct (decide (t = d)) as [->|Hne]; [by left|].
        right. apply Hc3; [done|set_solver]. }
    apply appendNew_elem. destruct Hsett as [->|Hs].
    + left. assert (tn = node) as -> by congruence. by eapply owes_appended.
    + right. destruct (reached_keyed _ _ _ _ _ Hr) as (tn' & Hvt' & Hk').
      assert (tn' = tn) as -> by congruence.
      by apply (Hs tn Hvt Hk').
Qed.

End ExactGrants.

Section DescriptorGrants.
Import GoStrings v1 Netip Peers Meshutil.

(** The valid private addresses of a node, IPv4 first. *)
Definition ownAddresses (n : MeshNode) : list Prefix :=
  appendValid (appendValid [] (PrivateAddrV4 n)) (PrivateAddrV6 n).

(** The descriptor belongs to a node of the graph and its allowed IPs
    print a list of prefixes with the property [Q]. *)
Definition allows (graph : Graph) (Q : MeshNode -> list Prefix -> Prop)
  (peer : WireGuardPeer) : Prop :=
  exists node ips,
    Vertex graph (PeerId peer) = Some node /\
    AllowedIps peer = PrefixString <$> ips /\ Q node ips.

(** A mesh [a - b - c] with routes: [a] and [b] both advertise
    [10.1.0.0/16], [b] also [10.2.0.0/16] and [c] [10.3.0.0/16]. The
    resolver filters nothing. *)
Definition routedGraph : Graph :=
  {| vertices :=
       [{| Id := "a"; PublicKey := "key-a"; HostPublicKey := "";
           PrimaryEndpoint := ""; WireguardEndpoints := []; ZoneAwarenessId := "";
           Multiaddrs := []; PrivateAddrV4 := MkPrefix "172.16.0.1/32";
           PrivateAddrV6 := MkPrefix "2001:db8::1/128"; Features := []; JoinedAt := 0 |};
        {| Id := "b"; PublicKey := "key-b"; HostPublicKey := "";
           PrimaryEndpoint := "b.example"; 
           WireguardEndpoints := ["10.0.0.2:51820"; "b.example:51820"];
           ZoneAwarenessId := "";
           Multiaddrs := []; PrivateAddrV4 := MkPrefix "172.16.0.2/32";
           PrivateAddrV6 := MkPrefix "2001:db8::2/128"; Features := []; JoinedAt := 0 |};
        {| Id := "c"; PublicKey := "key-c"; HostPublicKey := "";
           PrimaryEndpoint := ""; WireguardEndpoints := []; ZoneAwarenessId := "";
           Multiaddrs := []; PrivateAddrV4 := MkPrefix "172.16.0.3/32";
           PrivateAddrV6 := InvalidPrefix; Features := []; JoinedAt := 0 |}];
     edges :=
       [("a", [("b", {| EdgeSource := "a"; EdgeTarget := "b"; EdgeWeight := 1;
                        EdgeAttributes := [] |})]);
        ("b", [("a", {| EdgeSource := "b"; EdgeTarget := "a"; EdgeWeight := 1;
                        EdgeAttributes := [] |});
               ("c", {| EdgeSource := "b"; EdgeTarget := "c"; EdgeWeight := 1;
                        EdgeAttributes := [] |})]);
        ("c", [("b", {| EdgeSource := "c"; EdgeTarget := "b"; EdgeWeight := 1;
                        EdgeAttributes := [] |})])] |}.

Definition routedRoutes : list Route :=
  [{| RouteName := "a-lan"; RouteNode := "a"; RouteDestinationCidrs := ["10.1.0.0/16"] |};
   {| RouteName := "b-lan"; RouteNode := "b";
      RouteDestinationCidrs := ["10.1.0.0/16"; "10.2.0.0/16"] |};
   {| RouteName := "c-lan"; RouteNode := "c"; RouteDestinationCidrs := ["10.3.0.0/16"] |}].

Definition routedStorage : MeshStorage :=
  {| PeersGraph := routedGraph;
     NetworkingNew :=
       {| FilterGraph := fun g _ => Ok (edges g);
          GetRoutesByNode := fun id =>
            Ok (List.filter (fun r => String.eqb (RouteNode r) id) routedRoutes) |} |}.

(** Every CIDR parses to a valid prefix. *)
Definition routedDeps : Deps :=
  {| ParsePrefix := fun cidr => Some (MkPrefix cidr);
     ProtoFromEdgeAttrs := fun _ => CONNECT_NATIVE |}.

Lemma peersOfAdjacents_allows deps nw graph adjacencyMap peerID ourRoutes
    (Q : MeshNode -> list Prefix -> Prop) das out peers :
  (forall node ips rts,
     Vertex graph (Id node) = Some node -> PublicKey node <> "" ->
     recursePeers deps nw graph adjacencyMap peerID ourRoutes node = Some (Ok (ips, rts)) ->
     Q node ips) ->
  Forall (allows graph Q) out ->
  peersOfAdjacents deps nw graph adjacencyMap peerID ourRoutes das out = Some (Ok peers) ->
  Forall (allows graph Q) peers.
Proof.
  intros HQ. revert out.
  induction das as [|[adjacent edge] das IH]; intros out Hout; simpl.
  - by intros [= <-].
  - destruct (Vertex graph adjacent) as [node|] eqn:Hv; [|done].
    destruct (String.eqb (PublicKey node) "") eqn:Hkey; [by apply IH|].
    apply String.eqb_neq in Hkey.
    destruct (recursePeers _ _ _ _ _ _ node) as [[[ips rts]|]|] eqn:Hcall; [|done|done].
    apply IH. apply Forall_app. split; [done|]. constructor; [|done].
    exists node, ips. simpl. rewrite (Vertex_Id _ _ _ Hv). split_and!; [done..|].
    eapply HQ; [|done..]. by rewrite (Vertex_Id _ _ _ Hv).
Qed.

Lemma WireGuardPeersFor_allows deps st peerID adjacencyMap routes ourRoutes
    (Q : MeshNode -> list Prefix -> Prop) peers :
  FilterGraph (NetworkingNew st) (PeersGraph st) peerID = Ok adjacencyMap ->
  GetRoutesByNode (NetworkingNew st) peerID = Ok routes ->
  parsePrefixes deps (destinationCidrs routes) = Some ourRoutes ->
  (forall node ips rts,
     Vertex (PeersGraph st) (Id node) = Some node -> PublicKey node <> "" ->
     recursePeers deps (NetworkingNew st) (PeersGraph st) adjacencyMap peerID ourRoutes node
       = Some (Ok (ips, rts)) ->
     Q node ips) ->
  WireGuardPeersFor deps st peerID = Some (Ok peers) ->
  Forall (allows (PeersGraph st) Q) peers.
Proof.
  unfold WireGuardPeersFor. intros -> -> -> HQ H.
  by eapply peersOfAdjacents_allows in H.
Qed.

Lemma appendRoutes_extends deps thisRoutes cidrs l l' :
  appendRoutes deps thisRoutes cidrs l = Some l' -> exists rest, l' = l ++ rest.
Proof.
  revert l. induction cidrs as [|cidr cidrs IH]; intros l; simpl.
  - intros [= <-]. exists []. by rewrite app_nil_r.
  - destruct (ParsePrefix deps cidr) as [p|]; [|done].
    intros [rest ->]%IH. case_match; [|by exists rest].
    exists (p :: rest). by rewrite <- app_assoc.
Qed.

Lemma appendNew_extends acc ips : exists rest, appendNew acc ips = acc ++ rest.
Proof.
  unfold appendNew. revert acc.
  induction ips as [|ip ips IH]; intros acc; simpl.
  - exists []. by rewrite app_nil_r.
  - destruct (IH (if containsPrefix acc ip then acc else acc ++ [ip])) as [rest ->].
    case_match; [by exists rest|]. exists (ip :: rest). by rewrite <- app_assoc.
Qed.

Lemma recursePeers_extends deps nw graph adjacencyMap thisPeer thisRoutes node ips rts :
  recursePeers deps nw graph adjacencyMap thisPeer thisRoutes node = Some (Ok (ips, rts)) ->
  exists rest, ips = ownAddresses node ++ rest.
Proof.
  unfold recursePeers.
  destruct (GetRoutesByNode nw (Id node)) as [routes|]; [|done].
  destruct (appendRoutes _ _ _ _) as [l|] eqn:Happ; [|done].
  apply appendRoutes_extends in Happ as [r1 ->].
  destruct (recurseEdges _ _ _ _ _ _ _ node ∅) as [[[[ips1 rts1] v1]|]|]; [|done|done].
  intros [= <- <-].
  destruct (appendNew_extends
    (appendValid (appendValid [] (PrivateAddrV4 node)) (PrivateAddrV6 node) ++ r1) ips1)
    as [r2 ->].
  exists (r1 ++ r2). by rewrite <- app_assoc.
Qed.

Lemma PrefixString_inj p q :
  IsValid p = true -> IsValid q = true -> PrefixString p = PrefixString q -> p = q.
Proof. destruct p, q; simpl; congruence. Qed.

Lemma Vertex_elem graph id n : Vertex graph id = Some n -> n ∈ vertices graph.
Proof. unfold Vertex. intros [H _]%find_some. by apply list_elem_of_In. Qed.

Lemma owedFrom_valid deps nw graph adjacencyMap thisPeer thisRoutes d p :
  (forall cidr q, ParsePrefix deps cidr = Some q -> IsValid q = true) ->
  owedFrom deps nw graph adjacencyMap thisPeer thisRoutes d p -> IsValid p = true.
Proof.
  intros Hparse (t & tn & _ & _ & [[Hv _]|(_ & routes & cidr & _ & _ & Hp)]);
    [done|by eapply Hparse].
Qed.

(** X6. The allowed IPs of a descriptor start with the peer's own valid
    private addresses, IPv4 first, and hold no address or route twice,
    provided no node has the same prefix for both of its addresses and
    the prefixes [netip.ParsePrefix] returns are valid. *)
Theorem WireGuardPeersFor_allowed_ips_distinct deps st peerID peers :
  (forall n, n ∈ vertices (PeersGraph st) -> distinctAddresses n) ->
  (forall cidr p, ParsePrefix deps cidr = Some p -> IsValid p = true) ->
  WireGuardPeersFor deps st peerID = Some (Ok peers) ->
  Forall (fun peer =>
    NoDup (AllowedIps peer) /\
    exists node rest,
      Vertex (PeersGraph st) (PeerId peer) = Some node /\
      AllowedIps peer = (PrefixString <$> ownAddresses node) ++ rest) peers.
Proof.
  intros Hdist Hparse H.
  destruct (FilterGraph (NetworkingNew st) (PeersGraph st) peerID) as [adj|] eqn:Hf;
    [|unfold WireGuardPeersFor in H; by rewrite Hf in H].
  destruct (GetRoutesByNode (NetworkingNew st) peerID) as [routes|] eqn:Hr;
    [|unfold WireGuardPeersFor in H; by rewrite Hf, Hr in H].
  destruct (parsePrefixes deps (destinationCidrs routes)) as [ourRoutes|] eqn:Hp;
    [|unfold WireGuardPeersFor in H; by rewrite Hf, Hr, Hp in H].
  eapply (WireGuardPeersFor_allows _ _ _ _ _ _
    (fun node ips => NoDup ips /\
       Forall (fun p => IsValid p = true) ips /\
       exists rest, ips = ownAddresses node ++ rest)) in H; [|done..|].
  - eapply Forall_impl; [exact H|].
    intros peer (node & ips & Hv & -> & Hnd & Hvalid & rest & ->). split.
    + apply NoDup_fmap_2_strong; [|done].
      rewrite Forall_forall in Hvalid.
      intros p q Hp' Hq'. apply PrefixString_inj; by apply Hvalid.
    + exists node, (PrefixString <$> rest). by rewrite fmap_app.
  - intros node ips rts Hv Hkey Hcall. split_and!.
    + eapply recursePeers_NoDup; [|done]. by eapply Hdist, Vertex_elem.
    + apply Forall_forall. intros p Hp'.
      eapply owedFrom_valid; [done|].
      by eapply (recursePeers_exact _ _ _ _ _ _ (Id node)).
    + by eapply recursePeers_extends.
Qed.

Lemma WireGuardPeersFor_allowed_ips_distinct_witness :
  exists peers,
    WireGuardPeersFor routedDeps routedStorage "a" = Some (Ok peers) /\
    AllowedIps <$> peers
      = [["172.16.0.2/32"; "2001:db8::2/128"; "10.2.0.0/16"; "172.16.0.3/32";
          "10.3.0.0/16"]] /\
    Forall (fun peer =>
      NoDup (AllowedIps peer) /\
      exists node rest,
        Vertex routedGraph (PeerId peer) = Some node /\
        AllowedIps peer = (PrefixString <$> ownAddresses node) ++ rest) peers.
Proof.
  eexists. split; [vm_compute; reflexivity|]. split; [reflexivity|].
  apply (WireGuardPeersFor_allowed_ips_distinct routedDeps routedStorage "a").
  - intros n Hn _. simpl in Hn.
    repeat (apply elem_of_cons in Hn as [->|Hn]; [discriminate|]).
    by apply elem_of_nil in Hn.
  - intros cidr p [= <-]. reflexivity.
  - vm_compute; reflexivity.
Defined.

(** X7. What a descriptor is allowed, exactly. An IP is among the
    allowed IPs of the descriptor of a peer iff it prints a prefix owed by
    a node reached from that peer: a node the peer leads to along edges of
    the filtered graph, without passing the requesting node or another of
    its direct neighbours, through nodes with public keys only. Such a
    node owes its valid private addresses and those destinations of its
    routes that the requesting node does not route itself. *)
Theorem WireGuardPeersFor_allowed_ips_exact deps st peerID adjacencyMap routes
    ourRoutes peers :
  FilterGraph (NetworkingNew st) (PeersGraph st) peerID = Ok adjacencyMap ->
  GetRoutesByNode (NetworkingNew st) peerID = Ok routes ->
  parsePrefixes deps (destinationCidrs routes) = Some ourRoutes ->
  WireGuardPeersFor deps st peerID = Some (Ok peers) ->
  Forall (fun peer => forall ip,
    ip ∈ AllowedIps peer <->
    exists p, ip = PrefixString p /\
      owedFrom deps (NetworkingNew st) (PeersGraph st) adjacencyMap peerID ourRoutes
        (PeerId peer) p) peers.
Proof.
  intros Hf Hr Hp H.
  eapply (WireGuardPeersFor_allows _ _ _ _ _ _
    (fun node ips => forall p, p ∈ ips <->
       owedFrom deps (NetworkingNew st) (PeersGraph st) adjacencyMap peerID ourRoutes
         (Id node) p)) in H; [|done..|].
  - eapply Forall_impl; [exact H|].
    intros peer (node & ips & Hv & -> & Hex) ip.
    rewrite (Vertex_Id _ _ _ Hv) in Hex.
    rewrite list_elem_of_fmap. split.
    + intros (p & -> & Hin). exists p. split; [done|]. by apply Hex.
    + intros (p & -> & Hin). exists p. split; [done|]. by apply Hex.
  - intros node ips rts Hv Hkey Hcall. by eapply recursePeers_exact.
Qed.

Lemma WireGuardPeersFor_allowed_ips_exact_witness :
  exists peers,
    WireGuardPeersFor routedDeps routedStorage "a" = Some (Ok peers) /\
    Forall (fun peer => forall ip,
      ip ∈ AllowedIps peer <->
      exists p, ip = PrefixString p /\
        owedFrom routedDeps (NetworkingNew routedStorage) routedGraph
          (edges routedGraph) "a" [MkPrefix "10.1.0.0/16"] (PeerId peer) p) peers.
Proof.
  eexists. split; [vm_compute; reflexivity|].
  apply (WireGuardPeersFor_allowed_ips_exact routedDeps routedStorage "a"
           (edges routedGraph)
           [{| RouteName := "a-lan"; RouteNode := "a";
               RouteDestinationCidrs := ["10.1.0.0/16"] |}]);
    vm_compute; reflexivity.
Defined.

End DescriptorGrants.

Section Endpoints.
Import GoStrings v1 Netip Peers Meshutil.

Lemma HasPrefix_empty p : HasPrefix "" p = true -> p = "".
Proof. intros [r Hr]%HasPrefix_spec. by destruct p. Qed.

(** X8. The endpoint a descriptor prefers. It is empty when the node has
    no wireguard endpoint and one of them otherwise: the first that
    starts with the node's primary endpoint when that is set and some
    endpoint starts with it, and the first of the list in every other
    case. *)
Theorem preferredEndpoint_spec (node : MeshNode) :
  (WireguardEndpoints node = [] -> preferredEndpoint node = "") /\
  (WireguardEndpoints node <> [] ->
   preferredEndpoint node ∈ WireguardEndpoints node) /\
  (forall pre e post,
     PrimaryEndpoint node <> "" ->
     WireguardEndpoints node = pre ++ e :: post ->
     Forall (fun x => HasPrefix x (PrimaryEndpoint node) = false) pre ->
     HasPrefix e (PrimaryEndpoint node) = true ->
     preferredEndpoint node = e) /\
  (PrimaryEndpoint node = "" \/
   Forall (fun x => HasPrefix x (PrimaryEndpoint node) = false)
     (WireguardEndpoints node) ->
   preferredEndpoint node = hd "" (WireguardEndpoints node)).
Proof.
  unfold preferredEndpoint.
  assert (forall l, Forall (fun x => HasPrefix x (PrimaryEndpoint node) = false) l ->
            List.find (fun endpoint => HasPrefix endpoint (PrimaryEndpoint node)) l = None)
    as Hnone.
  { induction 1 as [|x l Hx _ IH]; simpl; [done|]. by rewrite Hx. }
  assert (forall pre e post,
            Forall (fun x => HasPrefix x (PrimaryEndpoint node) = false) pre ->
            HasPrefix e (PrimaryEndpoint node) = true ->
            List.find (fun endpoint => HasPrefix endpoint (PrimaryEndpoint node))
              (pre ++ e :: post) = Some e) as Hsome.
  { intros pre e post Hpre He. induction Hpre as [|x l Hx _ IH]; simpl.
    - by rewrite He.
    - by rewrite Hx. }
  split_and!.
  - intros ->. simpl. by destruct (negb _).
  - intros Hne.
    destruct (negb (String.eqb (PrimaryEndpoint node) "")); simpl.
    + destruct (List.find _ _) as [e|] eqn:Hfind.
      * apply find_some in Hfind as [Hin _]. apply list_elem_of_In in Hin.
        destruct (String.eqb e "") eqn:E; [|done].
        apply String.eqb_eq in E. subst e.
        destruct (WireguardEndpoints node); [done|]. apply list_elem_of_here.
      * simpl. destruct (WireguardEndpoints node); [done|]. apply list_elem_of_here.
    + destruct (WireguardEndpoints node); [done|]. apply list_elem_of_here.
  - intros pre e post Hprim Heq Hpre He.
    apply String.eqb_neq in Hprim as Hprim'. rewrite Hprim'. cbn [negb].
    rewrite Heq, Hsome by done.
    destruct (String.eqb e "") eqn:E; [|done].
    apply String.eqb_eq in E. subst e. by apply HasPrefix_empty in He.
  - intros [->|Hall].
    + simpl. by destruct (WireguardEndpoints node).
    + rewrite Hnone by done.
      destruct (negb _); simpl; by destruct (WireguardEndpoints node).
Qed.

End Endpoints.

Section WellFormedStorage.
Import GoStrings v1 Netip Peers Meshutil.

Variable deps : Deps.
Variable nw : Networking.
Variable graph : Graph.
Variable adjacencyMap : AdjacencyMap.
Variable thisPeer : string.
Variable thisRoutes : list Prefix.

(** The routes of every node can be read and their destinations parse. *)
Definition routesParse : Prop :=
  forall id, exists routes,
    GetRoutesByNode nw id = Ok routes /\
    Forall (fun cidr => is_Some (ParsePrefix deps cidr)) (destinationCidrs routes).

(** Every node an edge leads to has a record. *)
Definition targetsStored : Prop :=
  forall t, t ∈ targetIds adjacencyMap -> is_Some (Vertex graph t).

(** A recursive call that succeeds whenever fewer than [n] ids are
    left to visit, and only adds to [visited]. *)
Definition succeedsBelow (rec : MeshNode -> gset string -> outcome edgesResult)
  (n : nat) : Prop :=
  forall node v, (size (universe adjacencyMap ∖ v) < n)%nat ->
    exists ips rts v', rec node v = Some (Ok (ips, rts, v')) /\ v ⊆ v'.

Hypothesis Hroutes : routesParse.
Hypothesis Htargets : targetsStored.

Lemma appendRoutes_parses cidrs l :
  Forall (fun cidr => is_Some (ParsePrefix deps cidr)) cidrs ->
  is_Some (appendRoutes deps thisRoutes cidrs l).
Proof.
  intros H. revert l. induction H as [|cidr cidrs [p Hp] _ IH]; intros l; simpl.
  - by eexists.
  - rewrite Hp. apply IH.
Qed.

Lemma visitTargets_succeeds rec n :
  succeedsBelow rec n ->
  forall targets ips rts visited,
    (forall t e, (t, e) ∈ targets -> t ∈ universe adjacencyMap) ->
    (size (universe adjacencyMap ∖ visited) <= n)%nat ->
    exists ips' rts' v',
      visitTargets deps nw graph adjacencyMap thisPeer thisRoutes rec
        targets ips rts visited = Some (Ok (ips', rts', v')) /\
      visited ⊆ v'.
Proof.
  intros Hrec. induction targets as [|[t e] targets IH]; intros ips rts visited Hin Hsize.
  - simpl. by eexists _, _, _.
  - assert (forall t' e', (t', e') ∈ targets -> t' ∈ universe adjacencyMap) as Hin'
      by (intros; eapply Hin; by right).
    assert (t ∈ universe adjacencyMap) as Ht by (eapply Hin; by left).
    simpl.
    destruct (String.eqb t thisPeer); [by apply IH|].
    destruct (hasEdge _ t); [by apply IH|].
    destruct (bool_decide (t ∈ visited)) eqn:Hvis; [by apply IH|].
    apply bool_decide_eq_false in Hvis.
    destruct (Htargets t) as [tn ->].
    { by apply elem_of_list_to_set in Ht. }
    assert (forall v', {[t]} ∪ visited ⊆ v' ->
            (size (universe adjacencyMap ∖ v') <= n)%nat) as Hmono.
    { intros v' Hv'. etrans; [|exact Hsize]. apply subseteq_size. set_solver. }
    destruct (String.eqb (PublicKey tn) "").
    { destruct (IH ips rts ({[t]} ∪ visited) Hin') as (i & r & v' & Hr & Hsub);
        [by apply Hmono|].
      exists i, r, v'. split; [done|]. set_solver. }
    destruct (Hroutes (Id tn)) as (routes & -> & Hparse).
    destruct (appendRoutes_parses (destinationCidrs routes)
      (appendValid (appendValid ips (PrivateAddrV4 tn)) (PrivateAddrV6 tn)) Hparse)
      as [l ->].
    destruct (Hrec tn ({[t]} ∪ visited)) as (ips1 & rts1 & v1 & -> & Hsub).
    { eapply Nat.lt_le_trans; [|exact Hsize]. apply subset_size. set_solver. }
    destruct (IH (appendNew l ips1) (appendNew rts rts1) v1 Hin')
      as (i & r & v' & Hr & Hsub'); [by apply Hmono|].
    exists i, r, v'. split; [done|]. set_solver.
Qed.

Lemma recurseEdges_succeeds budget :
  succeedsBelow (recurseEdges deps nw graph adjacencyMap thisPeer thisRoutes budget) budget.
Proof.
  induction budget as [|budget IH]; intros node v Hsize; [lia|].
  simpl.
  destruct (visitTargets_succeeds _ budget IH (adjacents adjacencyMap (Id node))
              [] [] ({[Id node]} ∪ v)) as (i & r & v' & Hr & Hsub).
  - intros t e. apply target_in_universe.
  - etrans; [apply subseteq_size|apply Nat.lt_succ_r, Hsize]. set_solver.
  - exists i, r, v'. split; [done|]. set_solver.
Qed.

Lemma recursePeers_succeeds node :
  exists ips rts,
    recursePeers deps nw graph adjacencyMap thisPeer thisRoutes node = Some (Ok (ips, rts)).
Proof.
  unfold recursePeers.
  destruct (Hroutes (Id node)) as (routes & -> & Hparse).
  destruct (appendRoutes_parses (destinationCidrs routes)
    (appendValid (appendValid [] (PrivateAddrV4 node)) (PrivateAddrV6 node)) Hparse)
    as [l ->].
  destruct (recurseEdges_succeeds (recursionBudget adjacencyMap) node ∅)
    as (i & r & v' & -> & _).
  - unfold recursionBudget. apply Nat.lt_succ_r.
    etrans; [|apply (size_list_to_set_le (targetIds adjacencyMap))].
    apply subseteq_size. unfold universe. set_solver.
  - by eexists _, _.
Qed.

Lemma peersOfAdjacents_succeeds das out :
  (forall t e, (t, e) ∈ das -> t ∈ targetIds adjacencyMap) ->
  exists peers,
    peersOfAdjacents deps nw graph adjacencyMap thisPeer thisRoutes das out
      = Some (Ok peers).
Proof.
  revert out. induction das as [|[t e] das IH]; intros out Hin; simpl.
  - by eexists.
  - assert (forall t' e', (t', e') ∈ das -> t' ∈ targetIds adjacencyMap) as Hin'
      by (intros; eapply Hin; by right).
    destruct (Htargets t) as [tn ->]; [eapply Hin; by left|].
    destruct (String.eqb (PublicKey tn) ""); [by apply IH|].
    destruct (recursePeers_succeeds tn) as (ips & rts & ->).
    by apply IH.
Qed.

End WellFormedStorage.

Section Failures.
Import GoStrings v1 Netip Peers Meshutil.

(** A mesh in which [a] has an edge to [ghost], a node without a
    record. *)
Definition danglingStorage : MeshStorage :=
  {| PeersGraph :=
       {| vertices := vertices routedGraph;
          edges := [("a", [("b", {| EdgeSource := "a"; EdgeTarget := "b";
                                    EdgeWeight := 1; EdgeAttributes := [] |});
                           ("ghost", {| EdgeSource := "a"; EdgeTarget := "ghost";
                                        EdgeWeight := 1; EdgeAttributes := [] |})])] |};
     NetworkingNew := NetworkingNew routedStorage |}.

Lemma peersOfAdjacents_dangling deps nw graph adjacencyMap peerID ourRoutes das out t e :
  (t, e) ∈ das -> Vertex graph t = None ->
  exists err,
    peersOfAdjacents deps nw graph adjacencyMap peerID ourRoutes das out = Some (Err err).
Proof.
  intros Hin Hv. revert out.
  induction das as [|[t' e'] das IH]; intros out; [by apply elem_of_nil in Hin|].
  simpl. destruct (Vertex graph t') as [tn|] eqn:Hv'; [|by eexists].
  apply elem_of_cons in Hin as [[= -> ->]|Hin]; [congruence|].
  destruct (String.eqb (PublicKey tn) ""); [by apply IH|].
  pose proof (recursePeers_total deps nw graph adjacencyMap peerID ourRoutes tn) as Htot.
  destruct (recursePeers _ _ _ _ _ _ tn) as [[[ips rts]|]|]; [|by eexists|done].
  by apply IH.
Qed.

(** X9. [WireGuardPeersFor] succeeds on a well-formed storage: when the
    resolver returns a filtered graph, every node an edge of it leads to
    has a record, and the routes of every node can be read and their
    destinations parse, the call returns a list of descriptors. *)
Theorem WireGuardPeersFor_succeeds deps st peerID adjacencyMap :
  FilterGraph (NetworkingNew st) (PeersGraph st) peerID = Ok adjacencyMap ->
  routesParse deps (NetworkingNew st) ->
  targetsStored (PeersGraph st) adjacencyMap ->
  exists peers, WireGuardPeersFor deps st peerID = Some (Ok peers).
Proof.
  intros Hf Hroutes Htargets. unfold WireGuardPeersFor. rewrite Hf.
  destruct (Hroutes peerID) as (routes & -> & Hparse).
  assert (is_Some (parsePrefixes deps (destinationCidrs routes))) as [ourRoutes ->].
  { unfold parsePrefixes. by apply mapM_is_Some. }
  apply peersOfAdjacents_succeeds; [done..|].
  intros t e Hin. by apply (target_in_universe _ peerID t e), elem_of_list_to_set in Hin.
Qed.

Lemma WireGuardPeersFor_succeeds_witness :
  exists peers, WireGuardPeersFor routedDeps routedStorage "b" = Some (Ok peers).
Proof.
  apply (WireGuardPeersFor_succeeds routedDeps routedStorage "b" (edges routedGraph)).
  - reflexivity.
  - intros id. eexists. split; [reflexivity|].
    apply Forall_forall. intros cidr _. by eexists.
  - intros t Ht. simpl in Ht.
    repeat (apply elem_of_cons in Ht as [->|Ht]; [by eexists|]).
    by apply elem_of_nil in Ht.
Defined.

(** X10. An edge to a node without a record fails the whole call: when
    the requesting node's entry of the filtered graph holds an adjacent
    that [graph.Vertex] does not find, [WireGuardPeersFor] returns an
    error and no descriptor, whatever the other adjacents are. *)
Theorem WireGuardPeersFor_dangling_edge deps st peerID adjacencyMap t e :
  FilterGraph (NetworkingNew st) (PeersGraph st) peerID = Ok adjacencyMap ->
  (t, e) ∈ adjacents adjacencyMap peerID ->
  Vertex (PeersGraph st) t = None ->
  exists err, WireGuardPeersFor deps st peerID = Some (Err err).
Proof.
  intros Hf Hin Hv. unfold WireGuardPeersFor. rewrite Hf.
  destruct (GetRoutesByNode _ _); [|by eexists].
  destruct (parsePrefixes _ _); [|by eexists].
  by eapply peersOfAdjacents_dangling.
Qed.

Lemma WireGuardPeersFor_dangling_edge_witness :
  exists err, WireGuardPeersFor routedDeps danglingStorage "a" = Some (Err err).
Proof.
  apply (WireGuardPeersFor_dangling_edge routedDeps danglingStorage "a"
           (edges (PeersGraph danglingStorage)) "ghost"
           {| EdgeSource := "a"; EdgeTarget := "ghost"; EdgeWeight := 1;
              EdgeAttributes := [] |}).
  - reflexivity.
  - apply list_elem_of_further, list_elem_of_here.
  - reflexivity.
Defined.

End Failures.

(** ** The observer over a stream of observations *)

Section ObserverRuns.
Import Raft Store.

(** [ev] is a failed heartbeat of [id]. *)
Definition isFailureOf (id : string) (ev : Observation) : bool :=
  match ev with
  | FailedHeartbeatObservation peerID => String.eqb peerID id
  | _ => false
  end.

(** The store [s'] still has what [s] holds under [id]: its servers
    and its node record. *)
Definition keeps (s s' : store) (id : string) : Prop :=
  (forall srv, srv ∈ Servers s -> ServerID srv = id -> srv ∈ Servers s') /\
  (id ∈ NodeRecords s -> id ∈ NodeRecords s').

(** The node [id] is gone from the store: no server of the
    configuration bears it and it has no node record. *)
Definition gone (s : store) (id : string) : Prop :=
  (id ∉ (ServerID <$> Servers s)) /\ (id ∉ NodeRecords s).

(** A follower, for closed examples. *)
Definition followerStore : store :=
  {| testStore := false; IsLeader := false;
     Servers := Servers leaderStore; NodeRecords := NodeRecords leaderStore |}.

Lemma handle_removal s fh ev c id :
  c ∈ (handle s fh ev).2 -> c = RemoveServer id \/ c = PeersDelete id ->
  ev = FailedHeartbeatObservation id /\ 30 < count fh id /\
  IsLeader s = true /\ nonvoter s id.
Proof.
  intros Hc Hrem. destruct ev as [| |removed peer|leaderID|peerID|peerID]; simpl in Hc.
  - by apply elem_of_nil in Hc.
  - by apply elem_of_nil in Hc.
  - repeat case_match; set_solver.
  - repeat case_match; set_solver.
  - by apply elem_of_nil in Hc.
  - destruct (30 <? count fh peerID) eqn:E.
    + simpl in Hc. destruct (IsLeader s) eqn:Hl; [|by apply elem_of_nil in Hc].
      apply removal_calls_elem in Hc as [Hc Hnv].
      assert (peerID = id) as -> by naive_solver.
      split_and!; [done|by apply Z.ltb_lt|done|done].
    + destruct (count fh peerID =? 0); by apply elem_of_nil in Hc.
Qed.

Lemma perform_same s calls :
  (forall c id, c ∈ calls -> c <> RemoveServer id /\ c <> PeersDelete id) ->
  fold_left perform calls s = s.
Proof.
  revert s. induction calls as [|c calls IH]; intros s Hno; simpl; [done|].
  assert (perform s c = s) as ->.
  { destruct c as [| | id| id]; try done;
      destruct (Hno _ id (list_elem_of_here _ _)); done. }
  apply IH. intros c' id Hc'. apply Hno. by right.
Qed.

Lemma perform_keeps s calls id :
  RemoveServer id ∉ calls -> PeersDelete id ∉ calls ->
  keeps s (fold_left perform calls s) id.
Proof.
  intros Hr Hd. split.
  - intros srv Hsrv Hid. apply perform_servers. by rewrite Hid.
  - intros Hin. by apply perform_records.
Qed.

Lemma keeps_trans s1 s2 s3 id : keeps s1 s2 id -> keeps s2 s3 id -> keeps s1 s3 id.
Proof.
  intros [H1 H2] [H3 H4]. split; [|tauto].
  intros srv Hsrv Hid. apply H3; [by apply H1|done].
Qed.

Lemma perform_shrinks s calls srv :
  srv ∈ Servers (fold_left perform calls s) -> srv ∈ Servers s.
Proof. by intros [? _]%perform_servers. Qed.

Lemma handle_bounded s fh ev :
  map_Forall (fun _ n => 1 <= n <= 31) fh ->
  map_Forall (fun _ n => 1 <= n <= 31) (handle s fh ev).1.
Proof.
  intros Hfh. destruct ev as [| |removed peer|leaderID|peerID|peerID]; simpl;
    try done; try (by repeat case_match).
  destruct (30 <? count fh peerID) eqn:E; simpl.
  - by apply map_Forall_delete.
  - apply Z.ltb_ge in E.
    destruct (count fh peerID =? 0) eqn:E0; simpl.
    + apply map_Forall_insert_2; [lia|done].
    + apply Z.eqb_neq in E0. apply map_Forall_insert_2; [|done].
      unfold count in *. destruct (fh !! peerID) as [n|] eqn:Hn; simpl in *; [|done].
      apply Hfh in Hn. simpl in Hn. lia.
Qed.

Lemma observeFrom_bounded s fh events :
  map_Forall (fun _ n => 1 <= n <= 31) fh ->
  map_Forall (fun _ n => 1 <= n <= 31) (observeFrom s fh events).2.
Proof.
  revert s fh. induction events as [|ev events IH]; intros s fh Hfh; simpl; [done|].
  by apply IH, handle_bounded.
Qed.

(** X11. The failure counters stay within bounds. Whatever observations
    the observer receives, every counter it holds lies between 1 and 31:
    a counter is created at 1, raised by one while it is at most 30, and
    dropped by the next failed heartbeat after that. A node without a
    counter reads as 0. *)
Theorem observe_counters_bounded s events :
  map_Forall (fun _ n => 1 <= n <= 31) (observe s events).2 /\
  forall id, 0 <= count (observe s events).2 id <= 31.
Proof.
  assert (map_Forall (fun _ n => 1 <= n <= 31) (observe s events).2) as H
    by apply (observeFrom_bounded s ∅ events (map_Forall_empty _)).
  split; [done|]. intros id. unfold count.
  destruct (_ !! id) as [n|] eqn:Hn; simpl; [|lia].
  apply H in Hn. simpl in Hn. lia.
Qed.

Lemma observeFrom_follower s fh events :
  IsLeader s = false -> (observeFrom s fh events).1 = s.
Proof.
  revert s fh. induction events as [|ev events IH]; intros s fh Hl; simpl; [done|].
  rewrite perform_same; [by apply IH|].
  intros c id Hc. split; intros ->.
  - apply (handle_removal _ _ _ _ id) in Hc as (_ & _ & Hl' & _); [congruence|by left].
  - apply (handle_removal _ _ _ _ id) in Hc as (_ & _ & Hl' & _); [congruence|by right].
Qed.

(** X12. Only the leader removes. On a node that is not the leader the
    observer changes neither the raft configuration nor the node
    records, whatever it observes and however many heartbeats fail. *)
Theorem observe_follower_removes_nothing s events :
  IsLeader s = false -> (observe s events).1 = s.
Proof. apply observeFrom_follower. Qed.

Lemma observe_follower_removes_nothing_witness :
  (observe followerStore (failures 40)).1 = followerStore.
Proof. apply (observe_follower_removes_nothing followerStore (failures 40)). reflexivity. Defined.

Lemma observeFrom_keeps_voters s fh events id :
  ~ nonvoter s id -> keeps s (observeFrom s fh events).1 id.
Proof.
  revert s fh. induction events as [|ev events IH]; intros s fh Hnv; simpl.
  - by split.
  - eapply keeps_trans; [|apply IH].
    + apply perform_keeps; intros Hc.
      * apply (handle_removal _ _ _ _ id) in Hc as (_ & _ & _ & H); [done|by left].
      * apply (handle_removal _ _ _ _ id) in Hc as (_ & _ & _ & H); [done|by right].
    + intros (srv & Hsrv & Hid & Hsuf). apply Hnv.
      exists srv. split; [by eapply perform_shrinks|done].
Qed.

(** X13. The observer removes non-voters only. A node whose id no
    non-voter of the raft configuration bears keeps its servers and its
    node record over every stream of observations, even as leader and
    after any number of failed heartbeats. *)
Theorem observe_keeps_voters s events id :
  ~ nonvoter s id -> keeps s (observe s events).1 id.
Proof. apply observeFrom_keeps_voters. Qed.

Lemma observe_keeps_voters_witness :
  keeps leaderStore
    (observe leaderStore (replicate 40 (FailedHeartbeatObservation "leader"))).1
    "leader".
Proof.
  apply (observe_keeps_voters leaderStore
           (replicate 40 (FailedHeartbeatObservation "leader")) "leader").
  intros (srv & Hsrv & Hid & Hsuf). simpl in Hsrv.
  repeat (apply elem_of_cons in Hsrv as [->|Hsrv]; [discriminate|]).
  by apply elem_of_nil in Hsrv.
Defined.

Lemma handle_count_other s fh ev id :
  isFailureOf id ev = false -> count (handle s fh ev).1 id = count fh id.
Proof.
  intros Hev. destruct ev as [| |removed peer|leaderID|peerID|peerID]; simpl;
    try done; try (by repeat case_match).
  simpl in Hev. apply String.eqb_neq in Hev. unfold count.
  repeat case_match; simpl;
    by rewrite ?lookup_delete_ne, ?lookup_insert_ne by done.
Qed.

Lemma observeFrom_keeps_below s fh events id :
  count fh id + Z.of_nat (length (List.filter (isFailureOf id) events)) <= 31 ->
  keeps s (observeFrom s fh events).1 id.
Proof.
  revert s fh. induction events as [|ev events IH]; intros s fh Hle; simpl.
  - by split.
  - simpl in Hle. eapply keeps_trans; [|apply IH].
    + apply perform_keeps; intros Hc.
      * apply (handle_removal _ _ _ _ id) in Hc as (-> & Hc & _); [|by left].
        simpl in Hle. rewrite String.eqb_refl in Hle. simpl in Hle. lia.
      * apply (handle_removal _ _ _ _ id) in Hc as (-> & Hc & _); [|by right].
        simpl in Hle. rewrite String.eqb_refl in Hle. simpl in Hle. lia.
    + destruct (isFailureOf id ev) eqn:Hev.
      * destruct ev; try done. simpl in Hev. apply String.eqb_eq in Hev as ->.
        simpl in Hle |- *.
        assert ((30 <? count fh id) = false) as -> by (apply Z.ltb_ge; lia).
        destruct (count fh id =? 0) eqn:E0; simpl; rewrite count_insert.
        -- apply Z.eqb_eq in E0. lia.
        -- lia.
      * by rewrite handle_count_other.
Qed.

(** X14. Nothing is removed before the thirty-second failure. While the
    observer has received fewer than 32 failed heartbeats of a node, in
    a row or not and whatever else it observed, that node keeps its
    servers and its node record. *)
Theorem observe_keeps_below_32_failures s events id :
  (length (List.filter (isFailureOf id) events) < 32)%nat ->
  keeps s (observe s events).1 id.
Proof.
  intros Hlt. apply observeFrom_keeps_below.
  unfold count. rewrite lookup_empty. simpl. lia.
Qed.

Lemma observe_keeps_below_32_failures_witness :
  keeps leaderStore
    (observe leaderStore
       (failures 20 ++ [ResumedHeartbeatObservation "peer"] ++ failures 11)).1
    "peer".
Proof.
  apply (observe_keeps_below_32_failures leaderStore
           (failures 20 ++ [ResumedHeartbeatObservation "peer"] ++ failures 11) "peer").
  vm_compute. lia.
Defined.

Lemma perform_leader s calls : IsLeader (fold_left perform calls s) = IsLeader s.
Proof.
  revert s. induction calls as [|c calls IH]; intros s; simpl; [done|].
  rewrite IH. by destruct c.
Qed.

Lemma perform_gone s calls id : gone s id -> gone (fold_left perform calls s) id.
Proof.
  intros [Hs Hr]. split.
  - intros (srv & Hid & Hsrv)%list_elem_of_fmap. apply Hs.
    apply list_elem_of_fmap. exists srv. split; [done|by eapply perform_shrinks].
  - intros [Hin _]%perform_records. by apply Hr.
Qed.

Lemma handle_removes s fh id :
  IsLeader s = true -> nonvoter s id -> 30 < count fh id ->
  gone (fold_left perform (handle s fh (FailedHeartbeatObservation id)).2 s) id.
Proof.
  intros Hl Hnv Hc. simpl.
  assert ((30 <? count fh id) = true) as -> by by apply Z.ltb_lt.
  rewrite Hl. simpl. split.
  - intros (srv & Hid & Hsrv)%list_elem_of_fmap.
    apply perform_servers in Hsrv as [_ Hno]. apply Hno.
    apply removal_calls_elem. split; [left; by rewrite Hid|done].
  - intros [_ Hno]%perform_records. apply Hno.
    apply removal_calls_elem. split; [by right|done].
Qed.

Lemma handle_counts s fh id :
  0 <= count fh id <= 30 ->
  (handle s fh (FailedHeartbeatObservation id)).2 = [] /\
  count (handle s fh (FailedHeartbeatObservation id)).1 id = count fh id + 1.
Proof.
  intros Hc. simpl.
  assert ((30 <? count fh id) = false) as -> by (apply Z.ltb_ge; lia).
  destruct (count fh id =? 0) eqn:E0; simpl; rewrite count_insert; [|done].
  apply Z.eqb_eq in E0. split; [done|lia].
Qed.

Lemma handle_keeps_other s fh ev id :
  isFailureOf id ev = false ->
  keeps s (fold_left perform (handle s fh ev).2 s) id.
Proof.
  intros Hev. apply perform_keeps; intros Hc.
  - apply (handle_removal _ _ _ _ id) in Hc as (-> & _); [|by left].
    simpl in Hev. by rewrite String.eqb_refl in Hev.
  - apply (handle_removal _ _ _ _ id) in Hc as (-> & _); [|by right].
    simpl in Hev. by rewrite String.eqb_refl in Hev.
Qed.

Lemma keeps_nonvoter s s' id : keeps s s' id -> nonvoter s id -> nonvoter s' id.
Proof.
  intros [Hk _] (srv & Hsrv & Hid & Hsuf). exists srv. split; [by apply Hk|done].
Qed.

Lemma observeFrom_gone s fh events id :
  gone s id -> gone (observeFrom s fh events).1 id.
Proof.
  revert s fh. induction events as [|ev events IH]; intros s fh Hg; simpl; [done|].
  by apply IH, perform_gone.
Qed.

Lemma observeFrom_removes s fh events id :
  IsLeader s = true -> nonvoter s id -> 0 <= count fh id <= 31 ->
  32 <= count fh id + Z.of_nat (length (List.filter (isFailureOf id) events)) ->
  gone (observeFrom s fh events).1 id.
Proof.
  revert s fh. induction events as [|ev events IH]; intros s fh Hl Hnv Hb Hle; simpl.
  - simpl in Hle. lia.
  - simpl in Hle. destruct (isFailureOf id ev) eqn:Hev.
    + destruct ev; try done. simpl in Hev. apply String.eqb_eq in Hev as ->.
      destruct (decide (30 < count fh id)) as [Hc|Hc].
      * by apply observeFrom_gone, handle_removes.
      * destruct (handle_counts s fh id) as [Hcalls Hcount]; [lia|].
        rewrite Hcalls. simpl fold_left. apply IH; [done|done|lia|].
        rewrite Hcount. simpl in Hle. lia.
    + apply IH.
      * by rewrite perform_leader.
      * eapply keeps_nonvoter; [by apply handle_keeps_other|done].
      * by rewrite handle_count_other.
      * by rewrite handle_count_other.
Qed.

(** X29. Thirty-two failed heartbeats remove a non-voter. On a node
    that is the leader, with removal calls that succeed, a non-voter of
    which the observer has received 32 failed heartbeats or more is gone
    when the observations are consumed: no server of the configuration
    bears its id and its node record is deleted. The failures need not
    come in a row: resumed heartbeats and observations of other nodes in
    between change nothing. *)
Theorem observe_removes_after_32_failures s events id :
  IsLeader s = true -> nonvoter s id ->
  (32 <= length (List.filter (isFailureOf id) events))%nat ->
  gone (observe s events).1 id.
Proof.
  intros Hl Hnv Hle. apply observeFrom_removes; [done|done| |];
    unfold count; rewrite lookup_empty; simpl; lia.
Qed.

Lemma observe_removes_after_32_failures_witness :
  gone (observe leaderStore
          (failures 16 ++ [ResumedHeartbeatObservation "peer";
                           FailedHeartbeatObservation "leader"] ++ failures 16)).1
    "peer".
Proof.
  apply (observe_removes_after_32_failures leaderStore
           (failures 16 ++ [ResumedHeartbeatObservation "peer";
                            FailedHeartbeatObservation "leader"] ++ failures 16) "peer").
  - reflexivity.
  - eexists. split; [apply list_elem_of_further, list_elem_of_here|]. by split.
  - vm_compute. lia.
Defined.

End ObserverRuns.

(** ** The leave RPC on every path *)

Section LeavePaths.
Import Raft Membership.

Lemma authorized_inv s ctx id :
  authorized s ctx id = true ->
  insecure s = true \/ ProxiedFor ctx = Some id \/
  (ProxiedFor ctx = None /\ AuthenticatedCaller ctx = Some id).
Proof.
  unfold authorized. destruct (insecure s); simpl; [by left|].
  destruct (ProxiedFor ctx) as [p|].
  - intros ->%String.eqb_eq. by right; left.
  - destruct (AuthenticatedCaller ctx) as [p|]; [|done].
    intros ->%String.eqb_eq. by right; right.
Qed.

(** X15. [Leave] removes nobody but the caller. Whenever it calls
    [RemoveServer] or [peers.Delete], the id passed is that of the
    request, the server is the leader, and the server is insecure, or the
    request was proxied for that id, or (no proxy header present) the
    authenticated caller bears that id: a proxy header takes precedence
    over the caller's own identity. *)
Theorem Leave_removes_only_the_caller s ctx id c x :
  c ∈ (Leave s ctx id).1 ->
  c = RemoveServer x \/ c = PeersDelete x ->
  x = id /\ id <> "" /\ IsLeader s = true /\
  (insecure s = true \/ ProxiedFor ctx = Some id \/
   (ProxiedFor ctx = None /\ AuthenticatedCaller ctx = Some id)).
Proof.
  unfold Leave. intros Hc Hx.
  destruct (String.eqb id "") eqn:Hid; [by apply elem_of_nil in Hc|].
  apply String.eqb_neq in Hid.
  destruct (IsLeader s); simpl in Hc; [|by apply elem_of_nil in Hc].
  destruct (authorized s ctx id) eqn:Hauth; simpl in Hc; [|set_solver].
  apply authorized_inv in Hauth.
  assert (x = id); [|done].
  destruct (Configuration s) as [servers|]; [|set_solver].
  destruct (existsb _ servers); simpl in Hc;
    repeat case_match; set_solver.
Qed.

Lemma Leave_removes_only_the_caller_witness :
  "node-a" = "node-a" /\ "node-a" <> "" /\ IsLeader leavingServer = true /\
  (insecure leavingServer = true \/ ProxiedFor (callerIs "node-a") = Some "node-a" \/
   (ProxiedFor (callerIs "node-a") = None /\
    AuthenticatedCaller (callerIs "node-a") = Some "node-a")).
Proof.
  apply (Leave_removes_only_the_caller leavingServer (callerIs "node-a") "node-a"
           (RemoveServer "node-a") "node-a").
  - vm_compute. apply list_elem_of_further, list_elem_of_here.
  - by left.
Defined.

(** X16. The lock and the barrier on every path. [Leave] makes no call
    at all when the id is empty or the server is not the leader;
    otherwise its calls start with [Lock] and end with the deferred
    [Unlock], with neither in between, errors included. A barrier is sent
    exactly when [RemoveServer] was called, even if that call failed, and
    a request that is answered without error has had its node record
    deleted. *)
Theorem Leave_lock_and_barrier s ctx id :
  let calls := (Leave s ctx id).1 in
  (calls = [] <-> id = "" \/ IsLeader s = false) /\
  (calls = [] \/
   exists mid, calls = Lock :: mid ++ [Unlock] /\ (Lock ∉ mid) /\ (Unlock ∉ mid)) /\
  (Barrier 15 ∈ calls <-> RemoveServer id ∈ calls) /\
  ((Leave s ctx id).2 = None -> PeersDelete id ∈ calls).
Proof.
  unfold Leave.
  destruct (String.eqb id "") eqn:Hid.
  { apply String.eqb_eq in Hid. simpl. split_and!; [naive_solver|by left|set_solver|done]. }
  apply String.eqb_neq in Hid.
  destruct (IsLeader s); simpl.
  2: { split_and!; [naive_solver|by left|set_solver|done]. }
  destruct (authorized s ctx id); simpl.
  2: { split_and!; [naive_solver| |set_solver|done].
       right. exists []. set_solver. }
  destruct (Configuration s) as [servers|]; simpl.
  2: { split_and!; [naive_solver| |set_solver|done].
       right. exists []. set_solver. }
  destruct (existsb _ servers); simpl.
  - destruct (RemoveServerErr s); simpl.
    + split_and!; [naive_solver| |set_solver|done].
      right. exists [RemoveServer id; Barrier 15]. set_solver.
    + destruct (DeleteErr s); simpl.
      * split_and!; [naive_solver| |set_solver|done].
        right. exists [RemoveServer id; PeersDelete id; Barrier 15]. set_solver.
      * split_and!; [naive_solver| |set_solver|set_solver].
        right. exists [RemoveServer id; PeersDelete id; Barrier 15]. set_solver.
  - destruct (DeleteErr s); simpl.
    + split_and!; [naive_solver| |set_solver|done].
      right. exists [PeersDelete id]. set_solver.
    + split_and!; [naive_solver| |set_solver|set_solver].
      right. exists [PeersDelete id]. set_solver.
Qed.

End LeavePaths.

(** ** [equality.go]: what the comparisons decide *)

Section PeerEquality.
Import Mesh.

(** The fields [WireGuardPeerEqual] compares as they stand. *)
Definition sameScalars (a b : WireGuardPeer) : Prop :=
  Id a = Id b /\ PublicKey a = PublicKey b /\
  PrimaryEndpoint a = PrimaryEndpoint b /\
  ZoneAwarenessId a = ZoneAwarenessId b /\
  AddressIpv4 a = AddressIpv4 b /\ AddressIpv6 a = AddressIpv6 b /\
  Proto a = Proto b /\ Features a = Features b.

(** The peers agree up to the order of their endpoints, allowed IPs and
    allowed routes. *)
Definition equivalent (a b : WireGuardPeer) : Prop :=
  sameScalars a b /\
  WireguardEndpoints a ≡ₚ WireguardEndpoints b /\
  AllowedIps a ≡ₚ AllowedIps b /\
  AllowedRoutes a ≡ₚ AllowedRoutes b.

(** What [WireGuardPeerEqual] equates: nil with nil, and two peers
    that are equivalent. *)
Definition samePeer (p q : option WireGuardPeer) : Prop :=
  match p, q with
  | None, None => True
  | Some a, Some b => equivalent a b
  | _, _ => False
  end.

(** The order [sort.Sort] leaves the peers in. *)
Definition byId (p q : option WireGuardPeer) : Prop := Less q p = false.

Lemma FeaturePortEqual_eq a b : FeaturePortEqual a b = true <-> a = b.
Proof.
  destruct a as [[fa pa]|], b as [[fb pb]|]; simpl; try done.
  rewrite andb_true_iff, !Z.eqb_eq. naive_solver.
Qed.

Lemma featurePortsLoop_eq a b :
  length a = length b -> featurePortsLoop a b = true <-> a = b.
Proof.
  revert b. induction a as [|x a IH]; intros [|y b] Hlen; simpl in *; try done.
  destruct (FeaturePortEqual x y) eqn:E; simpl.
  - apply FeaturePortEqual_eq in E as ->. rewrite IH by lia. naive_solver.
  - split; [done|]. intros [= -> _].
    assert (FeaturePortEqual y y = true) by by apply FeaturePortEqual_eq.
    congruence.
Qed.

Lemma FeaturePortsEqual_decides a b : FeaturePortsEqual a b = true <-> a = b.
Proof.
  unfold FeaturePortsEqual. destruct (length a =? length b)%nat eqn:E; simpl.
  - apply Nat.eqb_eq in E. by apply featurePortsLoop_eq.
  - apply Nat.eqb_neq in E. split; [done|]. intros ->. done.
Qed.

(** X17. [FeaturePortsEqual] decides equality of the two lists, entry
    by entry and in order: it is true exactly when they have the same
    length and hold the same feature ports (or nil) at every index, so
    the same ports listed in another order are unequal. *)
Theorem FeaturePortsEqual_eq a b :
  (FeaturePortsEqual a b = true <-> a = b) /\
  (a ≡ₚ b -> a <> b -> FeaturePortsEqual a b = false).
Proof.
  split; [apply FeaturePortsEqual_decides|].
  intros _ Hne. destruct (FeaturePortsEqual a b) eqn:E; [|done].
  by apply FeaturePortsEqual_decides in E.
Qed.

Lemma sortStrings_perm l : sortStrings l ≡ₚ l.
Proof. apply merge_sort_Permutation. Qed.

Lemma sortStrings_sorted l : StronglySorted String.le (sortStrings l).
Proof. apply StronglySorted_merge_sort; apply _. Qed.

(** The increasing arrangement is unique: whatever algorithm
    [sort.Strings] runs, this is its result. *)
Lemma sortStrings_unique l l' :
  l' ≡ₚ l -> StronglySorted String.le l' -> l' = sortStrings l.
Proof.
  intros Hp Hs. apply (StronglySorted_unique String.le); [done|apply sortStrings_sorted|].
  by rewrite sortStrings_perm.
Qed.

Lemma slicesEqual_sorted a b :
  slicesEqual (sortStrings a) (sortStrings b) = true <-> a ≡ₚ b.
Proof.
  unfold slicesEqual. rewrite bool_decide_eq_true. split.
  - intros H. by rewrite <- (sortStrings_perm a), H, sortStrings_perm.
  - intros H. apply sortStrings_unique; [|apply sortStrings_sorted].
    by rewrite sortStrings_perm.
Qed.

Lemma WireGuardPeerEqual_verdict (a b : WireGuardPeer) :
  (WireGuardPeerEqual (Some a) (Some b)).1.1 = true <-> equivalent a b.
Proof.
  unfold WireGuardPeerEqual, equivalent, sameScalars. cbn [fst snd sortLists
    Id PublicKey PrimaryEndpoint ZoneAwarenessId AddressIpv4 AddressIpv6 Proto
    Features WireguardEndpoints AllowedIps AllowedRoutes].
  rewrite !andb_true_iff, !String.eqb_eq, Z.eqb_eq, FeaturePortsEqual_decides,
    !slicesEqual_sorted.
  tauto.
Qed.

(** X18. [WireGuardPeerEqual] compares two peers up to the order of
    their lists: it is true iff they agree on id, public key, primary
    endpoint, zone, both addresses, protocol and features, and their
    wireguard endpoints, allowed IPs and allowed routes are permutations
    of each other. The call leaves these three lists of both peers
    sorted in increasing order; a nil peer equals only nil. *)
Theorem WireGuardPeerEqual_spec (a b : WireGuardPeer) :
  ((WireGuardPeerEqual (Some a) (Some b)).1.1 = true <-> equivalent a b) /\
  (WireGuardPeerEqual (Some a) (Some b)).1.2 = Some (sortLists a) /\
  (WireGuardPeerEqual (Some a) (Some b)).2 = Some (sortLists b) /\
  StronglySorted String.le (AllowedIps (sortLists a)) /\
  AllowedIps (sortLists a) ≡ₚ AllowedIps a /\
  (WireGuardPeerEqual None (Some b)).1.1 = false /\
  (WireGuardPeerEqual (Some a) None).1.1 = false /\
  (WireGuardPeerEqual None None).1.1 = true.
Proof.
  split_and!; try done;
    [apply WireGuardPeerEqual_verdict|apply sortStrings_sorted|apply sortStrings_perm].
Qed.

Lemma byId_antisym p q : byId p q -> byId q p -> GetId p = GetId q.
Proof.
  unfold byId, Less, String.ltb. intros H1 H2.
  rewrite String.compare_antisym in H2.
  destruct (GetId q ?= GetId p)%string eqn:E; try done.
  symmetry. by apply String.compare_eq_iff.
Qed.

Lemma Forall2_perm {A B} (R : A -> B -> Prop) l l' k :
  l ≡ₚ l' -> Forall2 R l k -> exists k', k ≡ₚ k' /\ Forall2 R l' k'.
Proof.
  intros Hp. revert k.
  induction Hp as [|x l l' _ IH|x y l|l l' l'' _ IH1 _ IH2]; intros k HF.
  - apply Forall2_nil_inv_l in HF as ->. by exists [].
  - apply Forall2_cons_inv_l in HF as (z & k0 & Hz & HF & ->).
    destruct (IH _ HF) as (k' & Hk & HF'). exists (z :: k'). split; [by f_equiv|].
    by constructor.
  - apply Forall2_cons_inv_l in HF as (z & k0 & Hz & HF & ->).
    apply Forall2_cons_inv_l in HF as (w & k1 & Hw & HF & ->).
    exists (w :: z :: k1). split; [apply perm_swap|]. by repeat constructor.
  - destruct (IH1 _ HF) as (k' & Hk & HF').
    destruct (IH2 _ HF') as (k'' & Hk' & HF'').
    exists k''. split; [by etrans|done].
Qed.

Lemma samePeer_verdict p q :
  (WireGuardPeerEqual p q).1.1 = true <-> samePeer p q.
Proof.
  destruct p as [a|], q as [b|]; try done.
  apply WireGuardPeerEqual_verdict.
Qed.

Lemma samePeer_id p q : samePeer p q -> GetId p = GetId q.
Proof. destruct p as [a|], q as [b|]; try done. by intros [[? _] _]. Qed.

Lemma peersLoop_verdict a b :
  length a = length b ->
  (peersLoop a b).1.1 = true <-> Forall2 samePeer a b.
Proof.
  revert b. induction a as [|p a IH]; intros [|q b] Hlen; simpl in *; try done.
  pose proof (samePeer_verdict p q) as Hpq.
  destruct (WireGuardPeerEqual p q) as [[eq p'] q']. simpl in Hpq.
  destruct eq; simpl.
  - specialize (IH b ltac:(lia)).
    destruct (peersLoop a b) as [[r a''] b'']. simpl in *.
    rewrite IH. split; [intros; constructor; tauto|].
    by intros [_ ?]%Forall2_cons.
  - split; [done|]. intros [H%Hpq _]%Forall2_cons. done.
Qed.

Lemma byId_fmap l :
  StronglySorted byId l <->
  StronglySorted (fun x y => String.ltb y x = false) (GetId <$> l).
Proof.
  induction l as [|p l IH]; [split; constructor|].
  rewrite fmap_cons. split; intros H; apply StronglySorted_inv in H as [Hl Hp];
    constructor; try (by apply IH).
  - by apply Forall_fmap.
  - by apply Forall_fmap in Hp.
Qed.

Lemma byId_ids l k :
  GetId <$> l = GetId <$> k -> StronglySorted byId l -> StronglySorted byId k.
Proof. intros Hids Hl. apply byId_fmap. rewrite <- Hids. by apply byId_fmap. Qed.

Lemma sorted_unique_ids l k :
  NoDup (GetId <$> l) -> l ≡ₚ k ->
  StronglySorted byId l -> StronglySorted byId k -> l = k.
Proof.
  intros Hnd Hp Hl Hk.
  apply (StronglySorted_unique_strong byId); [|done..].
  intros p q Hin1 Hin2 H1 H2. rewrite <- Hp in Hin2.
  pose proof (byId_antisym _ _ H1 H2) as Hid.
  apply list_elem_of_lookup in Hin1 as [i Hi], Hin2 as [j Hj].
  assert (i = j) as ->; [|congruence].
  eapply NoDup_lookup; [exact Hnd| |]; rewrite list_lookup_fmap.
  - by rewrite Hi.
  - rewrite Hj. simpl. by rewrite Hid.
Qed.

(** X19. [WireGuardPeersEqual] compares the two lists as sets of peers.
    When the peers of [b] have distinct ids, the verdict is true iff [b]
    can be rearranged so that it matches [a] peer by peer, nil with nil
    and every other peer up to the order of its endpoints, allowed IPs and
    allowed routes; this holds for whichever permutation the unstable
    [sort.Sort] picks. Lists of different lengths are unequal and left
    untouched. *)
Theorem WireGuardPeersEqual_spec srt a b :
  NoDup (GetId <$> b) ->
  ((WireGuardPeersEqual srt a b).1.1 = true <->
     exists b', b' ≡ₚ b /\ Forall2 samePeer a b') /\
  (length a <> length b -> WireGuardPeersEqual srt a b = (false, a, b)).
Proof.
  intros Hnd. split; last first.
  { intros Hne. unfold WireGuardPeersEqual. apply Nat.eqb_neq in Hne. by rewrite Hne. }
  unfold WireGuardPeersEqual.
  destruct (length a =? length b)%nat eqn:Hlen; simpl.
  - apply Nat.eqb_eq in Hlen.
    rewrite peersLoop_verdict
      by by rewrite (Permutation_length (sortPeers_perm srt a)),
                    (Permutation_length (sortPeers_perm srt b)).
    split.
    + intros HF.
      destruct (Forall2_perm _ _ _ _ (sortPeers_perm srt a) HF) as (k' & Hk & HF').
      exists k'. split; [|done]. by rewrite <- Hk, sortPeers_perm.
    + intros (b' & Hb' & HF).
      pose proof (sortPeers_perm srt a) as Ha. symmetry in Ha.
      destruct (Forall2_perm _ _ _ _ Ha HF) as (k' & Hk & HF').
      assert (GetId <$> sortPeers srt a = GetId <$> k') as Hids.
      { clear -HF'. induction HF' as [|p q l k Hpq _ IH]; [done|].
        rewrite !fmap_cons, IH. f_equal. by apply samePeer_id. }
      assert (sortPeers srt b = k') as ->; [|done].
      apply sorted_unique_ids.
      * by rewrite sortPeers_perm.
      * by rewrite sortPeers_perm, <- Hb'.
      * apply sortPeers_sorted.
      * eapply byId_ids; [exact Hids|]. apply sortPeers_sorted.
  - apply Nat.eqb_neq in Hlen. split; [done|].
    intros (b' & Hb' & HF). apply Forall2_length in HF.
    apply Permutation_length in Hb'. lia.
Qed.

Lemma byId_le p q : byId p q <-> String.le (GetId p) (GetId q).
Proof.
  unfold byId, Less, String.le, String.ltb, String.leb.
  rewrite String.compare_antisym.
  destruct (GetId p ?= GetId q)%string; simpl; naive_solver.
Qed.

#[local] Instance byId_dec p q : Decision (byId p q).
Proof. unfold byId. apply _. Defined.

Lemma merge_sort_byId l : StronglySorted byId (merge_sort byId l).
Proof.
  assert (Transitive byId).
  { intros p q r. rewrite !byId_le. apply transitivity. }
  assert (Total byId).
  { intros p q. rewrite !byId_le. apply total, _. }
  by apply StronglySorted_merge_sort.
Qed.

(** A stable implementation of [sort.Sort] on peers. *)
Definition mergeSortPeers : PeerSort :=
  {| sortPeers := merge_sort byId;
     sortPeers_perm := merge_sort_Permutation byId;
     sortPeers_sorted := merge_sort_byId |}.

(** A peer with the given id and allowed IPs, for closed examples. *)
Definition peerWith (id : string) (ips : list string) : option WireGuardPeer :=
  Some {| Id := id; PublicKey := "key-" +:+ id; PrimaryEndpoint := "";
          ZoneAwarenessId := ""; AddressIpv4 := ""; AddressIpv6 := ""; Proto := 0;
          Features := []; WireguardEndpoints := []; AllowedIps := ips;
          AllowedRoutes := [] |}.

Lemma WireGuardPeersEqual_spec_witness :
  (WireGuardPeersEqual mergeSortPeers
     [peerWith "a" ["10.0.0.1/32"; "10.0.0.2/32"]; peerWith "b" []]
     [peerWith "b" []; peerWith "a" ["10.0.0.2/32"; "10.0.0.1/32"]]).1.1 = true.
Proof.
  apply (WireGuardPeersEqual_spec mergeSortPeers
           [peerWith "a" ["10.0.0.1/32"; "10.0.0.2/32"]; peerWith "b" []]
           [peerWith "b" []; peerWith "a" ["10.0.0.2/32"; "10.0.0.1/32"]]).
  - apply NoDup_cons. split; [|apply NoDup_singleton].
    intros Hin%list_elem_of_singleton. discriminate.
  - exists [peerWith "a" ["10.0.0.2/32"; "10.0.0.1/32"]; peerWith "b" []].
    split; [apply perm_swap|].
    repeat constructor.
Defined.

End PeerEquality.

(** ** Peer discovery *)

Section PeerListing.
Import GoStrings v1 Networking Raft PeerDiscovery.

(** No node entry of the ACL refers to a stored group with members, so
    [Matches] has nothing to expand. *)
Definition settledACL (a : ACL) : Prop :=
  Forall (fun n => expandable (storage a) n = false) (SourceNodes (acl a)) /\
  Forall (fun n => expandable (storage a) n = false) (DestinationNodes (acl a)).

(** An ACL whose evaluation leaves later verdicts as they are: it has no
    group to expand, or its storage is orderly. *)
Definition steady (a : ACL) : Prop := settledACL a \/ orderly (storage a).

(** The ACL [a'] is what evaluations have made of the steady ACL [a]. *)
Definition evaluated (a a' : ACL) : Prop :=
  (settledACL a /\ a' = a) \/ (orderly (storage a) /\ standsFor a a').

(** Three raft peers and a policy that lets [node-a] reach the peers
    whose id starts with [core-]. *)
Definition discoveryServer : Server :=
  {| ListPublicRPCAddresses :=
       Some [("core-1", "10.0.0.1:8443"); ("edge-1", "10.0.0.2:8443");
             ("core-2", "10.0.0.3:8443")];
     StoreLeader := Some "core-1";
     Configuration :=
       [{| Suffrage := Raft.Voter; ServerID := "core-1"; ServerAddress := "10.0.0.1:9443" |};
        {| Suffrage := Nonvoter; ServerID := "edge-1"; ServerAddress := "10.0.0.2:9443" |}];
     ListNetworkACLs :=
       Some [{| acl := {| Name := "core"; Priority := 10; Action := ACTION_ACCEPT;
                          SourceNodes := ["node-a"]; DestinationNodes := ["core-*"];
                          SourceCidrs := []; DestinationCidrs := [];
                          Protocols := []; Ports := [] |};
                storage := fun _ => ErrGroupNotFound |}] |}.

Lemma setSourceNodes_same a : setSourceNodes a (SourceNodes (acl a)) = a.
Proof. by destruct a as [[] ?]. Qed.

Lemma setDestinationNodes_same a : setDestinationNodes a (DestinationNodes (acl a)) = a.
Proof. by destruct a as [[] ?]. Qed.

Lemma Matches_settled rt a action : settledACL a -> (Matches rt a action).2 = a.
Proof.
  intros [Hsrc Hdst].
  assert ((checkSrcNode rt action a).2 = a) as Hs.
  { unfold checkSrcNode. destruct (negb _); [|done].
    rewrite lenGeZero_true.
    destruct (expandGroups_unexpandable rt _ _ Hsrc) as [-> | ->]; [done|].
    apply setSourceNodes_same. }
  assert ((checkDstNode rt action a).2 = a) as Hd.
  { unfold checkDstNode. destruct (negb _); [|done].
    rewrite lenGeZero_true.
    destruct (expandGroups_unexpandable rt _ _ Hdst) as [-> | ->]; [done|].
    apply setDestinationNodes_same. }
  rewrite Matches_snd. unfold afterNodes. rewrite Hs, Hd. by case_match.
Qed.

Lemma Accept_settled rt l action :
  Forall settledACL l -> (Accept rt l action).2 = l.
Proof.
  induction 1 as [|a l Ha _ IH]; simpl; [done|].
  rewrite (Matches_settled rt a action Ha).
  destruct (Matches rt a action).1; simpl; [done|]. by rewrite IH.
Qed.

Lemma allowedPeers_sublist rt nacls caller out :
  allowedPeers rt nacls caller out `sublist_of` out.
Proof.
  revert nacls. induction out as [|peer out IH]; intros nacls; simpl; [done|].
  destruct (negb _); [apply sublist_cons|apply sublist_skip]; apply IH.
Qed.

Lemma allowedPeers_deny_all rt caller out : allowedPeers rt [] caller out = [].
Proof. induction out as [|peer out IH]; simpl; [done|apply IH]. Qed.

Lemma evaluated_refl a : steady a -> evaluated a a.
Proof. intros [H|H]; [by left|right]. split; [done|apply standsFor_refl]. Qed.

Lemma Matches_evaluated rt action a a' :
  evaluated a a' ->
  (Matches rt a' action).1 = (Matches rt a action).1 /\
  evaluated a (Matches rt a' action).2 /\
  Action (acl (Matches rt a' action).2) = Action (acl a).
Proof.
  intros [[Hs ->]|[Hst H]].
  - rewrite Matches_settled by done. split_and!; [done|by left|done].
  - destruct (Matches_standsFor rt action a a' Hst H) as [Hv Hs].
    split_and!; [done|by right|]. by destruct Hs as ((_ & _ & _ & -> & _) & _).
Qed.

Lemma Accept_evaluated rt action l l' :
  Forall2 evaluated l l' ->
  (Accept rt l' action).1 = (Accept rt l action).1 /\
  Forall2 evaluated l (Accept rt l' action).2.
Proof.
  induction 1 as [|a a' l l' Ha HF IH]; [done|]. simpl.
  destruct (Matches_evaluated rt action a a' Ha) as (Hv & He & Hact).
  assert (steady a) as Hsteady by (destruct Ha as [[? _]|[? _]]; [by left|by right]).
  destruct (Matches_evaluated rt action a a (evaluated_refl a Hsteady)) as (_ & _ & Hact').
  rewrite Hv. destruct (Matches rt a action).1; simpl.
  - rewrite Hact, Hact'. split; [done|by constructor].
  - destruct IH as [-> HF']. split; [done|by constructor].
Qed.

Lemma allowedPeers_evaluated rt nacls l' caller out :
  Forall2 evaluated nacls l' ->
  allowedPeers rt l' caller out
  = List.filter (fun peer => (Accept rt nacls (peerAction caller peer)).1) out.
Proof.
  revert l'. induction out as [|peer out IH]; intros l' HF; simpl; [done|].
  destruct (Accept_evaluated rt (peerAction caller peer) nacls l' HF) as [-> HF'].
  destruct (Accept rt nacls (peerAction caller peer)).1; simpl; by rewrite (IH _ HF').
Qed.

(** X20. What an authenticated caller is shown. When [ListPeers]
    answers an authenticated caller, the same request without
    authentication is answered too, and the peers shown to the caller
    are a sublist of those, in the same order and with the same address,
    voter and leader fields; with no network ACL stored the caller is
    shown no peer at all. *)
Theorem ListPeers_authenticated_sublist rt s caller peers :
  ListPeers rt s (Some caller) = inl peers ->
  exists all,
    ListPeers rt s None = inl all /\
    peers `sublist_of` all /\
    (ListNetworkACLs s = Some [] -> peers = []).
Proof.
  unfold ListPeers.
  destruct (ListPublicRPCAddresses s) as [addrs|]; [|done].
  destruct (StoreLeader s) as [leader|]; [|done].
  destruct (ListNetworkACLs s) as [nacls|]; [|done].
  intros [= <-]. eexists. split; [done|]. split; [apply allowedPeers_sublist|].
  intros [= ->]. apply allowedPeers_deny_all.
Qed.

Lemma ListPeers_authenticated_sublist_witness :
  exists all,
    ListPeers insertionOrderRuntime discoveryServer None = inl all /\
    [{| PeerId := "core-1"; Address := "10.0.0.1:8443"; Voter := true; Leader := true |};
     {| PeerId := "core-2"; Address := "10.0.0.3:8443"; Voter := false; Leader := false |}]
      `sublist_of` all /\
    (ListNetworkACLs discoveryServer = Some [] ->
     [{| PeerId := "core-1"; Address := "10.0.0.1:8443"; Voter := true; Leader := true |};
      {| PeerId := "core-2"; Address := "10.0.0.3:8443"; Voter := false; Leader := false |}]
       = []).
Proof.
  apply (ListPeers_authenticated_sublist insertionOrderRuntime discoveryServer "node-a").
  vm_compute. reflexivity.
Defined.

(** X21. The filter of [ListPeers]. Although every peer is judged
    against the list the evaluations before it have rewritten, the
    authenticated caller is shown exactly the peers for which the ACLs as
    stored, in the order they are listed and with the first match
    deciding, accept the action from the caller to the peer, provided
    every ACL either has no group to expand or reads an orderly storage. *)
Theorem ListPeers_filters rt s caller addrs leader nacls :
  ListPublicRPCAddresses s = Some addrs ->
  StoreLeader s = Some leader ->
  ListNetworkACLs s = Some nacls ->
  Forall steady nacls ->
  ListPeers rt s (Some caller)
  = inl (List.filter (fun peer => (Accept rt nacls (peerAction caller peer)).1)
           (raftPeers (Configuration s) leader addrs)).
Proof.
  intros Ha Hl Hn Hs. unfold ListPeers. rewrite Ha, Hl, Hn.
  rewrite (allowedPeers_evaluated rt nacls nacls); [done|].
  apply Forall_Forall2_diag. eapply Forall_impl; [exact Hs|apply evaluated_refl].
Qed.

Lemma ListPeers_filters_witness :
  ListPeers insertionOrderRuntime discoveryServer (Some "node-a")
  = inl (List.filter
           (fun peer =>
              (Accept insertionOrderRuntime
                 (default [] (ListNetworkACLs discoveryServer))
                 (peerAction "node-a" peer)).1)
           (raftPeers (Configuration discoveryServer) "core-1"
              (default [] (ListPublicRPCAddresses discoveryServer)))).
Proof.
  apply (ListPeers_filters insertionOrderRuntime discoveryServer "node-a");
    [reflexivity..|].
  constructor; [|constructor]. left. by repeat constructor.
Defined.

End PeerListing.

(** ** The bootstrap ACL *)

Section BootstrapPolicy.
Import GoStrings v1 Networking Raft Bootstrap.

Variable name votersGroup admin voters : string.
Variable servers : list Raft.Server.

(** The names the voters group is made of. *)
Definition voterNames : list string :=
  SubjectName <$> votersSubjects admin servers voters.

(** The bootstrap ACL as a resolver holds it, over a storage in which
    the voters group is stored. *)
Definition storedBootstrapACL (st : Storage) : ACL :=
  {| acl := bootstrapNodesNetworkACL name votersGroup; storage := st |}.

Lemma votersSubjects_nodes :
  Forall (fun s => SubjectKind s = SUBJECT_NODE) (votersSubjects admin servers voters).
Proof.
  unfold votersSubjects. rewrite !Forall_app. split_and!.
  - by repeat constructor.
  - by apply Forall_fmap, Forall_true.
  - destruct (negb _); [|done]. by apply Forall_fmap, Forall_true.
Qed.

Lemma filter_nodes (l : list Subject) :
  Forall (fun s => SubjectKind s = SUBJECT_NODE) l -> List.filter nodeSubject l = l.
Proof.
  induction 1 as [|x l Hx _ IH]; simpl; [done|].
  unfold nodeSubject at 1. rewrite Hx. simpl. by rewrite IH.
Qed.

Lemma membersOf_voters :
  membersOf (votersGroupOf votersGroup admin servers voters) = voterNames.
Proof.
  unfold membersOf, voterNames, votersGroupOf. cbn [Subjects].
  by rewrite filter_nodes by apply votersSubjects_nodes.
Qed.

Lemma voterNames_cons : exists rest, voterNames = admin :: rest.
Proof. unfold voterNames, votersSubjects. simpl. by eexists. Qed.

Lemma expandGroups_voters rt st :
  st votersGroup = GroupFound (votersGroupOf votersGroup admin servers voters) ->
  expandGroups rt st ["group:" +:+ votersGroup] = Some voterNames.
Proof.
  intros Hst.
  pose proof (expandGroups_single rt st [] votersGroup [] _ (Forall_nil_2 _) Hst) as H.
  rewrite membersOf_voters in H. destruct voterNames_cons as [rest Hrest].
  rewrite Hrest in H |- *. rewrite app_nil_l, app_nil_r in H. exact H.
Qed.

Lemma literal_match l s :
  Forall starFree l -> containsOrWildcardMatch l s = true <-> s ∈ l.
Proof.
  intros Hl. rewrite containsOrWildcardMatch_elem. rewrite Forall_forall in Hl.
  split.
  - intros (v & Hv & Hm). apply wildcard_literal in Hm as <-; [done|by apply Hl].
  - intros Hs. exists s. split; [done|]. apply wildcard_literal; [by apply Hl|done].
Qed.

(** X22. Whom the bootstrap ACL lets through. With the voters group
    stored as [initialBootstrapLeader] writes it and none of its names
    holding a ["*"], the bootstrap ACL matches the action from one node
    to another, no other field set, iff both are among the admin, the
    servers of the raft configuration and the configured voters; it
    matches no action that names a CIDR, a protocol or a port. *)
Theorem bootstrap_acl_matches_voters rt st (action : NetworkAction) :
  st votersGroup = GroupFound (votersGroupOf votersGroup admin servers voters) ->
  Forall starFree voterNames ->
  SrcNode action <> "" -> DstNode action <> "" ->
  (SrcCidr action = "" -> DstCidr action = "" -> Protocol action = "" ->
   Port action = 0 ->
   (Matches rt (storedBootstrapACL st) action).1 = true <->
   SrcNode action ∈ voterNames /\ DstNode action ∈ voterNames) /\
  (SrcCidr action <> "" \/ DstCidr action <> "" \/ Protocol action <> "" \/
   Port action <> 0 ->
   (Matches rt (storedBootstrapACL st) action).1 = false).
Proof.
  intros Hst Hfree Hsrc Hdst.
  assert (checkSrcNode rt action (storedBootstrapACL st)
          = (containsOrWildcardMatch voterNames (SrcNode action),
             setSourceNodes (storedBootstrapACL st) voterNames)) as Hs.
  { unfold checkSrcNode. apply String.eqb_neq in Hsrc. rewrite Hsrc. cbn [negb].
    rewrite lenGeZero_true.
    cbn [storedBootstrapACL acl storage bootstrapNodesNetworkACL SourceNodes].
    by rewrite expandGroups_voters. }
  assert (checkDstNode rt action (setSourceNodes (storedBootstrapACL st) voterNames)
          = (containsOrWildcardMatch voterNames (DstNode action),
             setDestinationNodes (setSourceNodes (storedBootstrapACL st) voterNames)
               voterNames)) as Hd.
  { unfold checkDstNode. apply String.eqb_neq in Hdst. rewrite Hdst. cbn [negb].
    rewrite lenGeZero_true.
    cbn [setSourceNodes storedBootstrapACL acl storage bootstrapNodesNetworkACL
         DestinationNodes].
    by rewrite expandGroups_voters. }
  rewrite Matches_fst. unfold afterNodes. rewrite Hs. cbn [fst snd]. rewrite Hd.
  cbn [fst snd]. split.
  - intros H1 H2 H3 H4.
    unfold checkList, checkPort. rewrite H1, H2, H3, H4.
    cbn [negb String.eqb Z.eqb fst].
    rewrite !andb_true_r, andb_true_iff, !literal_match by done. done.
  - intros Hset. rewrite !andb_false_iff. right; right.
    destruct Hset as [H|[H|[H|H]]].
    + left. by apply checkList_empty.
    + right; left. by apply checkList_empty.
    + right; right; left. by apply checkList_empty.
    + right; right; right. by apply checkPort_empty.
Qed.

End BootstrapPolicy.

Section BootstrapExample.
Import GoStrings v1 Networking Raft Bootstrap.

(** A cluster bootstrapped by [admin] with the servers [s1] and [s2]
    and the additional voters [v1] and [v2]. *)
Definition bootstrapStorage : Storage :=
  fun group =>
    if String.eqb group "voters"
    then GroupFound (votersGroupOf "voters" "admin"
           [{| Suffrage := Raft.Voter; ServerID := "s1"; ServerAddress := "10.0.0.1:9443" |};
            {| Suffrage := Raft.Voter; ServerID := "s2"; ServerAddress := "10.0.0.2:9443" |}]
           "v1,v2")
    else ErrGroupNotFound.

Lemma bootstrap_acl_matches_voters_witness :
  (Matches insertionOrderRuntime
     (storedBootstrapACL "bootstrap-nodes" "voters" bootstrapStorage)
     {| SrcNode := "s2"; SrcCidr := ""; DstNode := "v2"; DstCidr := "";
        Protocol := ""; Port := 0 |}).1 = true.
Proof.
  apply (bootstrap_acl_matches_voters "bootstrap-nodes" "voters" "admin" "v1,v2"
           [{| Suffrage := Raft.Voter; ServerID := "s1"; ServerAddress := "10.0.0.1:9443" |};
            {| Suffrage := Raft.Voter; ServerID := "s2"; ServerAddress := "10.0.0.2:9443" |}]
           insertionOrderRuntime bootstrapStorage
           {| SrcNode := "s2"; SrcCidr := ""; DstNode := "v2"; DstCidr := "";
              Protocol := ""; Port := 0 |});
    try reflexivity; try discriminate.
  - repeat constructor.
  - split.
    + do 2 apply list_elem_of_further. apply list_elem_of_here.
    + do 4 apply list_elem_of_further. apply list_elem_of_here.
Defined.

End BootstrapExample.

(** ** Reconciling the interface with the resolver *)

Section Reconcile.
Import NetManager.

(** A manager with the peers [b] and [old] configured, for which the
    resolver now returns [b] and [c]; adding [b] fails. *)
Definition staleManager : manager :=
  {| wg := true;
     WireGuardPeersFor := Some [{| Id := "b"; Ice := false |}; {| Id := "c"; Ice := true |}];
     Peers := ["old"; "b"];
     iceConns := ["old"];
     ListByFeature := Some [{| PublicRPCAddr := None;
                               PrivateRPCAddrV4 := Some "172.16.0.9:8443";
                               PrivateRPCAddrV6 := None |}];
     addPeerFails := fun peer _ => String.eqb (Id peer) "b";
     DeletePeerFails := fun _ => false |}.

(** A manager for which every call succeeds: [a] stays, [c] uses ICE
    and is new, [old] is stale. *)
Definition soundManager : manager :=
  {| wg := true;
     WireGuardPeersFor := Some [{| Id := "a"; Ice := false |}; {| Id := "c"; Ice := true |}];
     Peers := ["a"; "old"];
     iceConns := [];
     ListByFeature := Some [{| PublicRPCAddr := Some "203.0.113.7:8443";
                               PrivateRPCAddrV4 := None;
                               PrivateRPCAddrV6 := None |}];
     addPeerFails := fun _ _ => false;
     DeletePeerFails := fun _ => false |}.

Lemma ensurePeer_seen m st peer :
  seenPeers (ensurePeer m st peer) = seenPeers st ++ [Id peer].
Proof. unfold ensurePeer. by case_match. Qed.

Lemma ensurePeers_seen m wgpeers st :
  seenPeers (fold_left (ensurePeer m) wgpeers st) = seenPeers st ++ (Id <$> wgpeers).
Proof.
  revert st. induction wgpeers as [|peer l IH]; intros st; simpl.
  - by rewrite app_nil_r.
  - by rewrite IH, ensurePeer_seen, <- app_assoc.
Qed.

Lemma ensurePeer_no_delete m st peer id :
  CallDeletePeer id ∈ calls (ensurePeer m st peer) <-> CallDeletePeer id ∈ calls st.
Proof.
  unfold ensurePeer. repeat case_match; simpl; set_solver.
Qed.

Lemma ensurePeers_no_delete m wgpeers st id :
  CallDeletePeer id ∈ calls (fold_left (ensurePeer m) wgpeers st)
  <-> CallDeletePeer id ∈ calls st.
Proof.
  revert st. induction wgpeers as [|peer l IH]; intros st; simpl; [done|].
  by rewrite IH, ensurePeer_no_delete.
Qed.

Lemma removeStale_seen m st peer : seenPeers (removeStale m st peer) = seenPeers st.
Proof. unfold removeStale. by case_match. Qed.

Lemma removeStale_deletes m current st id :
  CallDeletePeer id ∈ calls (fold_left (removeStale m) current st) <->
  CallDeletePeer id ∈ calls st \/ (id ∈ current /\ id ∉ seenPeers st).
Proof.
  revert st. induction current as [|peer l IH]; intros st; simpl.
  - set_solver.
  - rewrite IH, removeStale_seen. unfold removeStale.
    case_bool_decide as Hseen; simpl.
    + rewrite elem_of_cons. naive_solver.
    + rewrite !elem_of_app, !elem_of_cons.
      destruct (bool_decide (peer ∈ iceConns m)); set_solver.
Qed.

Lemma ensurePeer_adds m st peer id srv :
  CallAddPeer id srv ∈ calls st -> CallAddPeer id srv ∈ calls (ensurePeer m st peer).
Proof. unfold ensurePeer. repeat case_match; simpl; set_solver. Qed.

Lemma ensurePeers_adds m wgpeers st peer :
  peer ∈ wgpeers -> Ice peer = false ->
  exists srv, CallAddPeer (Id peer) srv ∈ calls (fold_left (ensurePeer m) wgpeers st).
Proof.
  revert st. induction wgpeers as [|p l IH]; intros st Hin Hice; [by apply elem_of_nil in Hin|].
  apply elem_of_cons in Hin as [<-|Hin]; simpl; [|by apply IH].
  assert (exists srv, CallAddPeer (Id peer) srv ∈ calls (ensurePeer m st peer)) as [srv Hsrv].
  { unfold ensurePeer. rewrite Hice. simpl. eexists.
    apply elem_of_app. right. apply list_elem_of_here. }
  exists srv. clear IH. revert Hsrv. generalize (ensurePeer m st peer).
  induction l as [|q l IH]; intros st' Hsrv; simpl; [done|].
  by apply IH, ensurePeer_adds.
Qed.

Lemma removeStale_keeps m current st c :
  c ∈ calls st -> c ∈ calls (fold_left (removeStale m) current st).
Proof.
  revert st. induction current as [|peer l IH]; intros st Hc; simpl; [done|].
  apply IH. unfold removeStale. case_match; simpl; set_solver.
Qed.

(** X23. [RefreshPeers] reconciles the interface with the resolver.
    When the interface exists and the resolver answers, a configured
    peer is deleted iff the resolver no longer returns it, and every
    descriptor that does not use ICE is handed to [addPeer], whichever
    of these calls fail along the way. *)
Theorem RefreshPeers_reconciles m wgpeers :
  wg m = true -> WireGuardPeersFor m = Some wgpeers ->
  (forall id, CallDeletePeer id ∈ (RefreshPeers m).1 <->
     id ∈ Peers m /\ id ∉ (Id <$> wgpeers)) /\
  (forall peer, peer ∈ wgpeers -> Ice peer = false ->
     exists srv, CallAddPeer (Id peer) srv ∈ (RefreshPeers m).1).
Proof.
  intros Hwg Hres. unfold RefreshPeers. rewrite Hwg, Hres. cbn [negb fst]. split.
  - intros id. rewrite elem_of_app, removeStale_deletes, ensurePeers_no_delete,
      ensurePeers_seen. simpl. set_solver.
  - intros peer Hin Hice.
    destruct (ensurePeers_adds m wgpeers
      {| seenPeers := []; iceServers := []; errs := [];
         calls := [Lock; CallWireGuardPeersFor] |} peer Hin Hice) as [srv Hsrv].
    exists srv. apply elem_of_app. left. by apply removeStale_keeps.
Qed.

Lemma RefreshPeers_reconciles_witness :
  RefreshPeers staleManager
  = ([Lock; CallWireGuardPeersFor; CallAddPeer "b" []; CallListByFeature;
      CallAddPeer "c" ["172.16.0.9:8443"]; CloseICE "old"; CallDeletePeer "old"; Unlock],
     ["add peer"]) /\
  (forall id, CallDeletePeer id ∈ (RefreshPeers staleManager).1 <->
     id ∈ Peers staleManager /\ id ∉ ["b"; "c"]) /\
  (forall peer, peer ∈ [{| Id := "b"; Ice := false |}; {| Id := "c"; Ice := true |}] ->
     Ice peer = false ->
     exists srv, CallAddPeer (Id peer) srv ∈ (RefreshPeers staleManager).1).
Proof.
  split; [reflexivity|].
  apply (RefreshPeers_reconciles staleManager
           [{| Id := "b"; Ice := false |}; {| Id := "c"; Ice := true |}]); reflexivity.
Defined.

Lemma ensurePeer_calls m st peer c :
  c ∈ calls st -> c ∈ calls (ensurePeer m st peer).
Proof. unfold ensurePeer. repeat case_match; simpl; set_solver. Qed.

Lemma ensurePeers_calls m wgpeers st c :
  c ∈ calls st -> c ∈ calls (fold_left (ensurePeer m) wgpeers st).
Proof.
  revert st. induction wgpeers as [|p l IH]; intros st Hc; simpl; [done|].
  by apply IH, ensurePeer_calls.
Qed.

Lemma ensurePeer_clean m st peer :
  errs (ensurePeer m st peer) = [] ->
  errs st = [] /\
  exists srv, CallAddPeer (Id peer) srv ∈ calls (ensurePeer m st peer) /\
              addPeerFails m peer srv = false.
Proof.
  unfold ensurePeer.
  destruct (if Ice peer && (length (iceServers st) =? 0)%nat then ListByFeature m else Some [])
    as [icepeers|]; simpl.
  - intros [He Hf]%app_eq_nil. split; [done|].
    exists (iceServers st ++ flat_map iceServerOf icepeers). split.
    + rewrite !elem_of_app. right. right. apply list_elem_of_here.
    + by destruct (addPeerFails m peer _).
  - by intros [_ ?]%app_eq_nil.
Qed.

Lemma ensurePeers_clean m wgpeers st :
  errs (fold_left (ensurePeer m) wgpeers st) = [] ->
  errs st = [] /\
  forall peer, peer ∈ wgpeers ->
    exists srv, CallAddPeer (Id peer) srv ∈ calls (fold_left (ensurePeer m) wgpeers st) /\
                addPeerFails m peer srv = false.
Proof.
  revert st. induction wgpeers as [|p l IH]; intros st He; simpl in *.
  - split; [done|]. intros peer Hin. by apply elem_of_nil in Hin.
  - destruct (IH _ He) as [He' Hl].
    destruct (ensurePeer_clean m st p He') as [Hst (srv & Hsrv & Hf)].
    split; [done|]. intros peer [->|Hin]%elem_of_cons; [|by apply Hl].
    exists srv. split; [by apply ensurePeers_calls|done].
Qed.

Lemma removeStale_clean m current st :
  errs (fold_left (removeStale m) current st) = [] ->
  errs st = [] /\
  forall id, id ∈ current -> id ∉ seenPeers st -> DeletePeerFails m id = false.
Proof.
  revert st. induction current as [|p l IH]; intros st He; simpl in *.
  - split; [done|]. intros id Hin. by apply elem_of_nil in Hin.
  - destruct (IH _ He) as [He' Hl]. rewrite removeStale_seen in Hl.
    unfold removeStale in He'. case_bool_decide as Hseen; simpl in He'.
    + split; [done|]. intros id [->|Hin]%elem_of_cons Hid; [done|by apply Hl].
    + apply app_eq_nil in He' as [Hst Hf]. split; [done|].
      intros id [->|Hin]%elem_of_cons Hid; [|by apply Hl].
      by destruct (DeletePeerFails m p).
Qed.

(** X24. A nil error means the interface is reconciled. With an
    interface, [RefreshPeers] returns nil only if the resolver answered,
    every descriptor it returned, with ICE or without, was handed to
    [addPeer] and that call succeeded, and every configured peer the
    resolver no longer returns was deleted and that call succeeded: a
    failure of the resolver, of the ICE lookup, of [addPeer] or of
    [DeletePeer] always shows in the returned error. *)
Theorem RefreshPeers_nil_means_reconciled m :
  wg m = true -> (RefreshPeers m).2 = [] ->
  exists wgpeers, WireGuardPeersFor m = Some wgpeers /\
    (forall peer, peer ∈ wgpeers ->
       exists srv, CallAddPeer (Id peer) srv ∈ (RefreshPeers m).1 /\
                   addPeerFails m peer srv = false) /\
    (forall id, id ∈ Peers m -> id ∉ (Id <$> wgpeers) ->
       CallDeletePeer id ∈ (RefreshPeers m).1 /\ DeletePeerFails m id = false).
Proof.
  intros Hwg. unfold RefreshPeers. rewrite Hwg. cbn [negb].
  destruct (WireGuardPeersFor m) as [wgpeers|]; [|done]. cbn [fst snd].
  intros He. exists wgpeers. split; [done|].
  destruct (removeStale_clean _ _ _ He) as [He' Hdel].
  destruct (ensurePeers_clean _ _ _ He') as [_ Hadd].
  rewrite ensurePeers_seen in Hdel. split.
  - intros peer Hin. destruct (Hadd peer Hin) as (srv & Hsrv & Hf).
    exists srv. split; [|done]. apply elem_of_app. left. by apply removeStale_keeps.
  - intros id Hin Hid. split; [|by apply Hdel].
    apply elem_of_app. left. apply removeStale_deletes. right.
    by rewrite ensurePeers_seen.
Qed.

Lemma RefreshPeers_nil_means_reconciled_witness :
  RefreshPeers soundManager
  = ([Lock; CallWireGuardPeersFor; CallAddPeer "a" []; CallListByFeature;
      CallAddPeer "c" ["203.0.113.7:8443"]; CallDeletePeer "old"; Unlock], []) /\
  exists wgpeers, WireGuardPeersFor soundManager = Some wgpeers /\
    (forall peer, peer ∈ wgpeers ->
       exists srv, CallAddPeer (Id peer) srv ∈ (RefreshPeers soundManager).1 /\
                   addPeerFails soundManager peer srv = false) /\
    (forall id, id ∈ Peers soundManager -> id ∉ (Id <$> wgpeers) ->
       CallDeletePeer id ∈ (RefreshPeers soundManager).1 /\
       DeletePeerFails soundManager id = false).
Proof.
  split; [reflexivity|].
  apply (RefreshPeers_nil_means_reconciled soundManager); reflexivity.
Defined.

End Reconcile.

(** ** List columns of the peers store *)

Section ListColumns.
Import GoStrings PeersStore.

(** The number of bytes [c] in the string. *)
Fixpoint countChar (c : ascii) (s : string) : nat :=
  match s with
  | EmptyString => 0
  | String a s' => (if Ascii.eqb a c then 1 else 0) + countChar c s'
  end.

(** The string holds no comma. *)
Definition commaFree (s : string) : Prop := countChar "," s = 0%nat.

Lemma Split_nonempty s c : Split s c <> [].
Proof.
  induction s as [|a s IH]; simpl; [done|].
  destruct (Ascii.eqb a c); [done|]. by destruct (Split s c).
Qed.

Lemma length_Split s c : length (Split s c) = S (countChar c s).
Proof.
  induction s as [|a s IH]; simpl; [done|].
  destruct (Ascii.eqb a c); simpl; [by rewrite IH|].
  pose proof (Split_nonempty s c). destruct (Split s c); [done|]. by rewrite <- IH.
Qed.

Lemma Split_free s c : countChar c s = 0%nat -> Split s c = [s].
Proof.
  induction s as [|a s IH]; simpl; [done|].
  destruct (Ascii.eqb a c); simpl; [done|]. intros H. by rewrite IH.
Qed.

Lemma Split_sep p q c :
  countChar c p = 0%nat -> Split (p +:+ String c q) c = p :: Split q c.
Proof.
  induction p as [|a p IH].
  - intros _. rewrite append_nil. simpl. by rewrite Ascii.eqb_refl.
  - rewrite append_cons. simpl. destruct (Ascii.eqb a c); simpl; [done|].
    intros H. by rewrite IH.
Qed.

Lemma countChar_app c a b :
  countChar c (a +:+ b) = (countChar c a + countChar c b)%nat.
Proof.
  induction a as [|x a IH]; [done|]. rewrite append_cons. simpl. rewrite IH. lia.
Qed.

Lemma Join_cons x y rest sep :
  Join (x :: y :: rest) sep = x +:+ sep +:+ Join (y :: rest) sep.
Proof. reflexivity. Qed.

Lemma countChar_Join c l :
  l <> [] ->
  countChar c (Join l (String c "")) =
    (length l - 1 + list_sum (countChar c <$> l))%nat.
Proof.
  induction l as [|x l IH]; [done|]. intros _.
  destruct l as [|y l].
  - simpl. lia.
  - rewrite Join_cons, !countChar_app, IH by done.
    simpl. rewrite Ascii.eqb_refl. lia.
Qed.

Lemma Split_Join l :
  l <> [] -> Forall commaFree l -> Split (Join l ",") ","%char = l.
Proof.
  induction l as [|x l IH]; [done|]. intros _ [Hx Hl]%Forall_cons.
  destruct l as [|y l].
  - by apply Split_free.
  - rewrite Join_cons. change ("," +:+ Join (y :: l) ",") with (String "," (Join (y :: l) ",")).
    rewrite Split_sep by done. by rewrite IH.
Qed.

Lemma list_sum_zero (l : list nat) : list_sum l = 0%nat -> Forall (fun n => n = 0%nat) l.
Proof.
  induction l as [|n l IH]; simpl; [done|]. intros H. constructor; [lia|apply IH; lia].
Qed.

(** X25. The list columns of a node survive the store exactly when no
    entry holds a comma. Reading back what [Create] or [Update] wrote for
    the allowed IPs or the available zones gives the list that was
    written iff every entry is free of [","]; an entry with a comma comes
    back split in two, and the empty list is stored as NULL and read as
    nil. *)
Theorem list_column_round_trip (l : list string) :
  (decodeList (encodeList l) = l <-> Forall commaFree l) /\
  length (decodeList (encodeList l))
    = (length l + list_sum (countChar "," <$> l))%nat.
Proof.
  unfold encodeList, decodeList. destruct l as [|x l]; [by split|].
  cbn [length Nat.ltb Nat.leb].
  assert (length (Split (Join (x :: l) ",") ",")
          = (length (x :: l) + list_sum (countChar "," <$> x :: l))%nat) as Hlen.
  { rewrite length_Split, (countChar_Join "," (x :: l)) by done. simpl. lia. }
  split; [|done]. split.
  - intros Heq. rewrite Heq in Hlen.
    assert (list_sum (countChar "," <$> x :: l) = 0%nat) as Hz by lia.
    apply list_sum_zero in Hz. by apply Forall_fmap in Hz.
  - by apply Split_Join.
Qed.

End ListColumns.

(** ** Restoring any snapshot *)

Section RestoreAlways.
Import Snapshots.

(** X26. [Restore] restores nothing, whatever the snapshot and the
    database: the transaction is rolled back before the first statement
    runs, so the first statement fails with [sql.ErrTxDone], [Restore]
    returns that error wrapped as "drop mesh state", and the database is
    left as it was. *)
Theorem Restore_leaves_database model db :
  Restore model db
  = (Some "drop mesh state: sql: transaction has already been committed or rolled back",
     db) /\
  txDone (Rollback (Begin db)).2 = true.
Proof. split; [apply Restore_fails|done]. Qed.

End RestoreAlways.
